(** * pg_probackup: the MERGE command (src/merge.c)

    A shallow embedding of [do_merge], [merge_backups], [merge_files],
    [get_extra_index] and [reorder_extra_dirs], and the properties of the
    merge engine stated over it.

    The C code is stateful: it calls the catalog, the block codec and the
    file system, it mutates backup descriptors and manifest entries in place
    and it leaves through [elog(ERROR, ...)].  The embedding threads an
    explicit state (the outside world and the log of the calls made to it)
    through an error monad; integers are [Z] with their wrap-around written
    out; arrays ([parray]) are lists read and updated by index. *)

From Stdlib Require Import ZArith String Lia.
From stdpp Require Import base numbers list strings.

Open Scope string_scope.
Open Scope list_scope.
Open Scope Z_scope.

(** ** Constants and enumerations of pg_probackup.h

    The header is not part of the sources under study; the names below are
    the ones merge.c uses. *)

(** Modelled from the spec: the identifier that stands for "no backup"
    (the parent of a FULL backup); pg_probackup.h defines it as 0. *)
Definition INVALID_BACKUP_ID : Z := 0.

(** Modelled from the spec: the write-size sentinel "invalid" (unchanged
    since parent, not stored); pg_probackup.h defines it as -1. *)
Definition BYTES_INVALID : Z := -1.

(** Modelled from the spec: status is OK | MERGING | DELETING | CORRUPT |
    other states outside merge's concern; ERROR stands for the latter. *)
Inductive BackupStatus :=
| BACKUP_STATUS_OK
| BACKUP_STATUS_ERROR
| BACKUP_STATUS_MERGING
| BACKUP_STATUS_DELETING
| BACKUP_STATUS_CORRUPT.

(** Modelled from the spec: FULL | INCREMENTAL-PAGE | INCREMENTAL-DELTA. *)
Inductive BackupMode :=
| BACKUP_MODE_DIFF_PAGE
| BACKUP_MODE_DIFF_DELTA
| BACKUP_MODE_FULL.

(** Modelled from the spec: the compression algorithm of a backup or of a
    file, "none" or one of the two merge.c names. *)
Inductive CompressAlg :=
| NOT_DEFINED_COMPRESS
| NONE_COMPRESS
| PGLZ_COMPRESS
| ZLIB_COMPRESS.

#[global] Instance BackupStatus_eq_dec : EqDecision BackupStatus.
Proof. solve_decision. Defined.
#[global] Instance BackupMode_eq_dec : EqDecision BackupMode.
Proof. solve_decision. Defined.
#[global] Instance CompressAlg_eq_dec : EqDecision CompressAlg.
Proof. solve_decision. Defined.

(** Modelled from the spec: the parts of a backup merge.c asks the path of
    (the third argument of [pgBackupGetPath]): its data tree, the root of
    its numbered extra directories, its manifest. *)
Inductive subdir := DATABASE_DIR | EXTRA_DIR | DATABASE_FILE_LIST.

(** Modelled from the spec: path joining is left to helpers outside
    merge.c.  Paths are kept symbolic: each constructor is one of the path
    builders merge.c calls (the fixed MAXPGPATH buffers are taken large
    enough).  [listed] is the path an entry carries in [file->path] when
    merge.c passes the entry on as the listing of a directory gave it,
    without building a path itself. *)
Inductive fspath :=
| pgBackupGetPath (start_time : Z) (sub : option subdir)
| makeExtraDirPathByNum (path_prefix : fspath) (dir_num : Z)
| join_path_components (head : fspath) (tail : string)
| tmp_suffix (p : fspath)                  (* snprintf(.., "%s_tmp", p) *)
| listed (path : string).                  (* file->path of a listed entry *)

(** [st_mode] tests of <sys/stat.h>. *)
Definition S_IFMT  : Z := 61440.   (* 0170000 *)
Definition S_IFDIR : Z := 16384.   (* 0040000 *)
Definition S_IFREG : Z := 32768.   (* 0100000 *)
Definition S_ISDIR (m : Z) : bool := Z.land m S_IFMT =? S_IFDIR.
Definition S_ISREG (m : Z) : bool := Z.land m S_IFMT =? S_IFREG.

(** ** Backup descriptors and manifest entries *)

Module pgBackup.
Record t := mk {
  start_time : Z;                 (* time_t, the backup ID *)
  parent_backup : Z;
  status : BackupStatus;
  backup_mode : BackupMode;
  start_lsn : Z;                  (* XLogRecPtr: uint64 *)
  stop_lsn : Z;
  recovery_time : Z;
  recovery_xid : Z;
  extra_dir_str : option string;  (* NULL or the encoded list *)
  stream : bool;
  data_bytes : Z;                 (* int64 *)
  wal_bytes : Z;                  (* int64 *)
  compress_alg : CompressAlg;
  compress_level : Z;
  program_version : string
}.

Definition set_status (s : BackupStatus) (b : t) : t :=
  mk (start_time b) (parent_backup b) s (backup_mode b) (start_lsn b)
     (stop_lsn b) (recovery_time b) (recovery_xid b) (extra_dir_str b)
     (stream b) (data_bytes b) (wal_bytes b) (compress_alg b)
     (compress_level b) (program_version b).

Definition set_start_time (v : Z) (b : t) : t :=
  mk v (parent_backup b) (status b) (backup_mode b) (start_lsn b)
     (stop_lsn b) (recovery_time b) (recovery_xid b) (extra_dir_str b)
     (stream b) (data_bytes b) (wal_bytes b) (compress_alg b)
     (compress_level b) (program_version b).

Definition set_extra_dir_str (v : option string) (b : t) : t :=
  mk (start_time b) (parent_backup b) (status b) (backup_mode b)
     (start_lsn b) (stop_lsn b) (recovery_time b) (recovery_xid b) v
     (stream b) (data_bytes b) (wal_bytes b) (compress_alg b)
     (compress_level b) (program_version b).
End pgBackup.
Abbreviation pgBackup := pgBackup.t.

Module pgFile.
Record t := mk {
  path : string;                  (* relative path *)
  name : string;
  mode : Z;                       (* st_mode *)
  size : Z;
  write_size : Z;                 (* int64, BYTES_INVALID if unchanged *)
  n_blocks : Z;                   (* int, -1 if not incremental *)
  crc : Z;
  compress_alg : CompressAlg;
  is_datafile : bool;
  is_cfs : bool;
  extra_dir_num : Z;              (* 0 or 1-based index *)
  lock : bool                     (* pg_atomic_flag *)
}.

Definition set_lock (v : bool) (f : t) : t :=
  mk (path f) (name f) (mode f) (size f) (write_size f) (n_blocks f)
     (crc f) (compress_alg f) (is_datafile f) (is_cfs f)
     (extra_dir_num f) v.

Definition set_size (v : Z) (f : t) : t :=
  mk (path f) (name f) (mode f) v (write_size f) (n_blocks f)
     (crc f) (compress_alg f) (is_datafile f) (is_cfs f)
     (extra_dir_num f) (lock f).

Definition set_write_size (v : Z) (f : t) : t :=
  mk (path f) (name f) (mode f) (size f) v (n_blocks f)
     (crc f) (compress_alg f) (is_datafile f) (is_cfs f)
     (extra_dir_num f) (lock f).

Definition set_crc (v : Z) (f : t) : t :=
  mk (path f) (name f) (mode f) (size f) (write_size f) (n_blocks f)
     v (compress_alg f) (is_datafile f) (is_cfs f)
     (extra_dir_num f) (lock f).

Definition set_compress_alg (v : CompressAlg) (f : t) : t :=
  mk (path f) (name f) (mode f) (size f) (write_size f) (n_blocks f)
     (crc f) v (is_datafile f) (is_cfs f) (extra_dir_num f) (lock f).

(** A callee that is handed [file] may rewrite its bookkeeping fields;
    merge.c restores [path] itself and the claim flag is only touched by
    [pg_atomic_test_set_flag]. *)
Definition keep_identity (old new : t) : t :=
  mk (path old) (name old) (mode new) (size new) (write_size new)
     (n_blocks new) (crc new) (compress_alg new) (is_datafile new)
     (is_cfs new) (extra_dir_num new) (lock old).
End pgFile.
Abbreviation pgFile := pgFile.t.

(** ** get_extra_index (merge.c:672-683)

    [list] is a [parray *] that may be NULL; the result is the 1-based
    position of the first entry equal to [key], or -1. *)
Fixpoint get_extra_index_from (key : string) (l : list string) (i : Z) : Z :=
  match l with
  | [] => -1
  | x :: rest => if String.eqb key x then i + 1
                 else get_extra_index_from key rest (i + 1)
  end.

Definition get_extra_index (key : string) (list : option (list string)) : Z :=
  match list with
  | None => -1                       (* Nowhere to search *)
  | Some l => get_extra_index_from key l 0
  end.

(** ** Messages

    [elog(INFO, ...)] lines are part of what the command does to the outside
    and are logged; VERBOSE and LOG lines are left out.  [elog(ERROR, ...)]
    does not return: it is the way merge.c fails. *)
Inductive message :=
| MsgMergeStarted                              (* "Merge started" *)
| MsgMerging (from_id to_id : Z)               (* "Merging backup %s with backup %s" *)
| MsgRename (to_id from_id : Z)                (* "Rename %s to %s" *)
| MsgMergeCompleted (backup_id : Z).           (* "Merge of backup %s completed" *)

Inductive errmsg :=
| ErrBackupIdRequired          (* "required parameter is not specified: --backup-id" *)
| ErrInstanceRequired          (* "required parameter is not specified: --instance" *)
| ErrBackupStatus (id : Z) (s : BackupStatus)  (* "Backup %s has status: %s" *)
| ErrIsFull (id : Z)                           (* "Backup %s is full backup" *)
| ErrTargetNotFound (id : Z)                   (* "Target backup %s was not found" *)
| ErrParentFullNotFound (id : Z)  (* "Parent full backup for the given backup %s was not found" *)
| ErrInterruptMerging                          (* "Interrupt merging" *)
| ErrDataFilesMergingFailed                    (* "Data files merging failed" *)
| ErrRenameDirectory (old new : fspath)        (* "Could not rename directory ..." *)
| ErrMergingFailed (id : Z)                    (* "Merging of backup %s failed" *)
| ErrInterrupted                               (* "Interrupted during merging backups" *)
| ErrRemoveTemporary (p : fspath).             (* "Could not remove temporary file ..." *)

(** The argument of [restore_data_file] that merge.c computes with
    [parse_program_version]; kept symbolic. *)
Inductive version := parse_program_version (program_version : string).

(** ** The collaborators

    Every function merge.c calls outside itself, with the arguments it is
    given, indexed by the type of what it gives back.  A file
    that C passes with [file->path] temporarily set to a full path is
    passed here as the pair of that full path and the entry.

    Modelled from the spec: [pgBackupValidate] and [delete_backup_files]
    are handed the descriptor by pointer and update its status in place;
    they give back the status they leave in it.  merge.c tests
    BACKUP_STATUS_DELETING (lines 87 and 241) and never assigns it: it is
    [delete_backup_files] that marks the backup whose artifacts it
    deletes. *)
Inductive call : Type → Type :=
(* catalog *)
| catalog_lock : call unit
| catalog_get_backup_list (requested_backup_id : Z) : call (list pgBackup)
| pgBackupValidate (backup : pgBackup) : call BackupStatus
| write_backup_status (backup : pgBackup) : call unit
| write_backup (backup : pgBackup) : call unit
| write_backup_filelist (backup : pgBackup) (files : list pgFile)
    (root extra_prefix : fspath) : call unit
| delete_backup_files (backup : pgBackup) : call BackupStatus
| dir_read_file_list (control_file : fspath) : call (list pgFile)
| make_extra_directory_list (extra_dir_str : string) : call (list string)
(* file system *)
| create_data_directories (data_dir backup_dir : fspath) : call unit
| dir_create_dir (dir : fspath) : call unit
| dir_list_file (root : fspath) : call (list pgFile)
| pgFileDelete (full_path : fspath) (file : pgFile) : call unit
| rename (old_path new_path : fspath) : call Z
| unlink (p : fspath) : call Z
| pgFileSize (p : fspath) : call Z
| pgFileGetCRC (p : fspath) : call Z
(* block codec and copies *)
| restore_data_file (to_path : fspath) (file_path : fspath) (file : pgFile)
    (allow_truncate write_header : bool) (backup_version : version) : call unit
| backup_data_file (to_path : fspath) (file_path : fspath) (file : pgFile)
    (prev_backup_start_lsn : Z) (backup_mode : BackupMode)
    (calg : CompressAlg) (clevel : Z) : call pgFile
| copy_file (from_root to_root : fspath) (file_path : fspath) (file : pgFile)
    : call pgFile
| copy_pgcontrol_file (from_root to_root : fspath) (file_path : fspath)
    (file : pgFile) : call pgFile
(* logger *)
| elog_INFO (msg : message) : call unit.

(** A callee either returns or leaves through its own [elog(ERROR, ...)]. *)
Inductive reply (R : Type) :=
| Returned (r : R)
| Raises.
Arguments Returned {R} r.
Arguments Raises {R}.

Inductive event :=
| Called {R : Type} (c : call R) (r : reply R).

(** The outside world: how it answers each call, the process-wide
    [interrupted] flag, and the order in which the operating system lets the
    worker threads of one pair merge take their turns. *)
Class Collaborators (W : Type) := {
  respond : ∀ R, call R → W → reply R * W;
  interrupted : W → bool;
  schedule : W → list nat
}.

(** ** The monad: state and failure *)

Inductive crash :=
| NullDereference            (* a NULL parray or string is read *)
| DivisionByZero.

Inductive error :=
| ERROR (msg : errmsg)                       (* elog(ERROR, ...) of merge.c *)
| CalleeError {R : Type} (c : call R)        (* elog(ERROR, ...) inside a callee *)
| AssertionFailure                           (* a failed Assert() *)
| Crashed (why : crash).

Inductive result (A : Type) :=
| Ok (a : A)
| Err (e : error).
Arguments Ok {A} a.
Arguments Err {A} e.

Record mstate (W : Type) := MState {
  world : W;
  trace : list event                         (* oldest first *)
}.
Arguments MState {W} _ _.
Arguments world {W} _.
Arguments trace {W} _.

Definition M (W A : Type) : Type := mstate W → result A * mstate W.

#[global] Instance M_ret {W} : MRet (M W) := λ A a st, (Ok a, st).
#[global] Instance M_bind {W} : MBind (M W) := λ A B f m st,
  match m st with
  | (Ok a, st') => f a st'
  | (Err e, st') => (Err e, st')
  end.

Definition raise {W A} (e : error) : M W A := λ st, (Err e, st).

Definition io {W} `{Collaborators W} {R} (c : call R) : M W R := λ st,
  let '(r, w) := respond R c (world st) in
  let st' := MState w (trace st ++ [Called c r]) in
  match r with
  | Returned x => (Ok x, st')
  | Raises => (Err (CalleeError c), st')
  end.

Definition read_interrupted {W} `{Collaborators W} : M W bool := λ st,
  (Ok (interrupted (world st)), st).

(** Process configuration: the globals merge.c reads, and whether the
    binary was built with assertion checking. *)
Record globals := Globals {
  instance_name : option string;
  num_threads : nat;
  xlog_seg_size : Z;                           (* instance_config, uint32 *)
  assert_enabled : bool
}.

Definition Assert {W} (g : globals) (cond : bool) : M W unit :=
  if cond then mret tt
  else if assert_enabled g then raise AssertionFailure
  else mret tt.

(** ** parray helpers (parray.c and dir.c are not among the sources) *)

(** Modelled from the spec: the manifest is ordered by path for binary
    search, and by size for load-balanced work distribution.
    [parray_qsort] sorts by the comparator it is given; an insertion sort
    stands for qsort. *)
Fixpoint insert_sorted {A} (le : A → A → bool) (x : A) (l : list A) : list A :=
  match l with
  | [] => [x]
  | y :: rest => if le x y then x :: l else y :: insert_sorted le x rest
  end.

Definition parray_qsort {A} (le : A → A → bool) (l : list A) : list A :=
  foldr (insert_sorted le) [] l.

(** Modelled from the spec: the order "descending by path". *)
Definition pgFileComparePathDesc (f1 f2 : pgFile) : bool :=
  String.leb (pgFile.path f2) (pgFile.path f1).

(** Modelled from the spec: the order "by size". *)
Definition pgFileCompareSize (f1 f2 : pgFile) : bool :=
  pgFile.size f1 <=? pgFile.size f2.

(** Modelled from the spec: the binary search by path gives "a same-path
    entry", or NULL. *)
Definition parray_bsearch (files : list pgFile) (key : pgFile) : option pgFile :=
  List.find (λ f, String.eqb (pgFile.path f) (pgFile.path key)) files.

(** Modelled from the spec: an index into a list; [parray_get] (parray.c)
    is taken to give NULL past the end. *)
Definition parray_get {A} (array : list A) (index : Z) : option A :=
  if index <? 0 then None else array !! Z.to_nat index.

(** Modelled from the spec: an auxiliary directory is looked up by its path
    string in the other backup's list; [backup_contains_extra] (dir.c) tells
    whether [dir] is in [dirs_list], a NULL list containing nothing. *)
Definition backup_contains_extra (dir : string) (dirs_list : option (list string))
  : bool :=
  match dirs_list with
  | None => false
  | Some l => existsb (String.eqb dir) l
  end.

Section Merge.
Context {W : Type} `{Collaborators W}.

(** ** remove_dir_with_files (merge.c:656-669)

    [delete_listed] is the loop: each entry is handed to [pgFileDelete] with
    the path the listing gave it. *)
Fixpoint delete_listed (files : list pgFile) : M W unit :=
  match files with
  | [] => mret tt
  | file :: rest =>
      io (pgFileDelete (listed (pgFile.path file)) file);;
      delete_listed rest
  end.

Definition remove_dir_with_files (path : fspath) : M W unit :=
  files ← io (dir_list_file path);
  delete_listed (parray_qsort pgFileComparePathDesc files).

(** ** reorder_extra_dirs (merge.c:686-714)

    [reorder_extra_dirs_from] is the loop from index [i] on, [rest] being
    the entries of [to_extra] from [i]. *)
Fixpoint reorder_extra_dirs_from (extradir_template : fspath)
    (rest : list string) (i : Z) (from_extra : option (list string))
  : M W unit :=
  match rest with
  | [] => mret tt
  | to_dir :: rest' =>
      let from_num := get_extra_index to_dir from_extra in
      (if from_num =? -1 then
         remove_dir_with_files (makeExtraDirPathByNum extradir_template (i + 1))
       else if negb (from_num =? i + 1) then
         let old_path := makeExtraDirPathByNum extradir_template (i + 1) in
         let new_path := makeExtraDirPathByNum extradir_template from_num in
         rc ← io (rename old_path new_path);
         if rc =? -1 then raise (ERROR (ErrRenameDirectory old_path new_path))
         else mret tt
       else mret tt);;
      reorder_extra_dirs_from extradir_template rest' (i + 1) from_extra
  end.

Definition reorder_extra_dirs (to_backup : pgBackup) (to_extra : list string)
    (from_extra : option (list string)) : M W unit :=
  reorder_extra_dirs_from
    (pgBackupGetPath (pgBackup.start_time to_backup) (Some EXTRA_DIR))
    to_extra 0 from_extra.

(** ** merge_files (merge.c:432-653)

    The argument of a worker.  The source manifest [files] is shared by the
    workers and mutated in place, so it is threaded through the workers'
    steps rather than stored here; [ret] is the worker's return value. *)
Record merge_files_arg := MergeFilesArg {
  to_files : list pgFile;
  from_extra : option (list string);
  to_backup : pgBackup;
  from_backup : pgBackup;
  to_root : fspath;
  from_root : fspath;
  to_extra_prefix : fspath;
  from_extra_prefix : fspath;
  ret : Z
}.

Definition set_ret (v : Z) (a : merge_files_arg) : merge_files_arg :=
  MergeFilesArg (to_files a) (from_extra a) (to_backup a) (from_backup a)
    (to_root a) (from_root a) (to_extra_prefix a) (from_extra_prefix a) v.

(** The block merge of a data file (merge.c:514-612). *)
Definition merge_data_file (argument : merge_files_arg) (file : pgFile)
    (from_file_path : fspath) (to_file : option pgFile) : M W pgFile :=
  let to_backup := to_backup argument in
  let from_backup := from_backup argument in
  let to_file_path :=
    join_path_components (to_root argument) (pgFile.path file) in
  let is_delta :=
    bool_decide (pgBackup.backup_mode from_backup = BACKUP_MODE_DIFF_DELTA) in
  let from_version :=
    parse_program_version (pgBackup.program_version from_backup) in
  if bool_decide (pgBackup.compress_alg to_backup = PGLZ_COMPRESS)
     || bool_decide (pgBackup.compress_alg to_backup = ZLIB_COMPRESS)
  then
    let tmp_file_path := tmp_suffix to_file_path in
    (* We need to decompress target file if it exists. *)
    match to_file with
    | Some to_file =>
        io (restore_data_file tmp_file_path to_file_path to_file false false
              (parse_program_version (pgBackup.program_version to_backup)))
    | None => mret tt
    end;;
    (* Merge source file with target file *)
    io (restore_data_file tmp_file_path from_file_path file is_delta false
          from_version);;
    (* backup_data_file() requires file size to calculate nblocks *)
    sz ← io (pgFileSize tmp_file_path);
    let file := pgFile.set_size sz file in
    (* Now we can compress the file *)
    file' ← io (backup_data_file to_file_path tmp_file_path file
                  (pgBackup.start_lsn to_backup)
                  (pgBackup.backup_mode to_backup)
                  (pgBackup.compress_alg to_backup)
                  (pgBackup.compress_level to_backup));
    let file := pgFile.keep_identity file file' in
    (* We can remove temporary file now *)
    rc ← io (unlink tmp_file_path);
    if negb (rc =? 0) then raise (ERROR (ErrRemoveTemporary tmp_file_path))
    else mret file
  else
    (* We can merge in-place here *)
    io (restore_data_file to_file_path from_file_path file is_delta true
          from_version);;
    ws ← io (pgFileSize to_file_path);
    c ← io (pgFileGetCRC to_file_path);
    mret (pgFile.set_crc c (pgFile.set_write_size ws file)).

(** The copy of a file of an extra directory (merge.c:615-631). *)
Definition merge_extra_file (argument : merge_files_arg) (file : pgFile)
    (from_file_path : fspath) : M W pgFile :=
  match from_extra argument with
  | None => raise (Crashed NullDereference)   (* parray_get(NULL, ..) *)
  | Some l =>
      new_dir_num ←
        match parray_get l (pgFile.extra_dir_num file - 1) with
        | Some file_extra_path =>
            mret (get_extra_index file_extra_path (from_extra argument))
        | None =>
            (* get_extra_index(NULL, list): strcmp reads NULL unless the
               list is empty *)
            match l with
            | [] => mret (-1)
            | _ :: _ => raise (Crashed NullDereference)
            end
        end;
      let from_root := makeExtraDirPathByNum (from_extra_prefix argument)
                         (pgFile.extra_dir_num file) in
      let to_root := makeExtraDirPathByNum (to_extra_prefix argument)
                       new_dir_num in
      file' ← io (copy_file from_root to_root from_file_path file);
      mret (pgFile.keep_identity file file')
  end.

(** The body of the loop for an entry this worker has claimed
    (merge.c:452-646); the result is the entry as the worker leaves it.

    The progress line of merge.c:460-462 is printed only under --progress;
    the embedding is of a run without it.  The lookup of line 464 is made
    in [to_files] as it was read and sorted: while a worker is inside the
    [restore_data_file] of lines 555-560 the entry it restores carries a
    full path, and what a lookup made by another worker at that very
    moment finds is not modelled. *)
Definition merge_one_file (argument : merge_files_arg) (file : pgFile)
  : M W pgFile :=
  (* check for interrupt *)
  stop ← read_interrupted;
  if stop : bool then raise (ERROR ErrInterrupted) else
  (* Directories were created before *)
  if S_ISDIR (pgFile.mode file) then mret file else
  let to_file := parray_bsearch (to_files argument) file in
  (* Skip files which haven't changed since previous backup. *)
  if (pgFile.write_size file =? BYTES_INVALID) && (pgFile.n_blocks file =? -1)
  then
    match to_file with
    | Some to_file =>
        mret (pgFile.set_crc (pgFile.crc to_file)
               (pgFile.set_write_size (pgFile.write_size to_file)
                 (pgFile.set_compress_alg (pgFile.compress_alg to_file) file)))
    | None => mret file
    end
  else
  (* We need to make full path, file object has relative path *)
  let from_file_path :=
    if negb (pgFile.extra_dir_num file =? 0) then
      join_path_components
        (makeExtraDirPathByNum (from_extra_prefix argument)
           (pgFile.extra_dir_num file))
        (pgFile.path file)
    else join_path_components (from_root argument) (pgFile.path file) in
  file ←
    (if pgFile.is_datafile file && negb (pgFile.is_cfs file) then
       merge_data_file argument file from_file_path to_file
     else if String.eqb (pgFile.name file) "pg_control" then
       file' ← io (copy_pgcontrol_file (from_root argument) (to_root argument)
                     from_file_path file);
       mret (pgFile.keep_identity file file')
     else if negb (pgFile.extra_dir_num file =? 0) then
       merge_extra_file argument file from_file_path
     else
       file' ← io (copy_file (from_root argument) (to_root argument)
                     from_file_path file);
       mret (pgFile.keep_identity file file'));
  (* We need to save compression algorithm type of the target backup *)
  mret (pgFile.set_compress_alg
          (pgBackup.compress_alg (to_backup argument)) file).

End Merge.

(** ** The worker threads

    [pthread_create] starts [merge_files] on each argument and
    [pthread_join] waits for it.  A worker is the state of its loop: the
    index [next_file] it will look at and whether it has [exited]. *)

(** Modelled from the spec: elog (utils/logger.c) is not among the sources;
    an error aborts the run of what raised it.  As everywhere in merge.c,
    [elog(ERROR, ...)] does not return to its caller; raised in a worker it
    ends that worker, whose [ret] keeps the value 1 given to it before the
    thread was started and read after the join.  A crash or a failed
    assertion ends the process. *)
Record thread := Thread {
  arg : merge_files_arg;
  next_file : nat;
  exited : bool
}.

Section Workers.
Context {W : Type} `{Collaborators W}.

(** An entry of the source manifest as the workers share it.  [Abandoned]
    is an entry whose action has failed: the worker left through
    [elog(ERROR, ...)] after line 505 and before line 646, so [file->path]
    no longer is the path of the manifest: it points at a buffer of the
    worker that has left ([from_file_path], line 505, or [tmp_file_path],
    line 578), and the other fields are as the failed action left them,
    which merge.c does not determine.  Its claim flag is set. *)
Inductive slot :=
| Entry (file : pgFile)
| Abandoned.

(** [file->lock] as [pg_atomic_test_set_flag] finds it. *)
Definition claimed (s : slot) : bool :=
  match s with
  | Entry file => pgFile.lock file
  | Abandoned => true
  end.

(** One turn of a worker: one iteration of the loop of [merge_files], or,
    past the last entry, the statements after the loop.  The interrupt of
    line 454 is raised before [file->path] is redirected; every other
    [elog(ERROR, ...)] of the iteration is raised after. *)
Definition merge_files_turn (t : thread) (files : list slot)
  : M W (thread * list slot) := λ st,
  if exited t then (Ok (t, files), st) else
  match files !! next_file t with
  | None =>
      (* Data files merging is successful *)
      (Ok (Thread (set_ret 0 (arg t)) (next_file t) true, files), st)
  | Some Abandoned =>
      (* !pg_atomic_test_set_flag(&file->lock): continue *)
      (Ok (Thread (arg t) (S (next_file t)) false, files), st)
  | Some (Entry file) =>
      let i := next_file t in
      if pgFile.lock file then
        (* !pg_atomic_test_set_flag(&file->lock): continue *)
        (Ok (Thread (arg t) (S i) false, files), st)
      else
        let file := pgFile.set_lock true file in
        let files := <[i := Entry file]> files in
        match merge_one_file (arg t) file st with
        | (Ok file', st') =>
            (Ok (Thread (arg t) (S i) false, <[i := Entry file']> files), st')
        | (Err (Crashed why), st') => (Err (Crashed why), st')
        | (Err AssertionFailure, st') => (Err AssertionFailure, st')
        | (Err (ERROR ErrInterrupted), st') =>
            (Ok (Thread (arg t) i true, files), st')
        | (Err _, st') =>
            (Ok (Thread (arg t) i true, <[i := Abandoned]> files), st')
        end
  end.

(** The turns the scheduler hands out while the workers run side by side. *)
Fixpoint run_schedule (sched : list nat) (threads : list thread)
    (files : list slot) : M W (list thread * list slot) :=
  match sched with
  | [] => mret (threads, files)
  | k :: sched' =>
      match threads !! k with
      | None => run_schedule sched' threads files
      | Some t =>
          '(t', files') ← merge_files_turn t files;
          run_schedule sched' (<[k := t']> threads) files'
      end
  end.

(** [pthread_join(threads[k])]: the worker takes turns until it has exited. *)
Fixpoint run_to_end (fuel : nat) (t : thread) (files : list slot)
  : M W (thread * list slot) :=
  match fuel with
  | O => mret (t, files)
  | S fuel' =>
      if exited t then mret (t, files)
      else '(t', files') ← merge_files_turn t files;
           run_to_end fuel' t' files'
  end.

Fixpoint join_from (k : nat) (n : nat) (threads : list thread)
    (files : list slot) : M W (list thread * list slot) :=
  match n with
  | O => mret (threads, files)
  | S n' =>
      match threads !! k with
      | None => mret (threads, files)
      | Some t =>
          '(t', files') ← run_to_end (S (length files)) t files;
          join_from (S k) n' (<[k := t']> threads) files'
      end
  end.

Definition run_threads (threads : list thread) (files : list slot)
  : M W (list thread * list slot) := λ st,
  ('(threads', files') ← run_schedule (schedule (world st)) threads files;
   join_from 0 (length threads') threads' files') st.

End Workers.

(** ** merge_backups (merge.c:161-427) *)

(** Wait threads (merge.c:309-314): [merge_isok] after the joins. *)
Definition merge_isok (threads : list thread) : bool :=
  forallb (λ t, negb (ret (arg t) =? 1)) threads.

(** The manifest entries that no failed action has abandoned. *)
Definition entries (files : list slot) : list pgFile :=
  omap (λ s, match s with
             | Entry file => Some file
             | Abandoned => None
             end) files.

(** C integer conversions: wrap-around to int64 and to uint64. *)
Definition int64 (z : Z) : Z := (z + 2 ^ 63) `mod` 2 ^ 64 - 2 ^ 63.
Definition uint64 (z : Z) : Z := z `mod` 2 ^ 64.

(** Summary of the size of regular files in the backup
    (merge.c:337-347). *)
Fixpoint sum_data_bytes (files : list pgFile) (data_bytes : Z) : Z :=
  match files with
  | [] => data_bytes
  | file :: rest =>
      sum_data_bytes rest
        (if S_ISDIR (pgFile.mode file) then int64 (data_bytes + 4096)
         else if S_ISREG (pgFile.mode file)
              then int64 (data_bytes + pgFile.write_size file)
              else data_bytes)
  end.

(** Size of the wal files of this backup stored in the archive
    (merge.c:350-352), in uint64 arithmetic, stored into an int64. *)
Definition wal_bytes_of (xlog_seg_size start_lsn stop_lsn : Z) : Z :=
  int64 (uint64 (xlog_seg_size *
    uint64 (uint64 (stop_lsn / xlog_seg_size - start_lsn / xlog_seg_size) + 1))).

Section PairMerge.
Context {W : Type} `{Collaborators W}.

(** Update to_backup metadata (merge.c:321-354); gives the new [to_backup]
    and [from_backup]. *)
Definition update_to_backup_metadata (g : globals)
    (to_backup from_backup : pgBackup) (files : list pgFile)
  : M W (pgBackup * pgBackup) :=
  let stream := pgBackup.stream to_backup && pgBackup.stream from_backup in
  let start_lsn := pgBackup.start_lsn from_backup in
  let stop_lsn := pgBackup.stop_lsn from_backup in
  wal_bytes ←
    (if negb stream then
       if xlog_seg_size g =? 0 then raise (Crashed DivisionByZero)
       else mret (wal_bytes_of (xlog_seg_size g) start_lsn stop_lsn)
     else mret BYTES_INVALID);
  mret (pgBackup.mk
          (pgBackup.start_time to_backup)
          INVALID_BACKUP_ID
          BACKUP_STATUS_OK
          (pgBackup.backup_mode to_backup)
          start_lsn
          stop_lsn
          (pgBackup.recovery_time from_backup)
          (pgBackup.recovery_xid from_backup)
          (pgBackup.extra_dir_str from_backup)
          stream
          (sum_data_bytes files 0)
          wal_bytes
          (pgBackup.compress_alg to_backup)
          (pgBackup.compress_level to_backup)
          (pgBackup.program_version to_backup),
        pgBackup.set_extra_dir_str None from_backup).

(** Setup threads (merge.c:269-285). *)
Fixpoint setup_files (to_extra_prefix : fspath) (files : list pgFile)
  : M W (list pgFile) :=
  match files with
  | [] => mret []
  | file :: rest =>
      (* if the entry was an extra directory, create it in the backup *)
      (if negb (pgFile.extra_dir_num file =? 0) && S_ISDIR (pgFile.mode file)
       then io (dir_create_dir
                  (join_path_components
                     (makeExtraDirPathByNum to_extra_prefix
                        (pgFile.extra_dir_num file))
                     (pgFile.path file)))
       else mret tt);;
      rest' ← setup_files to_extra_prefix rest;
      mret (pgFile.set_lock false file :: rest')   (* pg_atomic_init_flag *)
  end.

(** Delete files which are not in from_backup file list
    (merge.c:371-396); [files] is sorted by path again before. *)
Fixpoint delete_stale_files (to_database_path : fspath)
    (to_extra from_extra : option (list string)) (files : list pgFile)
    (to_files : list pgFile) : M W unit :=
  match to_files with
  | [] => mret tt
  | file :: rest =>
      already_removed ←
        (if negb (pgFile.extra_dir_num file =? 0) then
           match to_extra with
           | None => raise (Crashed NullDereference)  (* parray_get(NULL, ..) *)
           | Some l =>
               match parray_get l (pgFile.extra_dir_num file - 1) with
               | Some dir => mret (backup_contains_extra dir from_extra)
               | None =>
                   (* backup_contains_extra(NULL, list) *)
                   match from_extra with
                   | None | Some [] => mret false
                   | Some (_ :: _) => raise (Crashed NullDereference)
                   end
               end
           end
         else mret false);
      (if already_removed : bool then mret tt   (* Dir already removed *)
       else
         match parray_bsearch files file with
         | None =>
             (* We need full path, file object has relative path *)
             io (pgFileDelete
                   (join_path_components to_database_path (pgFile.path file))
                   file)
         | Some _ => mret tt
         end);;
      delete_stale_files to_database_path to_extra from_extra files rest
  end.

(** The code from the label [delete_source_backup] on (merge.c:360-427). *)
Definition delete_source_backup (to_backup from_backup : pgBackup)
    (to_backup_id from_backup_id : Z)
    (to_extra from_extra : option (list string))
    (files to_files : list pgFile) : M W (pgBackup * pgBackup) :=
  let to_backup_path := pgBackupGetPath to_backup_id None in
  let to_database_path := pgBackupGetPath to_backup_id (Some DATABASE_DIR) in
  let from_backup_path := pgBackupGetPath from_backup_id None in
  (* Files were copied into to_backup. It is time to remove source backup
     entirely. *)
  status ← io (delete_backup_files from_backup);
  let from_backup := pgBackup.set_status status from_backup in
  let files := parray_qsort pgFileComparePathDesc files in
  delete_stale_files to_database_path to_extra from_extra files to_files;;
  (* Rename FULL backup directory. *)
  io (elog_INFO (MsgRename to_backup_id from_backup_id));;
  rc ← io (rename to_backup_path from_backup_path);
  if rc =? -1 then
    raise (ERROR (ErrRenameDirectory to_backup_path from_backup_path))
  else
    (* Merging finished, now we can safely update ID of the destination
       backup. *)
    let to_backup :=
      pgBackup.set_start_time (pgBackup.start_time from_backup) to_backup in
    io (write_backup to_backup);;
    mret (to_backup, from_backup).

End PairMerge.

Section PairMergeDriver.
Context {W : Type} `{Collaborators W}.

(** The threads are created, run and joined (merge.c:287-316); what comes
    back is the source manifest as the workers left it.  When no worker has
    failed no entry has been abandoned, and [entries] gives the manifest
    whole. *)
Definition start_and_wait_threads (threads : list thread)
    (files : list pgFile) : M W (list pgFile) :=
  '(threads, files) ← run_threads threads (Entry <$> files);
  if negb (merge_isok threads) then raise (ERROR ErrDataFilesMergingFailed)
  else mret (entries files).

(** [pgBackupValidate] updates [backup->status] in place. *)
Definition validate (backup : pgBackup) : M W pgBackup :=
  s ← io (pgBackupValidate backup);
  mret (pgBackup.set_status s backup).

Definition extra_directory_list (backup : pgBackup)
  : M W (option (list string)) :=
  match pgBackup.extra_dir_str backup with
  | Some s => l ← io (make_extra_directory_list s); mret (Some l)
  | None => mret None
  end.

Definition merge_backups (g : globals) (to_backup from_backup : pgBackup)
  : M W (pgBackup * pgBackup) :=
  let to_backup_id := pgBackup.start_time to_backup in
  let from_backup_id := pgBackup.start_time from_backup in
  io (elog_INFO (MsgMerging from_backup_id to_backup_id));;
  (* Validate to_backup only if it is BACKUP_STATUS_OK. *)
  to_backup ←
    (if bool_decide (pgBackup.status to_backup = BACKUP_STATUS_OK) then
       to_backup ← validate to_backup;
       if bool_decide (pgBackup.status to_backup = BACKUP_STATUS_CORRUPT)
       then raise (ERROR ErrInterruptMerging)
       else mret to_backup
     else mret to_backup);
  (* It is OK to validate from_backup if it has BACKUP_STATUS_OK or
     BACKUP_STATUS_MERGING status. *)
  Assert g (bool_decide (pgBackup.status from_backup = BACKUP_STATUS_OK)
            || bool_decide (pgBackup.status from_backup = BACKUP_STATUS_MERGING));;
  from_backup ← validate from_backup;
  if bool_decide (pgBackup.status from_backup = BACKUP_STATUS_CORRUPT)
  then raise (ERROR ErrInterruptMerging) else
  (* Make backup paths. *)
  let to_database_path := pgBackupGetPath to_backup_id (Some DATABASE_DIR) in
  let to_extra_prefix := pgBackupGetPath to_backup_id (Some EXTRA_DIR) in
  let from_backup_path := pgBackupGetPath from_backup_id None in
  let from_database_path := pgBackupGetPath from_backup_id (Some DATABASE_DIR) in
  let from_extra_prefix := pgBackupGetPath from_backup_id (Some EXTRA_DIR) in
  (* Get list of files which will be modified or removed. *)
  to_files ← io (dir_read_file_list
                   (pgBackupGetPath to_backup_id (Some DATABASE_FILE_LIST)));
  (* To delete from leaf, sort in reversed order *)
  let to_files := parray_qsort pgFileComparePathDesc to_files in
  (* Get list of files which need to be moved. *)
  files ← io (dir_read_file_list
                (pgBackupGetPath from_backup_id (Some DATABASE_FILE_LIST)));
  (* sort by size for load balancing *)
  let files := parray_qsort pgFileCompareSize files in
  (* Previous merging was interrupted during deleting source backup. It is
     safe just to delete it again. *)
  if bool_decide (pgBackup.status from_backup = BACKUP_STATUS_DELETING) then
    delete_source_backup to_backup from_backup to_backup_id from_backup_id
      None None files to_files
  else
  let to_backup := pgBackup.set_status BACKUP_STATUS_MERGING to_backup in
  io (write_backup_status to_backup);;
  let from_backup := pgBackup.set_status BACKUP_STATUS_MERGING from_backup in
  io (write_backup_status from_backup);;
  io (create_data_directories to_database_path from_backup_path);;
  (* Create extra directories lists *)
  to_extra ← extra_directory_list to_backup;
  from_extra ← extra_directory_list from_backup;
  (* Rename extra directoties in to_backup (if exists) according to
     numeration of extra dirs in from_backup. *)
  match to_extra with
  | Some l => reorder_extra_dirs to_backup l from_extra
  | None => mret tt
  end;;
  (* Setup threads *)
  files ← setup_files to_extra_prefix files;
  let threads_args :=
    replicate (num_threads g)
      (MergeFilesArg to_files from_extra to_backup from_backup
         to_database_path from_database_path
         to_extra_prefix from_extra_prefix
         1 (* By default there are some error *)) in
  files ←
    start_and_wait_threads ((λ a, Thread a 0 false) <$> threads_args) files;
  '(to_backup, from_backup) ←
    update_to_backup_metadata g to_backup from_backup files;
  io (write_backup_filelist to_backup files from_database_path
        from_extra_prefix);;
  io (write_backup to_backup);;
  delete_source_backup to_backup from_backup to_backup_id from_backup_id
    to_extra from_extra files to_files.

End PairMergeDriver.

(** ** do_merge (merge.c:51-153) *)

(** The locals of the loop that finds the destination and the parent
    backups. *)
Record scan := Scan {
  dest_backup : option pgBackup;
  dest_backup_idx : nat;
  full_backup : option pgBackup;
  full_backup_idx : nat;
  prev_parent : Z
}.

Definition scan_init : scan := Scan None 0 None 0 INVALID_BACKUP_ID.

(** Find destination and parent backups (merge.c:76-124): the loop from
    index [i] on, [rest] being the backups from [i]. *)
Fixpoint find_dest_and_full (backup_id : Z) (rest : list pgBackup) (i : nat)
    (s : scan) : result scan :=
  match rest with
  | [] => Ok s
  | backup :: rest' =>
      let start_time := pgBackup.start_time backup in
      let status := pgBackup.status backup in
      if start_time >? backup_id then
        find_dest_and_full backup_id rest' (S i) s              (* continue *)
      else if (start_time =? backup_id)
              && bool_decide (dest_backup s = None) then
        if negb (bool_decide (status = BACKUP_STATUS_OK))
           (* It is possible that previous merging was interrupted *)
           && negb (bool_decide (status = BACKUP_STATUS_MERGING))
           && negb (bool_decide (status = BACKUP_STATUS_DELETING))
        then Err (ERROR (ErrBackupStatus start_time status))
        else if bool_decide (pgBackup.backup_mode backup = BACKUP_MODE_FULL)
        then Err (ERROR (ErrIsFull start_time))
        else
          find_dest_and_full backup_id rest' (S i)
            (Scan (Some backup) i (full_backup s) (full_backup_idx s)
               (pgBackup.parent_backup backup))
      else
        match dest_backup s with
        | None => Err (ERROR (ErrTargetNotFound backup_id))
        | Some _ =>
            if negb (start_time =? prev_parent s) then
              find_dest_and_full backup_id rest' (S i) s        (* continue *)
            else if negb (bool_decide (status = BACKUP_STATUS_OK))
                    && negb (bool_decide (status = BACKUP_STATUS_MERGING))
            then Err (ERROR (ErrBackupStatus start_time status))
            else if bool_decide (pgBackup.backup_mode backup = BACKUP_MODE_FULL)
            then
              (* Found target and full backups, so break the loop *)
              Ok (Scan (dest_backup s) (dest_backup_idx s) (Some backup) i
                    (prev_parent s))
            else
              find_dest_and_full backup_id rest' (S i)
                (Scan (dest_backup s) (dest_backup_idx s) (full_backup s)
                   (full_backup_idx s) (pgBackup.parent_backup backup))
        end
  end.

Section ChainMerge.
Context {W : Type} `{Collaborators W}.

Definition lift_result {A} (r : result A) : M W A :=
  match r with
  | Ok a => mret a
  | Err e => raise e
  end.

(** Found target and full backups, merge them and intermediate backups
    (merge.c:137-142): the loop from [i] down.  [full_backup] and
    [from_backup] point into [backups], so what [merge_backups] changes in
    them is written back there. *)
Fixpoint merge_chain (g : globals) (dest_backup_idx full_backup_idx : nat)
    (i : nat) (backups : list pgBackup) : M W (list pgBackup) :=
  match i with
  | O => mret backups
  | S i' =>
      if bool_decide (dest_backup_idx < i)%nat then
        match backups !! full_backup_idx, backups !! i' with
        | Some full_backup, Some from_backup =>
            '(full_backup', from_backup') ←
              merge_backups g full_backup from_backup;
            merge_chain g dest_backup_idx full_backup_idx i'
              (<[full_backup_idx := full_backup']>
                 (<[i' := from_backup']> backups))
        | _, _ => raise (Crashed NullDereference)
        end
      else mret backups
  end.

(** [do_merge] once the catalog has been read (merge.c:75-152). *)
Definition merge_catalog (g : globals) (backup_id : Z)
    (backups : list pgBackup) : M W unit :=
  s ← lift_result (find_dest_and_full backup_id backups 0 scan_init);
  match dest_backup s with
  | None => raise (ERROR (ErrTargetNotFound backup_id))
  | Some _ =>
      match full_backup s with
      | None => raise (ERROR (ErrParentFullNotFound backup_id))
      | Some _ =>
          Assert g (negb (full_backup_idx s =? dest_backup_idx s)%nat);;
          backups ← merge_chain g (dest_backup_idx s) (full_backup_idx s)
                      (full_backup_idx s) backups;
          match backups !! full_backup_idx s with
          | None => raise (Crashed NullDereference)
          | Some full_backup =>
              full_backup ← validate full_backup;
              if bool_decide (pgBackup.status full_backup
                              = BACKUP_STATUS_CORRUPT)
              then raise (ERROR (ErrMergingFailed backup_id))
              else io (elog_INFO (MsgMergeCompleted backup_id))
          end
      end
  end.

Definition do_merge (g : globals) (backup_id : Z) : M W unit :=
  if backup_id =? INVALID_BACKUP_ID then raise (ERROR ErrBackupIdRequired)
  else
  match instance_name g with
  | None => raise (ERROR ErrInstanceRequired)
  | Some _ =>
      io (elog_INFO MsgMergeStarted);;
      io catalog_lock;;
      (* Get list of all backups sorted in order of descending start time *)
      backups ← io (catalog_get_backup_list INVALID_BACKUP_ID);
      merge_catalog g backup_id backups
  end.

End ChainMerge.

(** ** A small catalog and file system

    An instance of the collaborators to run the embedding on: a catalog, the
    manifest of each backup, the numbered containers of extra directories on
    disk, and files that cannot be read.  [rename] follows rename(2): it
    fails if the old path does not exist or if the new path is a directory
    that is not empty. *)
Module Sim.

#[global] Instance subdir_eq_dec : EqDecision subdir.
Proof. solve_decision. Defined.
#[global] Instance fspath_eq_dec : EqDecision fspath.
Proof. solve_decision. Defined.

Record t := mk {
  catalog : list pgBackup;
  manifests : list (Z * list pgFile);       (* by backup ID *)
  dirs : list (fspath * list pgFile);       (* directories and their content *)
  unreadable : list fspath;                 (* files whose copy fails *)
  validations_ok : nat;                     (* then the catalog reports CORRUPT *)
  interrupt : bool;
  turns : list nat
}.

Definition with_dirs (d : list (fspath * list pgFile)) (w : t) : t :=
  mk (catalog w) (manifests w) d (unreadable w) (validations_ok w)
     (interrupt w) (turns w).

Definition with_validations_ok (n : nat) (w : t) : t :=
  mk (catalog w) (manifests w) (dirs w) (unreadable w) n
     (interrupt w) (turns w).

Fixpoint lookup_dir (p : fspath) (d : list (fspath * list pgFile))
  : option (list pgFile) :=
  match d with
  | [] => None
  | (q, content) :: rest =>
      if bool_decide (p = q) then Some content else lookup_dir p rest
  end.

Definition remove_dir (p : fspath) (d : list (fspath * list pgFile))
  : list (fspath * list pgFile) :=
  filter (λ e, e.1 ≠ p) d.

Definition manifest_of (control_file : fspath) (w : t) : list pgFile :=
  match control_file with
  | pgBackupGetPath id (Some DATABASE_FILE_LIST) =>
      match List.find (λ e, e.1 =? id) (manifests w) with
      | Some e => e.2
      | None => []
      end
  | _ => []
  end.

Fixpoint split_dirs (s : string) : list string :=
  match s with
  | EmptyString => [EmptyString]
  | String c rest =>
      if Ascii.eqb c (Ascii.ascii_of_nat 58) then EmptyString :: split_dirs rest
      else match split_dirs rest with
           | [] => [String c EmptyString]
           | x :: xs => String c x :: xs
           end
  end.

Definition do_rename (old_path new_path : fspath) (w : t) : reply Z * t :=
  match lookup_dir old_path (dirs w) with
  | None => (Returned (-1), w)                              (* ENOENT *)
  | Some content =>
      match lookup_dir new_path (dirs w) with
      | Some (_ :: _) => (Returned (-1), w)                 (* ENOTEMPTY *)
      | _ =>
          (Returned 0,
           with_dirs ((new_path, content)
                      :: remove_dir new_path (remove_dir old_path (dirs w))) w)
      end
  end.

Definition do_delete (full_path : fspath) (w : t) : t :=
  match full_path with
  | listed rel =>
      (* the listings of this file system give each entry a path of its own *)
      with_dirs
        (omap (λ e : fspath * list pgFile,
                 match e.2, filter (λ f, pgFile.path f ≠ rel) e.2 with
                 | _ :: _, [] => None
                 | _, content' => Some (e.1, content')
                 end) (dirs w)) w
  | join_path_components root rel =>
      match lookup_dir root (dirs w) with
      | Some content =>
          match filter (λ f, pgFile.path f ≠ rel) content with
          | [] => with_dirs (remove_dir root (dirs w)) w
          | content' =>
              with_dirs ((root, content') :: remove_dir root (dirs w)) w
          end
      | None => w
      end
  | _ => w
  end.

Definition copy_reply (file_path : fspath) (file : pgFile) (w : t)
  : reply pgFile * t :=
  if bool_decide (file_path ∈ unreadable w) then (Raises, w)
  else (Returned (pgFile.set_write_size (pgFile.size file) file), w).

Definition answer (R : Type) (c : call R) (w : t) : reply R * t :=
  match c in call R return reply R * t with
  | catalog_lock => (Returned tt, w)
  | catalog_get_backup_list _ => (Returned (catalog w), w)
  | pgBackupValidate backup =>
      match validations_ok w with
      | O => (Returned BACKUP_STATUS_CORRUPT, w)
      | S n => (Returned (pgBackup.status backup), with_validations_ok n w)
      end
  | write_backup_status _ => (Returned tt, w)
  | write_backup _ => (Returned tt, w)
  | write_backup_filelist _ _ _ _ => (Returned tt, w)
  | delete_backup_files backup =>
      (Returned BACKUP_STATUS_DELETING,
       with_dirs (remove_dir (pgBackupGetPath (pgBackup.start_time backup) None)
                    (dirs w)) w)
  | dir_read_file_list control_file => (Returned (manifest_of control_file w), w)
  | make_extra_directory_list s => (Returned (split_dirs s), w)
  | create_data_directories _ _ => (Returned tt, w)
  | dir_create_dir _ => (Returned tt, w)
  | dir_list_file root =>
      (Returned (default [] (lookup_dir root (dirs w))), w)
  | pgFileDelete full_path _ => (Returned tt, do_delete full_path w)
  | rename old_path new_path => do_rename old_path new_path w
  | unlink _ => (Returned 0, w)
  | pgFileSize _ => (Returned 8192, w)
  | pgFileGetCRC _ => (Returned 0, w)
  | restore_data_file _ file_path _ _ _ _ =>
      if bool_decide (file_path ∈ unreadable w) then (Raises, w)
      else (Returned tt, w)
  | backup_data_file _ _ file _ _ calg _ =>
      (Returned (pgFile.set_compress_alg calg
                   (pgFile.set_write_size (pgFile.size file) file)), w)
  | copy_file _ _ file_path file => copy_reply file_path file w
  | copy_pgcontrol_file _ _ file_path file => copy_reply file_path file w
  | elog_INFO _ => (Returned tt, w)
  end.

#[global] Instance collaborators : Collaborators t := {
  respond := answer;
  interrupted := interrupt;
  schedule := turns
}.

Definition start (w : t) : mstate t := MState w [].

End Sim.


(** * Statements

    The properties of the merge engine, as predicates over the embedding,
    and the inputs they are run on. *)

(** ** What a log says *)

(** The pair merges that were started, oldest first, as (to, from): every
    [merge_backups] begins by logging "Merging backup from with backup to". *)
Definition pair_merge_started (e : event) : option (Z * Z) :=
  match e with
  | Called (elog_INFO (MsgMerging from_id to_id)) _ => Some (to_id, from_id)
  | _ => None
  end.

Definition pair_merges (log : list event) : list (Z * Z) :=
  omap pair_merge_started log.

(** The validations that were asked for: the backup ID and the status the
    backup had when [pgBackupValidate] was called. *)
Definition validation_asked (e : event) : option (Z * BackupStatus) :=
  match e with
  | Called (pgBackupValidate backup) _ =>
      Some (pgBackup.start_time backup, pgBackup.status backup)
  | _ => None
  end.

Definition validations (log : list event) : list (Z * BackupStatus) :=
  omap validation_asked log.

(** The plain copies that were asked for: source root, destination root
    and relative path. *)
Definition copy_asked (e : event) : option (fspath * fspath * string) :=
  match e with
  | Called (copy_file from_root to_root _ file) _ =>
      Some (from_root, to_root, pgFile.path file)
  | _ => None
  end.

Definition copies (log : list event) : list (fspath * fspath * string) :=
  omap copy_asked log.

(** ** Unchanged entries (Skip) *)

(** What the worker is said to do with an entry marked unchanged: no call to
    the outside (the state is the same after as before) and the compression
    tag, write size and checksum of the same-path entry of the old
    destination manifest, if there is one. *)
Definition unchanged_entry_kept {W} `{Collaborators W}
    (argument : merge_files_arg) (file : pgFile) (st : mstate W) : Prop :=
  pgFile.write_size file = BYTES_INVALID →
  pgFile.n_blocks file = -1 →
  ∃ file', merge_one_file argument file st = (Ok file', st) ∧
    match parray_bsearch (to_files argument) file with
    | Some to_file =>
        pgFile.compress_alg file' = pgFile.compress_alg to_file ∧
        pgFile.write_size file' = pgFile.write_size to_file ∧
        pgFile.crc file' = pgFile.crc to_file
    | None => file' = file
    end.

(** ** The recorded compression tag *)

(** Once the worker is done with the entry, its compression tag is the
    compression algorithm of the destination backup. *)
Definition compression_tag_recorded {W} `{Collaborators W}
    (argument : merge_files_arg) (file : pgFile) (st : mstate W) : Prop :=
  ∀ file' st',
    merge_one_file argument file st = (Ok file', st') →
    pgFile.compress_alg file' = pgBackup.compress_alg (to_backup argument).

(** ** Files of extra directories *)

(** The entry is plain-copied from the container numbered by its stored
    index under the source prefix to the container, under the destination
    prefix, whose number is the position of the directory's path in
    [looked_up]. *)
Definition extra_file_copied {W} `{Collaborators W}
    (looked_up : option (list string))
    (argument : merge_files_arg) (file : pgFile) (st : mstate W) : Prop :=
  ∃ l dir,
    from_extra argument = Some l ∧
    parray_get l (pgFile.extra_dir_num file - 1) = Some dir ∧
    let from_root := makeExtraDirPathByNum (from_extra_prefix argument)
                       (pgFile.extra_dir_num file) in
    let to_root := makeExtraDirPathByNum (to_extra_prefix argument)
                     (get_extra_index dir looked_up) in
    merge_one_file argument file st =
      (file' ← io (copy_file from_root to_root
                     (join_path_components from_root (pgFile.path file)) file);
       mret (pgFile.set_compress_alg
               (pgBackup.compress_alg (to_backup argument))
               (pgFile.keep_identity file file'))) st.

(** ** Failing workers *)

(** An error raised with [elog(ERROR, ...)], in merge.c or in a callee. *)
Definition elog_error (e : error) : bool :=
  match e with
  | ERROR _ | CalleeError _ => true
  | AssertionFailure | Crashed _ => false
  end.

(** What a worker is said to do when the action on the entry it has just
    claimed fails: its failure flag is set and it goes on to further
    entries. *)
Definition worker_goes_on_after_failure {W} `{Collaborators W}
    (t : thread) (files : list slot) (st : mstate W) : Prop :=
  ∀ file e st',
    exited t = false →
    files !! next_file t = Some (Entry file) →
    pgFile.lock file = false →
    merge_one_file (arg t) (pgFile.set_lock true file) st = (Err e, st') →
    elog_error e = true →
    ∃ t' files',
      merge_files_turn t files st = (Ok (t', files'), st') ∧
      ret (arg t') = 1 ∧ exited t' = false.

(** ** Chains *)

(** [on_chain backups dest b]: [b] is [dest] or is reached from it by
    following [parent_backup] links inside the catalog. *)
Inductive on_chain (backups : list pgBackup) (dest : pgBackup)
  : pgBackup → Prop :=
| on_chain_dest : on_chain backups dest dest
| on_chain_parent b p :
    on_chain backups dest b →
    p ∈ backups →
    pgBackup.start_time p = pgBackup.parent_backup b →
    on_chain backups dest p.

(** The chain from [dest] reaches a FULL backup. *)
Definition has_full_ancestor (backups : list pgBackup) (dest : pgBackup)
  : Prop :=
  ∃ b p, on_chain backups dest b ∧ p ∈ backups ∧
         pgBackup.start_time p = pgBackup.parent_backup b ∧
         pgBackup.backup_mode p = BACKUP_MODE_FULL.

(** The IDs of the parent chain of [dest], computed by following the parent
    links up to the first FULL backup. *)
Fixpoint parent_chain (fuel : nat) (backups : list pgBackup) (b : pgBackup)
  : list Z :=
  pgBackup.start_time b ::
  match fuel with
  | O => []
  | S fuel' =>
      if bool_decide (pgBackup.backup_mode b = BACKUP_MODE_FULL) then []
      else match List.find
                   (λ p, pgBackup.start_time p =? pgBackup.parent_backup b)
                   backups with
           | Some p => parent_chain fuel' backups p
           | None => []
           end
  end.

(** The first statements of [do_merge] after the parameter checks: log,
    lock the catalog, read it. *)
Definition open_catalog {W} `{Collaborators W} : M W (list pgBackup) :=
  io (elog_INFO MsgMergeStarted);;
  io catalog_lock;;
  io (catalog_get_backup_list INVALID_BACKUP_ID).

(** ** Sizes *)

(** The sum over the manifest of each regular file's write size plus 4096
    for each directory. *)
Definition data_bytes_sum (files : list pgFile) : Z :=
  foldr (λ file acc,
           (if S_ISDIR (pgFile.mode file) then 4096
            else if S_ISREG (pgFile.mode file) then pgFile.write_size file
            else 0) + acc) 0 files.

(** ** Inputs *)
Module Input.

Definition backup (id parent : Z) (status : BackupStatus) (mode : BackupMode)
    (extra_dir_str : option string) (calg : CompressAlg) : pgBackup :=
  pgBackup.mk id parent status mode 100 200 0 0 extra_dir_str false 0 0
    calg 1 "2.0.27".

Definition mode_dir : Z := 16832.      (* 040700 *)
Definition mode_reg : Z := 33152.      (* 0100600 *)

Definition entry (path : string) (mode size write_size n_blocks : Z)
    (calg : CompressAlg) (is_datafile : bool) (extra_dir_num : Z) : pgFile :=
  pgFile.mk path path mode size write_size n_blocks 0 calg is_datafile false
    extra_dir_num false.

Definition backup_dir (id : Z) : fspath * list pgFile :=
  (pgBackupGetPath id None, []).

Definition release : globals := Globals (Some "node") 1 16777216 false.
Definition debug : globals := Globals (Some "node") 1 16777216 true.

Definition argument (to_files : list pgFile) (from_extra : option (list string))
    (to_backup from_backup : pgBackup) : merge_files_arg :=
  MergeFilesArg to_files from_extra to_backup from_backup
    (pgBackupGetPath (pgBackup.start_time to_backup) (Some DATABASE_DIR))
    (pgBackupGetPath (pgBackup.start_time from_backup) (Some DATABASE_DIR))
    (pgBackupGetPath (pgBackup.start_time to_backup) (Some EXTRA_DIR))
    (pgBackupGetPath (pgBackup.start_time from_backup) (Some EXTRA_DIR))
    1.

Definition quiet_world : Sim.t := Sim.mk [] [] [] [] 100 false [].

End Input.

(** A directory entry with the "unchanged" sizes, and the entry of the old
    destination manifest with the same path. *)
Module SkipDirectory.
Import Input.

Definition file : pgFile :=
  entry "base" mode_dir 0 BYTES_INVALID (-1) NOT_DEFINED_COMPRESS false 0.

Definition to_file : pgFile :=
  entry "base" mode_dir 0 0 (-1) NONE_COMPRESS false 0.

Definition argument : merge_files_arg :=
  Input.argument [to_file] None
    (backup 10 0 BACKUP_STATUS_MERGING BACKUP_MODE_FULL None NONE_COMPRESS)
    (backup 20 10 BACKUP_STATUS_MERGING BACKUP_MODE_DIFF_PAGE None NONE_COMPRESS).

End SkipDirectory.

(** A regular file marked unchanged whose old entry was stored with zlib,
    in a destination backup that does not compress. *)
Module SkipRegular.
Import Input.

Definition file : pgFile :=
  entry "base/1/1259" mode_reg 0 BYTES_INVALID (-1) NOT_DEFINED_COMPRESS true 0.

Definition to_file : pgFile :=
  entry "base/1/1259" mode_reg 0 4000 (-1) ZLIB_COMPRESS true 0.

Definition argument : merge_files_arg :=
  Input.argument [to_file] None
    (backup 10 0 BACKUP_STATUS_MERGING BACKUP_MODE_FULL None NONE_COMPRESS)
    (backup 20 10 BACKUP_STATUS_MERGING BACKUP_MODE_DIFF_PAGE None NONE_COMPRESS).

End SkipRegular.

(** A file of the extra directory "/b", first in the list of the source
    backup and second in the list of the destination backup. *)
Module ExtraFile.
Import Input.

Definition file : pgFile :=
  entry "conf/app.conf" mode_reg 120 120 (-1) NOT_DEFINED_COMPRESS false 1.

Definition to_backup : pgBackup :=
  backup 10 0 BACKUP_STATUS_MERGING BACKUP_MODE_FULL (Some "/a:/b")
    NONE_COMPRESS.

Definition from_backup : pgBackup :=
  backup 20 10 BACKUP_STATUS_MERGING BACKUP_MODE_DIFF_PAGE (Some "/b:/a")
    NONE_COMPRESS.

(** The lists [make_extra_directory_list] gives for the two backups. *)
Definition to_extra : list string := Sim.split_dirs "/a:/b".
Definition from_extra : list string := Sim.split_dirs "/b:/a".

Definition argument : merge_files_arg :=
  Input.argument [] (Some from_extra) to_backup from_backup.

End ExtraFile.

(** A changed data file merged into a destination backup compressed with
    zlib. *)
Module DataFile.
Import Input.

Definition file : pgFile :=
  entry "base/1/2610" mode_reg 8192 2048 1 PGLZ_COMPRESS true 0.

Definition to_file : pgFile :=
  entry "base/1/2610" mode_reg 8192 3000 (-1) ZLIB_COMPRESS true 0.

Definition argument : merge_files_arg :=
  Input.argument [to_file] None
    (backup 10 0 BACKUP_STATUS_MERGING BACKUP_MODE_FULL None ZLIB_COMPRESS)
    (backup 20 10 BACKUP_STATUS_MERGING BACKUP_MODE_DIFF_DELTA None
       PGLZ_COMPRESS).

End DataFile.

(** One worker and two files to copy, the first of which cannot be read. *)
Module FailingWorker.
Import Input.

Definition files : list pgFile :=
  [entry "postgresql.conf" mode_reg 300 300 (-1) NOT_DEFINED_COMPRESS false 0;
   entry "pg_hba.conf" mode_reg 200 200 (-1) NOT_DEFINED_COMPRESS false 0].

Definition argument : merge_files_arg :=
  Input.argument [] None
    (backup 10 0 BACKUP_STATUS_MERGING BACKUP_MODE_FULL None NONE_COMPRESS)
    (backup 20 10 BACKUP_STATUS_MERGING BACKUP_MODE_DIFF_PAGE None NONE_COMPRESS).

Definition worker : thread := Thread argument 0 false.

Definition world : Sim.t :=
  Sim.mk [] [] []
    [join_path_components (pgBackupGetPath 20 (Some DATABASE_DIR))
       "postgresql.conf"]
    100 false [].

End FailingWorker.

(** The manifest of the end-to-end scenario of the specification: [a]
    unchanged and taken over from the FULL backup at 100 bytes, [b]
    rewritten to 80 bytes, a new file [c] of 10 bytes, and one directory. *)
Module Sizes.
Import Input.

Definition files : list pgFile :=
  [entry "base" mode_dir 0 0 (-1) NOT_DEFINED_COMPRESS false 0;
   entry "base/a" mode_reg 100 100 (-1) NONE_COMPRESS true 0;
   entry "base/b" mode_reg 80 80 1 NONE_COMPRESS true 0;
   entry "base/c" mode_reg 10 10 1 NONE_COMPRESS true 0].

Definition to_backup : pgBackup :=
  pgBackup.mk 10 0 BACKUP_STATUS_MERGING BACKUP_MODE_FULL 16777216 33554432
    0 0 None false 0 0 NONE_COMPRESS 1 "2.0.27".

Definition from_backup : pgBackup :=
  pgBackup.mk 20 10 BACKUP_STATUS_MERGING BACKUP_MODE_DIFF_DELTA
    50331648 83886090 0 0 None false 0 0 NONE_COMPRESS 1 "2.0.27".

End Sizes.

(** A merge of backup 20 into the FULL backup 10 that was interrupted while
    the source was being deleted: the destination is OK again and its
    manifest is already the merged one, the source is DELETING. *)
Module Resume.
Import Input.

Definition to_backup : pgBackup :=
  backup 10 0 BACKUP_STATUS_OK BACKUP_MODE_FULL (Some "/b") NONE_COMPRESS.

Definition from_backup : pgBackup :=
  backup 20 10 BACKUP_STATUS_DELETING BACKUP_MODE_DIFF_PAGE (Some "/b")
    NONE_COMPRESS.

Definition to_files : list pgFile :=
  [entry "postgresql.conf" mode_reg 300 300 (-1) NONE_COMPRESS false 0;
   entry "conf/app.conf" mode_reg 120 120 (-1) NONE_COMPRESS false 1].

Definition world : Sim.t :=
  Sim.mk [from_backup; to_backup] [(10, to_files)]
    [backup_dir 20; backup_dir 10] [] 100 false [].

End Resume.

(** Two extra directories that the two backups list in opposite orders. *)
Module SwappedDirs.
Import Input.

Definition to_backup : pgBackup :=
  backup 10 0 BACKUP_STATUS_MERGING BACKUP_MODE_FULL (Some "/a:/b")
    NONE_COMPRESS.

Definition to_extra : list string := ["/a"; "/b"].
Definition from_extra : option (list string) := Some ["/b"; "/a"].

Definition container (n : Z) : fspath :=
  makeExtraDirPathByNum (pgBackupGetPath 10 (Some EXTRA_DIR)) n.

Definition file_a : pgFile :=
  entry "a.conf" mode_reg 10 10 (-1) NONE_COMPRESS false 1.
Definition file_b : pgFile :=
  entry "b.conf" mode_reg 20 20 (-1) NONE_COMPRESS false 2.

(** Both containers hold a file. *)
Definition world : Sim.t :=
  Sim.mk [] [] [(container 1, [file_a]); (container 2, [file_b])] [] 100
    false [].

(** The directory "/b" was empty when it was backed up. *)
Definition world_empty_b : Sim.t :=
  Sim.mk [] [] [(container 1, [file_a]); (container 2, [])] [] 100 false [].

End SwappedDirs.

(** No rename of the reconciler aims at a container that is still to be
    processed: for the entry at position [i + 1] found at position [n] of
    the source list, [n] is not among the positions after [i + 1]. *)
Definition rename_targets_free (to_extra : list string)
    (from_extra : option (list string)) : Prop :=
  ∀ (i : nat) dir,
    to_extra !! i = Some dir →
    let n := get_extra_index dir from_extra in
    n ≠ -1 → n ≠ Z.of_nat i + 1 →
    ¬ (Z.of_nat i + 1 < n ≤ Z.of_nat (length to_extra)).

(** A catalog in which a failed backup (20) lies between the destination
    (30) and its parent, the FULL backup 10. *)
Module Siblings.
Import Input.

Definition dest : pgBackup :=
  backup 30 10 BACKUP_STATUS_OK BACKUP_MODE_DIFF_PAGE None NONE_COMPRESS.
Definition failed : pgBackup :=
  backup 20 10 BACKUP_STATUS_ERROR BACKUP_MODE_DIFF_PAGE None NONE_COMPRESS.
Definition full : pgBackup :=
  backup 10 0 BACKUP_STATUS_OK BACKUP_MODE_FULL None NONE_COMPRESS.

Definition catalog : list pgBackup := [dest; failed; full].

Definition world : Sim.t :=
  Sim.mk catalog [] [backup_dir 30; backup_dir 20; backup_dir 10] [] 100
    false [].

End Siblings.

(** What holds of the locals of the scan before it looks at index [i], as
    long as no FULL backup has been found: the destination, if found, is a
    backup of the catalog with the requested ID, found before [i], and
    [prev_parent] is the parent of a backup on its chain. *)
Definition scan_inv (backup_id : Z) (backups : list pgBackup) (i : nat)
    (s : scan) : Prop :=
  full_backup s = None ∧
  match dest_backup s with
  | None => True
  | Some d =>
      d ∈ backups ∧ pgBackup.start_time d = backup_id ∧
      (dest_backup_idx s < i)%nat ∧
      ∃ b, on_chain backups d b ∧ prev_parent s = pgBackup.parent_backup b
  end.

(** The statuses and modes [do_merge] accepts: the destination is OK,
    MERGING or DELETING and is not FULL; every backup met on its chain is OK
    or MERGING. *)
Definition chain_accepted (backup_id : Z) (backups : list pgBackup) : Prop :=
  (∀ d, d ∈ backups → pgBackup.start_time d = backup_id →
        (pgBackup.status d = BACKUP_STATUS_OK ∨
         pgBackup.status d = BACKUP_STATUS_MERGING ∨
         pgBackup.status d = BACKUP_STATUS_DELETING) ∧
        pgBackup.backup_mode d ≠ BACKUP_MODE_FULL) ∧
  (∀ d b p, d ∈ backups → pgBackup.start_time d = backup_id →
            on_chain backups d b → p ∈ backups →
            pgBackup.start_time p = pgBackup.parent_backup b →
            pgBackup.status p = BACKUP_STATUS_OK ∨
            pgBackup.status p = BACKUP_STATUS_MERGING).

(** The two "not found" errors of [do_merge]. *)
Definition not_found (backup_id : Z) (e : error) : Prop :=
  e = ERROR (ErrTargetNotFound backup_id) ∨
  e = ERROR (ErrParentFullNotFound backup_id).

(** What [do_merge] is said to do whenever no backup with the requested ID
    has a FULL ancestor: to fail with a "not found" error. *)
Definition not_found_without_full_ancestor {W} `{Collaborators W}
    (g : globals) (backup_id : Z) (st : mstate W) : Prop :=
  ∀ backups st1,
    open_catalog st = (Ok backups, st1) →
    (∀ d, d ∈ backups → pgBackup.start_time d = backup_id →
          ¬ has_full_ancestor backups d) →
    ∃ e, do_merge g backup_id st = (Err e, st1) ∧ not_found backup_id e.

(** A catalog in which the parent (20) of the destination (30) is missing. *)
Module BrokenChain.
Import Input.

Definition dest : pgBackup :=
  backup 30 20 BACKUP_STATUS_OK BACKUP_MODE_DIFF_PAGE None NONE_COMPRESS.
Definition full : pgBackup :=
  backup 10 0 BACKUP_STATUS_OK BACKUP_MODE_FULL None NONE_COMPRESS.

Definition catalog : list pgBackup := [dest; full].

Definition world : Sim.t :=
  Sim.mk catalog [] [backup_dir 30; backup_dir 10] [] 100 false [].

End BrokenChain.

(** The parent of the destination (30) is a backup that is being deleted;
    the catalog holds no FULL backup. *)
Module DeletingParent.
Import Input.

Definition dest : pgBackup :=
  backup 30 20 BACKUP_STATUS_OK BACKUP_MODE_DIFF_PAGE None NONE_COMPRESS.
Definition parent : pgBackup :=
  backup 20 10 BACKUP_STATUS_DELETING BACKUP_MODE_DIFF_PAGE None
    NONE_COMPRESS.

Definition catalog : list pgBackup := [dest; parent].

Definition world : Sim.t :=
  Sim.mk catalog [] [backup_dir 30; backup_dir 20] [] 100 false [].

End DeletingParent.

(** A chain of two backups whose pair merge goes through and whose third
    validation, the one at the end of [do_merge], reports CORRUPT. *)
Module CorruptAtTheEnd.
Import Input.

Definition dest : pgBackup :=
  backup 20 10 BACKUP_STATUS_OK BACKUP_MODE_DIFF_PAGE None NONE_COMPRESS.
Definition full : pgBackup :=
  backup 10 0 BACKUP_STATUS_OK BACKUP_MODE_FULL None NONE_COMPRESS.

Definition catalog : list pgBackup := [dest; full].

Definition world : Sim.t :=
  Sim.mk catalog [] [backup_dir 20; backup_dir 10] [] 2 false [].

End CorruptAtTheEnd.

(** ** What a computation adds to the log *)

(** Whatever the state, [m] only appends to the log, and what it appends
    satisfies [P]. *)
Definition emits {W A} (P : event → Prop) (m : M W A) : Prop :=
  ∀ st, ∃ evs, trace (m st).2 = (trace st ++ evs)%list ∧ Forall P evs.

(** An event that is not the start of a pair merge. *)
Definition quiet (e : event) : Prop := pair_merge_started e = None.

(** The pairs the loop of [do_merge] hands to [merge_backups], from index
    [i] down to [dest_backup_idx + 1], by the IDs the backups have in the
    catalog: the running full backup bears the ID of the backup merged
    just before. *)
Fixpoint adjacent_pairs_down (ids : list Z) (dest_backup_idx i : nat)
  : list (Z * Z) :=
  match i with
  | O => []
  | S i' =>
      if bool_decide (dest_backup_idx < i)%nat then
        match ids !! i, ids !! i' with
        | Some to_id, Some from_id =>
            (to_id, from_id) :: adjacent_pairs_down ids dest_backup_idx i'
        | _, _ => []
        end
      else []
  end.

(** Whenever [m] returns, what it returns satisfies [Q]. *)
Definition returns {W A} (Q : A → Prop) (m : M W A) : Prop :=
  ∀ st a st', m st = (Ok a, st') → Q a.

(** * More statements

    Observations of the log and inputs used by the further properties of
    the functions of merge.c. *)

(** The renames that were asked for. *)
Definition rename_asked (e : event) : option (fspath * fspath) :=
  match e with
  | Called (rename old_path new_path) _ => Some (old_path, new_path)
  | _ => None
  end.

Definition renames (log : list event) : list (fspath * fspath) :=
  omap rename_asked log.

(** The directories that were listed. *)
Definition listing_asked (e : event) : option fspath :=
  match e with
  | Called (dir_list_file root) _ => Some root
  | _ => None
  end.

Definition listings (log : list event) : list fspath :=
  omap listing_asked log.

(** The files that were deleted, by the path handed to [pgFileDelete]. *)
Definition deletion_asked (e : event) : option fspath :=
  match e with
  | Called (pgFileDelete full_path _) _ => Some full_path
  | _ => None
  end.

Definition deletions (log : list event) : list fspath :=
  omap deletion_asked log.

(** The numbered containers [first + 1 .. first + n] under a prefix. *)
Fixpoint containers (prefix : fspath) (first : Z) (n : nat) : list fspath :=
  match n with
  | O => []
  | S n' => makeExtraDirPathByNum prefix (first + 1)
            :: containers prefix (first + 1) n'
  end.

(** What [reorder_extra_dirs] may ask of the file system: to list or to
    rename a numbered container under [prefix], or to delete an entry by
    the path it carries. *)
Definition within_containers (prefix : fspath) (e : event) : Prop :=
  match e with
  | Called (dir_list_file root) _ =>
      ∃ n, root = makeExtraDirPathByNum prefix n
  | Called (pgFileDelete full_path file) _ =>
      full_path = listed (pgFile.path file)
  | Called (rename old_path new_path) _ =>
      ∃ n m, old_path = makeExtraDirPathByNum prefix n ∧
             new_path = makeExtraDirPathByNum prefix m
  | _ => False
  end.

(** The entries that the listings of a log gave. *)
Definition listing_given (e : event) : option (list pgFile) :=
  match e with
  | Called (dir_list_file _) (Returned files) => Some files
  | _ => None
  end.

Definition listed_entries (log : list event) : list pgFile :=
  mjoin (omap listing_given log).

(** The entries that were handed to [pgFileDelete]. *)
Definition deleted_entry (e : event) : option pgFile :=
  match e with
  | Called (pgFileDelete _ file) _ => Some file
  | _ => None
  end.

Definition deleted_entries (log : list event) : list pgFile :=
  omap deleted_entry log.

(** What [reorder_extra_dirs] adds to the log: calls within the containers,
    and deletions of nothing but entries that a listing gave it. *)
Definition tidy (prefix : fspath) (evs : list event) : Prop :=
  Forall (within_containers prefix) evs ∧
  deleted_entries evs ⊆ listed_entries evs.

(** Whatever the state, [m] only appends to the log, and what it appends
    satisfies [R]. *)
Definition appends {W A} (R : list event → Prop) (m : M W A) : Prop :=
  ∀ st, ∃ evs, trace (m st).2 = (trace st ++ evs)%list ∧ R evs.

(** An error raised inside a callee. *)
Definition callee_error (e : error) : Prop :=
  ∃ R (c : call R), e = CalleeError c.

(** One extra directory of the destination that the source backup, which
    has none, does not list. *)
Module DroppedDir.
Import Input.

Definition to_backup : pgBackup :=
  backup 10 0 BACKUP_STATUS_MERGING BACKUP_MODE_FULL (Some "/a") NONE_COMPRESS.

Definition container (n : Z) : fspath :=
  makeExtraDirPathByNum (pgBackupGetPath 10 (Some EXTRA_DIR)) n.

Definition world : Sim.t :=
  Sim.mk [] []
    [(container 1,
      [entry "a.conf" mode_reg 10 10 (-1) NONE_COMPRESS false 1])]
    [] 100 false [].

End DroppedDir.

(** A container that holds a directory and two files. *)
Module ListedDir.
Import Input.

Definition container : fspath :=
  makeExtraDirPathByNum (pgBackupGetPath 10 (Some EXTRA_DIR)) 1.

Definition content : list pgFile :=
  [entry "a.conf" mode_reg 10 10 (-1) NONE_COMPRESS false 1;
   entry "conf.d" mode_dir 0 0 (-1) NONE_COMPRESS false 1;
   entry "conf.d/b.conf" mode_reg 20 20 (-1) NONE_COMPRESS false 1].

Definition world : Sim.t :=
  Sim.mk [] [] [(container, content)] [] 100 false [].

End ListedDir.

(** ** The workers *)

(** The entry at index [j] of the manifest has been claimed. *)
Definition locked (files : list slot) (j : nat) : Prop :=
  ∃ s, files !! j = Some s ∧ claimed s = true.

(** What holds of a worker between two turns: [ret] is 0 or 1; while it
    runs, [ret] is still 1 and every entry before [next_file] has been
    claimed (by it or by another worker); once [ret] is 0 every entry has
    been claimed. *)
Definition thread_ok (files : list slot) (t : thread) : Prop :=
  (ret (arg t) = 0 ∨ ret (arg t) = 1) ∧
  (exited t = false →
   ret (arg t) = 1 ∧ ∀ j, (j < next_file t)%nat → locked files j) ∧
  (ret (arg t) = 0 → ∀ j, (j < length files)%nat → locked files j).

(** A worker has stopped on a failure. *)
Definition failed (threads : list thread) : Prop :=
  ∃ k t, threads !! k = Some t ∧ exited t = true ∧ ret (arg t) = 1.

(** What holds of the workers and the manifest between two turns: every
    worker is as above, and an entry has been abandoned only if a worker
    has stopped on a failure. *)
Definition pool_ok (threads : list thread) (files : list slot) : Prop :=
  Forall (thread_ok files) threads ∧
  ((∃ j, files !! j = Some Abandoned) → failed threads).

(** A worker as [merge_backups] creates it. *)
Definition fresh (t : thread) : Prop :=
  next_file t = 0%nat ∧ exited t = false ∧ ret (arg t) = 1.

(** What a worker may ask for when the destination's data root is [root]
    and its extra directory root is [prefix]: the block codec and the
    copies, writing under [root] or into a numbered container under
    [prefix], with the temporary file beside the destination file; sizes
    and checksums; the removal of that temporary file.  Nothing is deleted
    or renamed and no descriptor or manifest is written. *)
Definition worker_call (root prefix : fspath) (e : event) : Prop :=
  let under_root p := ∃ rel, p = join_path_components root rel in
  match e with
  | Called (restore_data_file to_path _ _ _ _ _) _ =>
      under_root to_path ∨ ∃ p, to_path = tmp_suffix p ∧ under_root p
  | Called (backup_data_file to_path file_path _ _ _ _ _) _ =>
      under_root to_path ∧ file_path = tmp_suffix to_path
  | Called (unlink p) _ => ∃ q, p = tmp_suffix q ∧ under_root q
  | Called (pgFileSize _) _ => True
  | Called (pgFileGetCRC _) _ => True
  | Called (copy_file _ to _ _) _ =>
      to = root ∨ ∃ n, to = makeExtraDirPathByNum prefix n
  | Called (copy_pgcontrol_file _ to _ _) _ => to = root
  | _ => False
  end.

(** The workers of one pair merge share the destination. *)
Definition writes_to (root prefix : fspath) (t : thread) : Prop :=
  to_root (arg t) = root ∧ to_extra_prefix (arg t) = prefix.

(** Two workers and three entries; the second worker takes the first two
    turns. *)
Module TwoWorkers.
Import Input.

Definition files : list pgFile :=
  [entry "PG_VERSION" mode_reg 3 3 (-1) NOT_DEFINED_COMPRESS false 0;
   entry "postgresql.conf" mode_reg 300 300 (-1) NOT_DEFINED_COMPRESS false 0;
   entry "base/1/2610" mode_reg 8192 2048 1 NOT_DEFINED_COMPRESS true 0].

Definition argument : merge_files_arg :=
  Input.argument [] None
    (backup 10 0 BACKUP_STATUS_MERGING BACKUP_MODE_FULL None NONE_COMPRESS)
    (backup 20 10 BACKUP_STATUS_MERGING BACKUP_MODE_DIFF_PAGE None NONE_COMPRESS).

Definition threads : list thread :=
  [Thread argument 0 false; Thread argument 0 false].

Definition world : Sim.t := Sim.mk [] [] [] [] 100 false [1; 1; 0; 1]%nat.

End TwoWorkers.

(** ** The deletion of the source backup *)

(** What [delete_source_backup] may delete of the destination, given the
    source manifest [files] and the old destination manifest [to_files]:
    an entry of [to_files], by its path under [root], when no entry of
    [files] has that path. *)
Definition stale_deletion (root : fspath) (files to_files : list pgFile)
    (e : event) : Prop :=
  match e with
  | Called (pgFileDelete full_path file) _ =>
      file ∈ to_files ∧
      full_path = join_path_components root (pgFile.path file) ∧
      ∀ f, f ∈ files → pgFile.path f ≠ pgFile.path file
  | _ => True
  end.

(** The entries of [to_files] whose path no entry of [files] has. *)
Definition stale_entries (files to_files : list pgFile) : list pgFile :=
  filter (λ file, pgFile.path file ∉ pgFile.path <$> files) to_files.

(** The old destination manifest has two files that the source manifest
    does not list, and one that it does. *)
Module StaleFiles.
Import Input.

Definition files : list pgFile :=
  [entry "base/1/1259" mode_reg 8192 8192 1 NONE_COMPRESS true 0;
   entry "base/1/2610" mode_reg 8192 8192 1 NONE_COMPRESS true 0].

Definition to_files : list pgFile :=
  [entry "base/1/1247" mode_reg 8192 8192 1 NONE_COMPRESS true 0;
   entry "base/1/1259" mode_reg 8192 8192 1 NONE_COMPRESS true 0;
   entry "base/1/3000" mode_reg 8192 8192 1 NONE_COMPRESS true 0].

Definition to_backup : pgBackup :=
  backup 10 0 BACKUP_STATUS_OK BACKUP_MODE_FULL None NONE_COMPRESS.

Definition from_backup : pgBackup :=
  backup 20 10 BACKUP_STATUS_DELETING BACKUP_MODE_DIFF_PAGE None NONE_COMPRESS.

Definition world : Sim.t :=
  Sim.mk [from_backup; to_backup] [] [backup_dir 10] [] 100 false [].

End StaleFiles.

(** ** The phases of a pair merge *)

(** What a pair merge asks for before it changes anything: its log line,
    the validations and the reading of the two manifests. *)
Definition preparation (e : event) : Prop :=
  match e with
  | Called (elog_INFO _) _
  | Called (pgBackupValidate _) _
  | Called (dir_read_file_list _) _ => True
  | _ => False
  end.

(** What follows the preparation, if anything does: the destination is
    recorded as MERGING, then the source is; or, when the source is
    DELETING, its files are deleted. *)
Definition marks_first (to_id from_id : Z) (rest : list event) : Prop :=
  match rest with
  | [] => True
  | Called (write_backup_status backup) _ :: rest' =>
      pgBackup.start_time backup = to_id ∧
      pgBackup.status backup = BACKUP_STATUS_MERGING ∧
      match rest' with
      | [] => True
      | Called (write_backup_status backup') _ :: _ =>
          pgBackup.start_time backup' = from_id ∧
          pgBackup.status backup' = BACKUP_STATUS_MERGING
      | _ => False
      end
  | Called (delete_backup_files backup) _ :: _ =>
      pgBackup.start_time backup = from_id ∧
      pgBackup.status backup = BACKUP_STATUS_DELETING
  | _ => False
  end.

(** The log of [m] is a preparation followed by events that [R] accepts. *)
Definition phased {W A} (R : list event → Prop) (m : M W A) : Prop :=
  ∀ st, ∃ pre rest,
    trace (m st).2 = (trace st ++ pre ++ rest)%list ∧
    Forall preparation pre ∧ R rest.

(** ** What a pair merge leaves *)

(** Whenever [m] returns, the value and the state it returns satisfy [Q]. *)
Definition leaves {W A} (Q : A → mstate W → Prop) (m : M W A) : Prop :=
  ∀ st a st', m st = (Ok a, st') → Q a st'.

(** [b'] is [b] but for its status. *)
Definition restatused (b b' : pgBackup) : Prop :=
  ∃ s, b' = pgBackup.set_status s b.

(** A status was written with [write_backup_status]: the pair merge has
    marked its backups as MERGING. *)
Definition status_written (evs : list event) : bool :=
  existsb (λ e, match e with
                | Called (write_backup_status _) _ => true
                | _ => false
                end) evs.

(** What the resumed deletion of a source backup asks for: the
    preparation, the deletion of the source's files and of files of the
    destination, the log line and the rename, and the writing of the
    destination's descriptor. *)
Definition resume_call (e : event) : Prop :=
  match e with
  | Called (elog_INFO _) _
  | Called (pgBackupValidate _) _
  | Called (dir_read_file_list _) _
  | Called (delete_backup_files _) _
  | Called (pgFileDelete _ _) _
  | Called (rename _ _) _
  | Called (write_backup _) _ => True
  | _ => False
  end.

(** The incremental backup 20 on the FULL backup 10: one file unchanged,
    one rewritten, one new, and one that the FULL backup alone has. *)
Module Pair.
Import Input.

Definition to_backup : pgBackup :=
  pgBackup.mk 10 0 BACKUP_STATUS_OK BACKUP_MODE_FULL 16777216 33554432
    1000 700 None false 8292 16777216 NONE_COMPRESS 1 "2.0.26".

Definition from_backup : pgBackup :=
  pgBackup.mk 20 10 BACKUP_STATUS_OK BACKUP_MODE_DIFF_DELTA 50331648 83886090
    2000 900 None false 4186 33554432 NONE_COMPRESS 1 "2.0.27".

Definition to_files : list pgFile :=
  [entry "base" mode_dir 0 0 (-1) NOT_DEFINED_COMPRESS false 0;
   entry "base/a" mode_reg 100 100 1 NONE_COMPRESS true 0;
   entry "base/b" mode_reg 8192 8192 1 NONE_COMPRESS true 0;
   entry "base/old" mode_reg 16 16 1 NONE_COMPRESS true 0].

Definition files : list pgFile :=
  [entry "base" mode_dir 0 0 (-1) NOT_DEFINED_COMPRESS false 0;
   entry "base/a" mode_reg 100 BYTES_INVALID (-1) NONE_COMPRESS true 0;
   entry "base/b" mode_reg 8192 80 1 NONE_COMPRESS true 0;
   entry "base/c" mode_reg 10 10 1 NONE_COMPRESS true 0].

Definition world : Sim.t :=
  Sim.mk [from_backup; to_backup] [(10, to_files); (20, files)]
    [backup_dir 20; backup_dir 10] [] 100 false [].

End Pair.

(** ** The chain *)

(** What the scan of [do_merge] has found when it has found a FULL backup:
    the destination and the FULL backup are the backups of the catalog at
    the two indexes, the destination first; the destination has the
    requested ID, a status a merge can start or resume from, and is not
    FULL; the FULL backup is OK or MERGING and is reached from the
    destination by parent links. *)
Definition scan_found (backup_id : Z) (backups : list pgBackup) (s : scan)
  : Prop :=
  ∃ dest full,
    dest_backup s = Some dest ∧ full_backup s = Some full ∧
    backups !! dest_backup_idx s = Some dest ∧
    backups !! full_backup_idx s = Some full ∧
    (dest_backup_idx s < full_backup_idx s)%nat ∧
    pgBackup.start_time dest = backup_id ∧
    (pgBackup.status dest = BACKUP_STATUS_OK ∨
     pgBackup.status dest = BACKUP_STATUS_MERGING ∨
     pgBackup.status dest = BACKUP_STATUS_DELETING) ∧
    pgBackup.backup_mode dest ≠ BACKUP_MODE_FULL ∧
    pgBackup.backup_mode full = BACKUP_MODE_FULL ∧
    (pgBackup.status full = BACKUP_STATUS_OK ∨
     pgBackup.status full = BACKUP_STATUS_MERGING) ∧
    on_chain backups dest full.

(** What holds of the locals of the scan before it looks at index [i], as
    long as no FULL backup has been found. *)
Definition scan_looking (backup_id : Z) (backups : list pgBackup) (i : nat)
    (s : scan) : Prop :=
  full_backup s = None ∧
  match dest_backup s with
  | None => True
  | Some dest =>
      backups !! dest_backup_idx s = Some dest ∧
      (dest_backup_idx s < i)%nat ∧
      pgBackup.start_time dest = backup_id ∧
      (pgBackup.status dest = BACKUP_STATUS_OK ∨
       pgBackup.status dest = BACKUP_STATUS_MERGING ∨
       pgBackup.status dest = BACKUP_STATUS_DELETING) ∧
      pgBackup.backup_mode dest ≠ BACKUP_MODE_FULL ∧
      ∃ b, on_chain backups dest b ∧ prev_parent s = pgBackup.parent_backup b
  end.

(** A chain of three backups, newest first. *)
Module Chain3.
Import Input.

Definition dest : pgBackup :=
  backup 30 20 BACKUP_STATUS_OK BACKUP_MODE_DIFF_PAGE None NONE_COMPRESS.
Definition middle : pgBackup :=
  backup 20 10 BACKUP_STATUS_OK BACKUP_MODE_DIFF_PAGE None NONE_COMPRESS.
Definition full : pgBackup :=
  backup 10 0 BACKUP_STATUS_OK BACKUP_MODE_FULL None NONE_COMPRESS.

Definition catalog : list pgBackup := [dest; middle; full].

Definition world : Sim.t :=
  Sim.mk catalog [] [backup_dir 30; backup_dir 20; backup_dir 10] [] 100
    false [].

End Chain3.

(** The catalog as [catalog_get_backup_list] gives it: in order of
    descending start time. *)
Fixpoint newest_first (backups : list pgBackup) : Prop :=
  match backups with
  | [] => True
  | backup :: rest =>
      Forall (λ q, pgBackup.start_time q < pgBackup.start_time backup) rest ∧
      newest_first rest
  end.

(** [p] and then [chain] are successive parents, each older than its
    child and OK or MERGING, up to the first FULL backup, which is the
    last. *)
Fixpoint ancestors (p : pgBackup) (chain : list pgBackup) : Prop :=
  (pgBackup.status p = BACKUP_STATUS_OK ∨
   pgBackup.status p = BACKUP_STATUS_MERGING) ∧
  match chain with
  | [] => pgBackup.backup_mode p = BACKUP_MODE_FULL
  | q :: chain' =>
      pgBackup.backup_mode p ≠ BACKUP_MODE_FULL ∧
      pgBackup.start_time q = pgBackup.parent_backup p ∧
      pgBackup.start_time q < pgBackup.start_time p ∧
      ancestors q chain'
  end.

(** ** Interrupts *)

(** The world of the two workers after the user has interrupted the
    program. *)
Module Interrupted.

Definition world : Sim.t := Sim.mk [] [] [] [] 100 true [1; 1; 0; 1]%nat.

End Interrupted.

(** ** The setting up of the manifest *)

(** The directories that were created one by one. *)
Definition creation_asked (e : event) : option fspath :=
  match e with
  | Called (dir_create_dir path) _ => Some path
  | _ => None
  end.

Definition creations (log : list event) : list fspath :=
  omap creation_asked log.

(** The entries of the source manifest that are directories of an extra
    directory. *)
Definition extra_directories (files : list pgFile) : list pgFile :=
  filter (λ file, pgFile.extra_dir_num file ≠ 0 ∧
                  S_ISDIR (pgFile.mode file) = true) files.

(** A source manifest with a directory and a file of the first extra
    directory. *)
Module ExtraTree.
Import Input.

Definition files : list pgFile :=
  [entry "conf" mode_dir 0 0 (-1) NOT_DEFINED_COMPRESS false 1;
   entry "conf/app.conf" mode_reg 120 120 (-1) NOT_DEFINED_COMPRESS false 1;
   entry "base" mode_dir 0 0 (-1) NOT_DEFINED_COMPRESS false 0].

End ExtraTree.

(** * Properties *)

(** ** Running the monad *)

Lemma bind_run {W A B} (m : M W A) (k : A → M W B) (st : mstate W) :
  (m ≫= k) st = match m st with
                | (Ok a, st') => k a st'
                | (Err e, st') => (Err e, st')
                end.
Proof. reflexivity. Qed.

Lemma bind_Ok_inv {W A B} (m : M W A) (k : A → M W B) st b st' :
  (m ≫= k) st = (Ok b, st') →
  ∃ a st1, m st = (Ok a, st1) ∧ k a st1 = (Ok b, st').
Proof.
  rewrite bind_run. destruct (m st) as [[a|e] st1]; [eauto | discriminate].
Qed.

Lemma bind_Ok {W A B} (m : M W A) (k : A → M W B) st a st1 :
  m st = (Ok a, st1) → (m ≫= k) st = k a st1.
Proof. intros E. rewrite bind_run, E. reflexivity. Qed.

Lemma bind_Err {W A B} (m : M W A) (k : A → M W B) st e st1 :
  m st = (Err e, st1) → (m ≫= k) st = (Err e, st1).
Proof. intros E. rewrite bind_run, E. reflexivity. Qed.

Lemma read_interrupted_run {W} `{Collaborators W} (st : mstate W) :
  read_interrupted st = (Ok (interrupted (world st)), st).
Proof. reflexivity. Qed.

(** ** Unchanged entries (Skip) *)

Lemma merge_one_file_skip {W} `{Collaborators W} argument file (st : mstate W) :
  interrupted (world st) = false →
  S_ISDIR (pgFile.mode file) = false →
  pgFile.write_size file = BYTES_INVALID →
  pgFile.n_blocks file = -1 →
  merge_one_file argument file st =
    (Ok match parray_bsearch (to_files argument) file with
        | Some to_file =>
            pgFile.set_crc (pgFile.crc to_file)
              (pgFile.set_write_size (pgFile.write_size to_file)
                 (pgFile.set_compress_alg (pgFile.compress_alg to_file) file))
        | None => file
        end, st).
Proof.
  intros Hirq Hdir Hws Hnb. unfold merge_one_file.
  rewrite bind_run, read_interrupted_run, Hirq, Hdir, Hws, Hnb.
  rewrite !Z.eqb_refl. simpl.
  destruct (parray_bsearch _ _); reflexivity.
Qed.




(** ** The recorded compression tag *)

Lemma not_skipped file :
  ¬ (pgFile.write_size file = BYTES_INVALID ∧ pgFile.n_blocks file = -1) →
  (pgFile.write_size file =? BYTES_INVALID) && (pgFile.n_blocks file =? -1)
  = false.
Proof.
  intros Hn. apply andb_false_iff.
  destruct (Z.eqb_spec (pgFile.write_size file) BYTES_INVALID);
    destruct (Z.eqb_spec (pgFile.n_blocks file) (-1)); tauto.
Qed.

(** C5, as stated, fails for Skip: the entry leaves the worker with the tag
    of the old destination entry (zlib), not with the algorithm of the
    destination backup (none). *)
Lemma skipped_entry_keeps_old_tag :
  ¬ compression_tag_recorded SkipRegular.argument SkipRegular.file
      (Sim.start Input.quiet_world).
Proof.
  intros Hclaim.
  specialize (Hclaim _ _ eq_refl). vm_compute in Hclaim. discriminate.
Qed.

(** C5 (amended): for every entry that is not a directory, once the worker
    is done with it.  If the entry is not skipped as unchanged, that is
    after a block merge, a control-file copy, a directory-aware copy or a
    plain copy, the recorded compression tag is the compression algorithm
    of the destination backup.  If it is skipped (write size the invalid
    sentinel, block count -1), the lookup of line 464 being made in the old
    destination manifest as [merge_backups] has sorted it after reading,
    the tag is the one of the same-path entry of that manifest if there is
    one, and the one the entry had otherwise.  A lookup made while another
    worker is inside lines 555-560 is not covered. *)
Theorem compression_tag_after_action {W} `{Collaborators W}
    (argument : merge_files_arg) (manifest : list pgFile) (file : pgFile)
    (st : mstate W) :
  S_ISDIR (pgFile.mode file) = false →
  (¬ (pgFile.write_size file = BYTES_INVALID ∧ pgFile.n_blocks file = -1) →
   compression_tag_recorded argument file st) ∧
  (pgFile.write_size file = BYTES_INVALID → pgFile.n_blocks file = -1 →
   to_files argument = parray_qsort pgFileComparePathDesc manifest →
   ∀ file' st',
     merge_one_file argument file st = (Ok file', st') →
     pgFile.compress_alg file'
     = match parray_bsearch (to_files argument) file with
       | Some to_file => pgFile.compress_alg to_file
       | None => pgFile.compress_alg file
       end).
Proof.
  intros Hdir. split.
  - intros Hns file' st' Hrun. unfold merge_one_file in Hrun.
    rewrite bind_run, read_interrupted_run in Hrun.
    destruct (interrupted (world st)); [discriminate|].
    rewrite Hdir, (not_skipped _ Hns) in Hrun.
    apply bind_Ok_inv in Hrun as (file1 & st1 & _ & Hret).
    injection Hret as <- _. reflexivity.
  - intros Hws Hnb _ file' st' Hrun.
    destruct (interrupted (world st)) eqn:Hirq.
    + unfold merge_one_file in Hrun.
      rewrite bind_run, read_interrupted_run, Hirq in Hrun. discriminate.
    + rewrite (merge_one_file_skip _ _ _ Hirq Hdir Hws Hnb) in Hrun.
      injection Hrun as <- _.
      destruct (parray_bsearch _ _); reflexivity.
Qed.

Lemma compression_tag_after_action_witness :
  (∃ file' st',
     merge_one_file DataFile.argument DataFile.file
       (Sim.start Input.quiet_world) = (Ok file', st') ∧
     pgFile.compress_alg file' = ZLIB_COMPRESS) ∧
  (∃ file' st',
     merge_one_file SkipRegular.argument SkipRegular.file
       (Sim.start Input.quiet_world) = (Ok file', st') ∧
     pgFile.compress_alg file' = ZLIB_COMPRESS ∧
     pgBackup.compress_alg (to_backup SkipRegular.argument) = NONE_COMPRESS).
Proof.
  split.
  - eexists _, _. split; [vm_compute; reflexivity|].
    refine (proj1 (compression_tag_after_action DataFile.argument []
                     DataFile.file (Sim.start Input.quiet_world) _) _ _ _ _);
      [reflexivity | intros [Hws _]; discriminate | vm_compute; reflexivity].
  - eexists _, _. split; [vm_compute; reflexivity|]. split; [|reflexivity].
    refine (proj2 (compression_tag_after_action SkipRegular.argument
                     [SkipRegular.to_file] SkipRegular.file
                     (Sim.start Input.quiet_world) _) _ _ _ _ _ _);
      [reflexivity | reflexivity | reflexivity | reflexivity
      | vm_compute; reflexivity].
Defined.

(** ** Files of extra directories *)

Lemma io_run {W} `{Collaborators W} {R} (c : call R) (st : mstate W) :
  io c st =
    let '(r, w) := respond R c (world st) in
    let st' := MState w (trace st ++ [Called c r]) in
    match r with
    | Returned x => (Ok x, st')
    | Raises => (Err (CalleeError c), st')
    end.
Proof. reflexivity. Qed.




(** ** Failing workers *)

Lemma merge_files_turn_exited {W} `{Collaborators W} t files (st : mstate W) :
  exited t = true → merge_files_turn t files st = (Ok (t, files), st).
Proof. intros E. unfold merge_files_turn. rewrite E. reflexivity. Qed.

(** What a turn does, case by case: the worker has exited; it is past the
    last entry; the entry is claimed already; it claims the entry and the
    action returns, or fails through elog(ERROR), or ends the process. *)
Lemma merge_files_turn_cases {W} `{Collaborators W} t files (st : mstate W) :
  (exited t = true ∧ merge_files_turn t files st = (Ok (t, files), st)) ∨
  (exited t = false ∧ files !! next_file t = None ∧
   merge_files_turn t files st
   = (Ok (Thread (set_ret 0 (arg t)) (next_file t) true, files), st)) ∨
  (exited t = false ∧
   (∃ s, files !! next_file t = Some s ∧ claimed s = true) ∧
   merge_files_turn t files st
   = (Ok (Thread (arg t) (S (next_file t)) false, files), st)) ∨
  (exited t = false ∧
   ∃ file, files !! next_file t = Some (Entry file) ∧
     pgFile.lock file = false ∧
     match merge_one_file (arg t) (pgFile.set_lock true file) st with
     | (Ok file', st') =>
         merge_files_turn t files st
         = (Ok (Thread (arg t) (S (next_file t)) false,
                <[next_file t := Entry file']> files), st')
     | (Err e, st') =>
         if elog_error e then
           ∃ s, claimed s = true ∧
             merge_files_turn t files st
             = (Ok (Thread (arg t) (next_file t) true,
                    <[next_file t := s]> files), st')
         else merge_files_turn t files st = (Err e, st')
     end).
Proof.
  unfold merge_files_turn. destruct (exited t) eqn:Hex; [left; auto|].
  right. destruct (files !! next_file t) as [[file|]|] eqn:Hfile.
  - destruct (pgFile.lock file) eqn:Hlock.
    + right. left. split; [reflexivity|]. split; [|reflexivity].
      exists (Entry file). auto.
    + right. right. split; [reflexivity|]. exists file.
      split; [reflexivity|]. split; [exact Hlock|]. cbv zeta.
      destruct (merge_one_file _ _ st) as [[file'|e] st'].
      * rewrite list_insert_insert_eq. reflexivity.
      * destruct e as [msg| | |]; cbn [elog_error]; try reflexivity.
        -- destruct msg; cbv beta iota zeta;
             rewrite ?list_insert_insert_eq;
             solve [eexists; split; [|reflexivity]; reflexivity].
        -- cbv beta iota zeta. rewrite list_insert_insert_eq.
           eexists. split; [|reflexivity]. reflexivity.
  - right. left. split; [reflexivity|]. split; [|reflexivity].
    exists Abandoned. auto.
  - left. auto.
Qed.

Lemma run_to_end_exited {W} `{Collaborators W} fuel t files (st : mstate W) :
  exited t = true → run_to_end fuel t files st = (Ok (t, files), st).
Proof. intros E. destruct fuel; simpl; [|rewrite E]; reflexivity. Qed.

Lemma run_schedule_exited {W} `{Collaborators W} sched :
  ∀ threads files (st : mstate W) k t threads' files' st',
    threads !! k = Some t → exited t = true →
    run_schedule sched threads files st = (Ok (threads', files'), st') →
    threads' !! k = Some t.
Proof.
  induction sched as [|k0 sched IH]; intros threads files st k t threads'
    files' st' Hk Hex Hrun; simpl in Hrun.
  - injection Hrun as <- _ _. exact Hk.
  - destruct (threads !! k0) as [t0|] eqn:Hk0; [|eauto].
    apply bind_Ok_inv in Hrun as ([t0' files0] & st0 & Hturn & Hrun).
    eapply IH; [|exact Hex|exact Hrun].
    destruct (decide (k0 = k)) as [->|Hne].
    + rewrite Hk in Hk0. injection Hk0 as <-.
      rewrite (merge_files_turn_exited _ _ _ Hex) in Hturn.
      injection Hturn as <- _ _.
      apply list_lookup_insert_eq. eapply lookup_lt_Some; eauto.
    + rewrite list_lookup_insert_ne; auto.
Qed.

Lemma join_from_exited {W} `{Collaborators W} n :
  ∀ k0 threads files (st : mstate W) k t threads' files' st',
    threads !! k = Some t → exited t = true →
    join_from k0 n threads files st = (Ok (threads', files'), st') →
    threads' !! k = Some t.
Proof.
  induction n as [|n IH]; intros k0 threads files st k t threads' files' st'
    Hk Hex Hrun; cbn [join_from] in Hrun.
  - injection Hrun as <- _ _. exact Hk.
  - destruct (threads !! k0) as [t0|] eqn:Hk0.
    + apply bind_Ok_inv in Hrun as ([t0' files0] & st0 & Hend & Hrun).
      eapply IH; [|exact Hex|exact Hrun].
      destruct (decide (k0 = k)) as [->|Hne].
      * rewrite Hk in Hk0. injection Hk0 as <-.
        rewrite (run_to_end_exited _ _ _ _ Hex) in Hend.
        injection Hend as <- _ _.
        apply list_lookup_insert_eq. eapply lookup_lt_Some; eauto.
      * rewrite list_lookup_insert_ne; auto.
    + injection Hrun as <- _ _. exact Hk.
Qed.

Lemma run_threads_exited {W} `{Collaborators W} threads files (st : mstate W)
    k t threads' files' st' :
  threads !! k = Some t → exited t = true →
  run_threads threads files st = (Ok (threads', files'), st') →
  threads' !! k = Some t.
Proof.
  intros Hk Hex Hrun. unfold run_threads in Hrun.
  apply bind_Ok_inv in Hrun as ([threads1 files1] & st1 & Hsched & Hjoin).
  eapply join_from_exited; [|exact Hex|exact Hjoin].
  eapply run_schedule_exited; eauto.
Qed.

Lemma merge_isok_false threads k t :
  threads !! k = Some t → ret (arg t) = 1 → merge_isok threads = false.
Proof.
  intros Hk Hret. unfold merge_isok.
  apply not_true_iff_false. intros Hall.
  rewrite forallb_forall in Hall.
  assert (Hin : In t threads).
  { apply list_elem_of_In. eapply list_elem_of_lookup_2; eauto. }
  specialize (Hall t Hin). rewrite Hret in Hall. discriminate.
Qed.

(** *** Every worker is joined: with the fuel given at the join, a worker
    has exited when [run_to_end] comes back. *)

Lemma merge_files_turn_progress {W} `{Collaborators W} t files (st : mstate W)
    t' files' st' :
  exited t = false →
  merge_files_turn t files st = (Ok (t', files'), st') →
  length files' = length files ∧
  (exited t' = true ∨
   (exited t' = false ∧ next_file t' = S (next_file t) ∧
    (next_file t < length files)%nat)).
Proof.
  intros Hex Hturn.
  destruct (merge_files_turn_cases t files st)
    as [[Hex' _]|[(_ & Hnone & Hrun)|[(_ & (s & Hs & _) & Hrun)
        |(_ & file & Hfile & _ & Hrun)]]].
  - congruence.
  - rewrite Hrun in Hturn. injection Hturn as <- <- _. auto.
  - rewrite Hrun in Hturn. injection Hturn as <- <- _.
    apply lookup_lt_Some in Hs. auto.
  - pose proof (lookup_lt_Some _ _ _ Hfile) as Hlt.
    destruct (merge_one_file _ _ st) as [[file'|e] st1].
    + rewrite Hrun in Hturn. injection Hturn as <- <- _.
      rewrite length_insert. auto.
    + destruct (elog_error e).
      * destruct Hrun as (s & _ & Hrun). rewrite Hrun in Hturn.
        injection Hturn as <- <- _. rewrite length_insert. auto.
      * rewrite Hrun in Hturn. discriminate.
Qed.

Lemma run_to_end_exits {W} `{Collaborators W} fuel :
  ∀ t files (st : mstate W) t' files' st',
    (length files - next_file t < fuel)%nat →
    run_to_end fuel t files st = (Ok (t', files'), st') →
    exited t' = true.
Proof.
  induction fuel as [|fuel IH]; intros t files st t' files' st' Hfuel Hrun;
    [lia|].
  cbn [run_to_end] in Hrun. destruct (exited t) eqn:Hex.
  - injection Hrun as <- _ _. exact Hex.
  - apply bind_Ok_inv in Hrun as ([t1 files1] & st1 & Hturn & Hrun).
    destruct (merge_files_turn_progress _ _ _ _ _ _ Hex Hturn)
      as [Hlen [Hdone|(Hex1 & Hnext & Hlt)]].
    + rewrite (run_to_end_exited _ _ _ _ Hdone) in Hrun.
      injection Hrun as <- _ _. exact Hdone.
    + eapply IH; [|exact Hrun]. lia.
Qed.

Lemma join_from_all_exited {W} `{Collaborators W} n :
  ∀ k threads files (st : mstate W) threads' files' st',
    (∀ j t, (j < k)%nat → threads !! j = Some t → exited t = true) →
    (length threads ≤ k + n)%nat →
    join_from k n threads files st = (Ok (threads', files'), st') →
    Forall (λ t, exited t = true) threads'.
Proof.
  induction n as [|n IH]; intros k threads files st threads' files' st'
    Hbefore Hlen Hrun; cbn [join_from] in Hrun.
  - injection Hrun as <- _ _. apply Forall_lookup. intros j t Hj.
    apply (Hbefore j t); [|exact Hj]. apply lookup_lt_Some in Hj. lia.
  - destruct (threads !! k) as [t|] eqn:Hk.
    + apply bind_Ok_inv in Hrun as ([t1 files1] & st1 & Hend & Hrun).
      eapply IH; [| |exact Hrun].
      * intros j t2 Hj Hlookup. destruct (decide (j = k)) as [->|Hne].
        -- rewrite list_lookup_insert_eq in Hlookup
             by (eapply lookup_lt_Some; eauto).
           injection Hlookup as <-.
           eapply run_to_end_exits; [|exact Hend]. lia.
        -- rewrite list_lookup_insert_ne in Hlookup by auto.
           apply (Hbefore j t2); [lia|exact Hlookup].
      * rewrite length_insert. lia.
    + injection Hrun as <- _ _. apply Forall_lookup. intros j t Hj.
      apply (Hbefore j t); [|exact Hj].
      apply lookup_ge_None in Hk. apply lookup_lt_Some in Hj. lia.
Qed.

Lemma run_threads_all_exited {W} `{Collaborators W} threads files
    (st : mstate W) threads' files' st' :
  run_threads threads files st = (Ok (threads', files'), st') →
  Forall (λ t, exited t = true) threads'.
Proof.
  intros Hrun. unfold run_threads in Hrun.
  apply bind_Ok_inv in Hrun as ([threads1 files1] & st1 & _ & Hjoin).
  eapply join_from_all_exited; [| |exact Hjoin]; [intros; lia | lia].
Qed.

(** *** The run of the workers is a sequence of turns *)

Lemma run_schedule_app {W} `{Collaborators W} ks1 :
  ∀ ks2 threads files (st : mstate W),
    run_schedule (ks1 ++ ks2) threads files st
    = match run_schedule ks1 threads files st with
      | (Ok (threads1, files1), st1) => run_schedule ks2 threads1 files1 st1
      | (Err e, st1) => (Err e, st1)
      end.
Proof.
  induction ks1 as [|k ks1 IH]; intros ks2 threads files st;
    cbn [app run_schedule]; [reflexivity|].
  destruct (threads !! k) as [t|]; [|apply IH].
  rewrite !bind_run.
  destruct (merge_files_turn t files st) as [[[t1 files1]|e] st1];
    [apply IH | reflexivity].
Qed.

Lemma run_to_end_turns {W} `{Collaborators W} fuel :
  ∀ k threads t files (st : mstate W) t' files' st',
    threads !! k = Some t →
    run_to_end fuel t files st = (Ok (t', files'), st') →
    ∃ ks, run_schedule ks threads files st
          = (Ok (<[k := t']> threads, files'), st').
Proof.
  induction fuel as [|fuel IH]; intros k threads t files st t' files' st'
    Hk Hrun; cbn [run_to_end] in Hrun.
  - injection Hrun as <- <- <-. exists []. cbn.
    rewrite list_insert_id by exact Hk. reflexivity.
  - destruct (exited t).
    + injection Hrun as <- <- <-. exists []. cbn.
      rewrite list_insert_id by exact Hk. reflexivity.
    + apply bind_Ok_inv in Hrun as ([t1 files1] & st1 & Hturn & Hrun).
      destruct (IH k (<[k := t1]> threads) t1 files1 st1 t' files' st')
        as (ks & Hks); [|exact Hrun|].
      { apply list_lookup_insert_eq. eapply lookup_lt_Some; eauto. }
      exists (k :: ks). cbn [run_schedule]. rewrite Hk.
      rewrite (bind_Ok _ _ _ _ _ Hturn), Hks, list_insert_insert_eq.
      reflexivity.
Qed.

Lemma join_from_turns {W} `{Collaborators W} n :
  ∀ k threads files (st : mstate W) out st',
    join_from k n threads files st = (Ok out, st') →
    ∃ ks, run_schedule ks threads files st = (Ok out, st').
Proof.
  induction n as [|n IH]; intros k threads files st out st' Hrun;
    cbn [join_from] in Hrun.
  - injection Hrun as <- <-. exists []. reflexivity.
  - destruct (threads !! k) as [t|] eqn:Hk;
      [|injection Hrun as <- <-; exists []; reflexivity].
    apply bind_Ok_inv in Hrun as ([t1 files1] & st1 & Hend & Hrun).
    destruct (run_to_end_turns _ _ _ _ _ _ _ _ _ Hk Hend) as (ks1 & Hks1).
    destruct (IH _ _ _ _ _ _ Hrun) as (ks2 & Hks2).
    exists (ks1 ++ ks2). rewrite run_schedule_app, Hks1. exact Hks2.
Qed.

Lemma run_threads_turns {W} `{Collaborators W} threads files (st : mstate W)
    out st' :
  run_threads threads files st = (Ok out, st') →
  ∃ ks, run_schedule ks threads files st = (Ok out, st').
Proof.
  intros Hrun. unfold run_threads in Hrun.
  apply bind_Ok_inv in Hrun as ([threads1 files1] & st1 & Hsched & Hjoin).
  destruct (join_from_turns _ _ _ _ _ _ _ Hjoin) as (ks2 & Hks2).
  exists (schedule (world st) ++ ks2).
  rewrite run_schedule_app, Hsched. exact Hks2.
Qed.

(** C9, as stated, fails: the worker whose copy of the first file fails has
    exited; it does not go on to the second file. *)
Lemma failing_worker_does_not_go_on :
  ¬ worker_goes_on_after_failure FailingWorker.worker
      (Entry <$> FailingWorker.files) (Sim.start FailingWorker.world).
Proof.
  intros Hclaim.
  edestruct Hclaim as (t' & files' & Hturn & Hret & Hex);
    [reflexivity | reflexivity | reflexivity | vm_compute; reflexivity
    | reflexivity |].
  vm_compute in Hturn. injection Hturn as <- _.
  discriminate.
Qed.

(** The same worker run to its end: its flag is still 1, and the second
    file was neither claimed nor copied. *)
Lemma failing_worker_leaves_files_unclaimed :
  ∃ t' files' st',
    run_to_end 3 FailingWorker.worker (Entry <$> FailingWorker.files)
      (Sim.start FailingWorker.world) = (Ok (t', files'), st') ∧
    exited t' = true ∧ ret (arg t') = 1 ∧
    claimed <$> files' = [true; false] ∧
    copies (trace st') =
      [(pgBackupGetPath 20 (Some DATABASE_DIR),
        pgBackupGetPath 10 (Some DATABASE_DIR), "postgresql.conf")].
Proof. eexists _, _, _. vm_compute. repeat split; reflexivity. Qed.

(** C9 (amended): when the action on the entry a worker has just claimed
    fails through elog(ERROR), in merge.c or in a callee, the worker stops
    there: it exits with its failure flag as it was set before the thread
    was started (1), the entry stays claimed and no other entry is
    changed, and the worker takes no further turn that does anything.
    The workers' run being a sequence of turns, if that failing turn is
    one of the turns of the run of a pair merge, then, whatever the turns
    before and after it, the join ends with "Data files merging
    failed". *)
Theorem worker_failure_fails_pair_merge {W} `{Collaborators W}
    (t : thread) (files : list slot) (st : mstate W)
    (file : pgFile) (e : error) (st' : mstate W) :
  exited t = false →
  files !! next_file t = Some (Entry file) →
  pgFile.lock file = false →
  merge_one_file (arg t) (pgFile.set_lock true file) st = (Err e, st') →
  elog_error e = true →
  ret (arg t) = 1 →
  let t' := Thread (arg t) (next_file t) true in
  (∃ s, claimed s = true ∧
        merge_files_turn t files st
        = (Ok (t', <[next_file t := s]> files), st')) ∧
  (∀ files2 st2, merge_files_turn t' files2 st2 = (Ok (t', files2), st2)) ∧
  (∀ threads0 files0 st0 out st3,
     run_threads threads0 (Entry <$> files0) st0 = (Ok out, st3) →
     ∃ ks, run_schedule ks threads0 (Entry <$> files0) st0 = (Ok out, st3)) ∧
  (∀ threads0 files0 st0 ks k ks' threads1 out st3,
     run_schedule ks threads0 (Entry <$> files0) st0
     = (Ok (threads1, files), st) →
     threads1 !! k = Some t →
     run_schedule (ks ++ k :: ks') threads0 (Entry <$> files0) st0
     = (Ok out, st3) →
     run_threads threads0 (Entry <$> files0) st0 = (Ok out, st3) →
     start_and_wait_threads threads0 files0 st0
     = (Err (ERROR ErrDataFilesMergingFailed), st3)).
Proof.
  intros Hex Hfile Hlock Hrun Helog Hret t'.
  assert (Hturn : ∃ s, claimed s = true ∧
            merge_files_turn t files st
            = (Ok (t', <[next_file t := s]> files), st')).
  { destruct (merge_files_turn_cases t files st)
      as [[Hex' _]|[(_ & Hnone & _)|[(_ & (s & Hs & Hc) & _)
          |(_ & file0 & Hfile0 & _ & Hcase)]]]; try congruence.
    - rewrite Hfile in Hs. injection Hs as <-. cbn in Hc. congruence.
    - rewrite Hfile in Hfile0. injection Hfile0 as <-.
      rewrite Hrun, Helog in Hcase. exact Hcase. }
  split; [exact Hturn|]. split; [|split].
  - intros files2 st2. apply merge_files_turn_exited. reflexivity.
  - intros threads0 files0 st0 out st3. apply run_threads_turns.
  - intros threads0 files0 st0 ks k ks' threads1 [threads' files'] st3
      Hks Hk Hall Hthreads.
    destruct Hturn as (s & _ & Hturn).
    rewrite run_schedule_app, Hks in Hall. cbn [run_schedule] in Hall.
    rewrite Hk, (bind_Ok _ _ _ _ _ Hturn) in Hall.
    assert (Hk' : threads' !! k = Some t').
    { eapply run_schedule_exited; [|reflexivity|exact Hall].
      apply list_lookup_insert_eq. eapply lookup_lt_Some; eauto. }
    unfold start_and_wait_threads. rewrite (bind_Ok _ _ _ _ _ Hthreads).
    rewrite (merge_isok_false _ _ _ Hk' Hret). reflexivity.
Qed.

Lemma worker_failure_fails_pair_merge_witness :
  (∃ s, claimed s = true ∧
        merge_files_turn FailingWorker.worker (Entry <$> FailingWorker.files)
          (Sim.start FailingWorker.world)
        = (Ok (Thread FailingWorker.argument 0 true,
               <[0%nat := s]> (Entry <$> FailingWorker.files)),
           (merge_files_turn FailingWorker.worker
              (Entry <$> FailingWorker.files)
              (Sim.start FailingWorker.world)).2)) ∧
  start_and_wait_threads [FailingWorker.worker] FailingWorker.files
    (Sim.start FailingWorker.world)
  = (Err (ERROR ErrDataFilesMergingFailed),
     (merge_files_turn FailingWorker.worker (Entry <$> FailingWorker.files)
        (Sim.start FailingWorker.world)).2).
Proof.
  edestruct (worker_failure_fails_pair_merge FailingWorker.worker
               (Entry <$> FailingWorker.files)
               (Sim.start FailingWorker.world))
    as (Hturn & _ & _ & Hjoin);
    [reflexivity | reflexivity | reflexivity | vm_compute; reflexivity
    | reflexivity | reflexivity |].
  split; [exact Hturn|].
  eapply (Hjoin [FailingWorker.worker] FailingWorker.files
            (Sim.start FailingWorker.world) [] 0%nat []);
    [reflexivity | reflexivity | vm_compute; reflexivity
    | vm_compute; reflexivity].
Defined.

(** ** Sizes *)

Lemma int64_small z : - 2 ^ 63 ≤ z < 2 ^ 63 → int64 z = z.
Proof. intros Hz. unfold int64. rewrite Z.mod_small; lia. Qed.

Lemma uint64_small z : 0 ≤ z < 2 ^ 64 → uint64 z = z.
Proof. intros Hz. unfold uint64. apply Z.mod_small. lia. Qed.

Lemma int64_add_l a b : int64 (int64 a + b) = int64 (a + b).
Proof.
  unfold int64. f_equal.
  replace ((a + 2 ^ 63) `mod` 2 ^ 64 - 2 ^ 63 + b + 2 ^ 63)
    with ((a + 2 ^ 63) `mod` 2 ^ 64 + b) by lia.
  rewrite Zplus_mod_idemp_l. f_equal. lia.
Qed.

Lemma int64_range z : - 2 ^ 63 ≤ int64 z < 2 ^ 63.
Proof.
  unfold int64. pose proof (Z.mod_pos_bound (z + 2 ^ 63) (2 ^ 64)). lia.
Qed.

Lemma int64_idem z : int64 (int64 z) = int64 z.
Proof. apply int64_small, int64_range. Qed.

(** The loop adds up modulo 2^64 ... *)
Lemma sum_data_bytes_wraps files :
  ∀ acc, int64 (sum_data_bytes files acc) = int64 (acc + data_bytes_sum files).
Proof.
  induction files as [|file files IH]; intros acc; simpl.
  - f_equal; lia.
  - rewrite IH. destruct (S_ISDIR _); [|destruct (S_ISREG _)].
    + rewrite int64_add_l. f_equal; lia.
    + rewrite int64_add_l. f_equal; lia.
    + f_equal; lia.
Qed.

(** ... and stays an int64. *)
Lemma sum_data_bytes_range files :
  ∀ acc, - 2 ^ 63 ≤ acc < 2 ^ 63 →
         - 2 ^ 63 ≤ sum_data_bytes files acc < 2 ^ 63.
Proof.
  induction files as [|file files IH]; intros acc Hacc; simpl; [exact Hacc|].
  apply IH. destruct (S_ISDIR _); [|destruct (S_ISREG _)];
    auto using int64_range.
Qed.

Lemma sum_data_bytes_exact files :
  - 2 ^ 63 ≤ data_bytes_sum files < 2 ^ 63 →
  sum_data_bytes files 0 = data_bytes_sum files.
Proof.
  intros Hsum.
  rewrite <- (int64_small (sum_data_bytes files 0))
    by (apply sum_data_bytes_range; lia).
  rewrite sum_data_bytes_wraps. apply int64_small. lia.
Qed.

Lemma wal_bytes_of_exact seg start_lsn stop_lsn :
  0 < seg →
  0 ≤ start_lsn ≤ stop_lsn →
  seg * (stop_lsn / seg - start_lsn / seg + 1) < 2 ^ 63 →
  wal_bytes_of seg start_lsn stop_lsn
  = seg * (stop_lsn / seg - start_lsn / seg + 1).
Proof.
  intros Hseg Hlsn Hbound. unfold wal_bytes_of.
  assert (Hq : start_lsn / seg ≤ stop_lsn / seg)
    by (apply Z.div_le_mono; lia).
  assert (H0 : 0 ≤ start_lsn / seg) by (apply Z.div_pos; lia).
  set (k := stop_lsn / seg - start_lsn / seg) in *.
  assert (Hk : k + 1 ≤ seg * (k + 1)) by nia.
  rewrite (uint64_small k) by lia.
  rewrite (uint64_small (k + 1)) by lia.
  rewrite uint64_small by nia.
  apply int64_small. nia.
Qed.



(** ** The resume path *)

(** C7: [do_merge] accepts the destination 20 in status DELETING and passes
    it to [merge_backups] as the source.  The assertion that the source is
    OK or MERGING comes before the test for DELETING: a build with assertion
    checking stops there, and a build without it validates the source while
    it is DELETING before it goes to the deletion. *)
Theorem deleting_source_is_validated :
  (do_merge Input.debug 20 (Sim.start Resume.world)).1 = Err AssertionFailure ∧
  (merge_backups Input.debug Resume.to_backup Resume.from_backup
     (Sim.start Resume.world)).1 = Err AssertionFailure ∧
  validations
    (trace (merge_backups Input.release Resume.to_backup Resume.from_backup
              (Sim.start Resume.world)).2)
  = [(10, BACKUP_STATUS_OK); (20, BACKUP_STATUS_DELETING)].
Proof. vm_compute. repeat split; reflexivity. Qed.

(** C10: on the resume path [to_extra] is still NULL when the loop that
    deletes stale files tests the entry "conf/app.conf", whose extra
    directory number is 1: the lookup reads a NULL list. *)
Theorem resume_reads_null_extra_list :
  (do_merge Input.release 20 (Sim.start Resume.world)).1
  = Err (Crashed NullDereference) ∧
  (merge_backups Input.release Resume.to_backup Resume.from_backup
     (Sim.start Resume.world)).1 = Err (Crashed NullDereference).
Proof. vm_compute. split; reflexivity. Qed.

(** ** The reconciler *)

(** C3: with the two directories listed in opposite orders the first rename
    aims at container 2, which still holds "/b": the rename fails and the
    reconciler stops with "Could not rename directory"; had "/b" been empty,
    the renames would go through and leave the files of "/a" in container 1,
    the number of "/b" in the source backup. *)
Theorem swapped_extra_dirs_collide :
  ¬ rename_targets_free SwappedDirs.to_extra SwappedDirs.from_extra ∧
  (reorder_extra_dirs SwappedDirs.to_backup SwappedDirs.to_extra
     SwappedDirs.from_extra (Sim.start SwappedDirs.world)).1
  = Err (ERROR (ErrRenameDirectory (SwappedDirs.container 1)
                  (SwappedDirs.container 2))) ∧
  (let out := reorder_extra_dirs SwappedDirs.to_backup SwappedDirs.to_extra
                SwappedDirs.from_extra (Sim.start SwappedDirs.world_empty_b) in
   out.1 = Ok tt ∧
   Sim.dirs (world out.2)
   = [(SwappedDirs.container 1, [SwappedDirs.file_a])]).
Proof.
  split.
  - intros Hfree.
    apply (Hfree 0%nat "/a" eq_refl); vm_compute; [discriminate..|].
    split; [reflexivity | discriminate].
  - vm_compute. repeat split; reflexivity.
Qed.

(** ** The chain *)

Lemma siblings_chain b :
  on_chain Siblings.catalog Siblings.dest b →
  b = Siblings.dest ∨ b = Siblings.full.
Proof.
  induction 1 as [|b p _ IH Hp Hpar]; [left; reflexivity|].
  right. apply elem_of_cons in Hp as [->|Hp];
    [destruct IH as [->| ->]; discriminate|].
  apply elem_of_cons in Hp as [->|Hp];
    [destruct IH as [->| ->]; discriminate|].
  apply list_elem_of_singleton in Hp. exact Hp.
Qed.

(** C1: the destination 30 is at index 0 and its FULL ancestor 10 at index
    2; the loop runs 2 - 0 times and passes the backups at indexes 1 and 0.
    The backup at index 1 is the failed backup 20, which is not on the
    parent chain 30 -> 10: it is merged into the FULL backup all the same,
    and with assertion checking the pair merge stops on its status. *)
Theorem do_merge_merges_backup_outside_chain :
  find_dest_and_full 30 Siblings.catalog 0 scan_init
  = Ok (Scan (Some Siblings.dest) 0 (Some Siblings.full) 2 10) ∧
  parent_chain 3 Siblings.catalog Siblings.dest = [30; 10] ∧
  ¬ on_chain Siblings.catalog Siblings.dest Siblings.failed ∧
  (let out := do_merge Input.release 30 (Sim.start Siblings.world) in
   out.1 = Ok tt ∧ pair_merges (trace out.2) = [(10, 20); (20, 30)]) ∧
  (do_merge Input.debug 30 (Sim.start Siblings.world)).1
  = Err AssertionFailure.
Proof.
  split; [reflexivity|]. split; [reflexivity|]. split.
  - intros Hchain. apply siblings_chain in Hchain as [Heq|Heq]; discriminate.
  - vm_compute. repeat split; reflexivity.
Qed.

(** ** The scan of the catalog *)

Lemma scan_inv_next backup_id backups i s :
  scan_inv backup_id backups i s → scan_inv backup_id backups (S i) s.
Proof.
  intros [Hfull Hdest]. split; [exact Hfull|].
  destruct (dest_backup s); [|exact I].
  destruct Hdest as (? & ? & ? & ?). repeat split; auto with lia.
Qed.

(** No backup has the requested ID: the scan finds no destination. *)
Lemma scan_no_match backup_id rest :
  ∀ i s,
    (∀ b, b ∈ rest → pgBackup.start_time b ≠ backup_id) →
    dest_backup s = None →
    match find_dest_and_full backup_id rest i s with
    | Ok s' => dest_backup s' = None
    | Err e => e = ERROR (ErrTargetNotFound backup_id)
    end.
Proof.
  induction rest as [|backup rest IH]; intros i s Hne Hdest; simpl.
  - exact Hdest.
  - assert (Hrest : ∀ b, b ∈ rest → pgBackup.start_time b ≠ backup_id)
      by (intros b Hb; apply Hne; right; exact Hb).
    destruct (pgBackup.start_time backup >? backup_id);
      [apply IH; assumption|].
    assert (Hb : pgBackup.start_time backup ≠ backup_id)
      by (apply Hne; left).
    apply Z.eqb_neq in Hb. rewrite Hb, Hdest. reflexivity.
Qed.

Lemma dest_status_accepted (s : BackupStatus) :
  s = BACKUP_STATUS_OK ∨ s = BACKUP_STATUS_MERGING ∨ s = BACKUP_STATUS_DELETING →
  negb (bool_decide (s = BACKUP_STATUS_OK))
  && negb (bool_decide (s = BACKUP_STATUS_MERGING))
  && negb (bool_decide (s = BACKUP_STATUS_DELETING)) = false.
Proof. intros [->|[->| ->]]; reflexivity. Qed.

Lemma parent_status_accepted (s : BackupStatus) :
  s = BACKUP_STATUS_OK ∨ s = BACKUP_STATUS_MERGING →
  negb (bool_decide (s = BACKUP_STATUS_OK))
  && negb (bool_decide (s = BACKUP_STATUS_MERGING)) = false.
Proof. intros [->| ->]; reflexivity. Qed.

(** No backup with the requested ID has a FULL ancestor: the scan ends
    without a FULL backup, or on "Target backup was not found". *)
Lemma scan_without_full backup_id backups :
  chain_accepted backup_id backups →
  (∀ d, d ∈ backups → pgBackup.start_time d = backup_id →
        ¬ has_full_ancestor backups d) →
  ∀ rest i s,
    (∀ b, b ∈ rest → b ∈ backups) →
    scan_inv backup_id backups i s →
    match find_dest_and_full backup_id rest i s with
    | Ok s' => full_backup s' = None
    | Err e => e = ERROR (ErrTargetNotFound backup_id)
    end.
Proof.
  intros [Hadm_dest Hadm_chain] Hnofull.
  induction rest as [|backup rest IH]; intros i s Hsub Hinv; simpl.
  - apply Hinv.
  - assert (Hrest : ∀ b, b ∈ rest → b ∈ backups)
      by (intros b Hb; apply Hsub; right; exact Hb).
    assert (Hin : backup ∈ backups) by (apply Hsub; left).
    destruct (pgBackup.start_time backup >? backup_id);
      [apply IH; auto using scan_inv_next|].
    destruct Hinv as [Hfull Hdest].
    destruct ((pgBackup.start_time backup =? backup_id)
              && bool_decide (dest_backup s = None)) eqn:Hcond.
    + (* the destination *)
      apply andb_true_iff in Hcond as [Hid Hnone].
      apply Z.eqb_eq in Hid.
      destruct (Hadm_dest backup Hin Hid) as [Hstatus Hmode].
      rewrite (dest_status_accepted _ Hstatus).
      rewrite (bool_decide_eq_false_2 _ Hmode).
      apply IH; [exact Hrest|]. split; [exact Hfull|]. cbn.
      repeat split; auto with lia.
      exists backup. split; [constructor | reflexivity].
    + (* a backup after it *)
      clear Hcond.
      destruct (dest_backup s) as [d|] eqn:Hd; [|reflexivity].
      destruct Hdest as (Hdin & Hdid & Hidx & b & Hchain & Hprev).
      destruct (Z.eqb_spec (pgBackup.start_time backup) (prev_parent s))
        as [Hpar|Hpar]; cbn [negb].
      * rewrite Hprev in Hpar.
        rewrite (parent_status_accepted _
                   (Hadm_chain d b backup Hdin Hdid Hchain Hin Hpar)).
        case_bool_decide as Hmode.
        -- exfalso. apply (Hnofull d Hdin Hdid).
           exists b, backup. repeat split; assumption.
        -- apply IH; [exact Hrest|]. split; [exact Hfull|]. cbn.
           try rewrite Hd. repeat split; auto with lia.
           exists backup. split; [econstructor; eauto | reflexivity].
      * apply IH; [exact Hrest|]. apply scan_inv_next.
        split; [exact Hfull|]. rewrite Hd. eauto 10.
Qed.

(** When the scan finds a FULL backup it has found the destination before
    it: the two indexes differ. *)
Lemma scan_found_after_dest backup_id rest :
  ∀ i s s',
    match dest_backup s with
    | Some _ => (dest_backup_idx s < i)%nat
    | None => True
    end →
    full_backup s = None →
    find_dest_and_full backup_id rest i s = Ok s' →
    full_backup s' ≠ None →
    dest_backup s' ≠ None ∧ (dest_backup_idx s' < full_backup_idx s')%nat.
Proof.
  induction rest as [|backup rest IH]; intros i s s' Hidx Hfull Hscan Hfound;
    simpl in Hscan.
  - injection Hscan as <-. congruence.
  - assert (Hnext : match dest_backup s with
                    | Some _ => (dest_backup_idx s < S i)%nat
                    | None => True
                    end) by (destruct (dest_backup s); auto with lia).
    destruct (pgBackup.start_time backup >? backup_id);
      [solve [eapply IH; [| |exact Hscan|exact Hfound]; auto]|].
    destruct ((pgBackup.start_time backup =? backup_id)
              && bool_decide (dest_backup s = None)).
    + destruct (negb _ && negb _ && negb _); [discriminate|].
      destruct (bool_decide _); [discriminate|].
      eapply IH; [| |exact Hscan|exact Hfound]; cbn; auto with lia.
    + destruct (dest_backup s) as [d|] eqn:Hd; [|discriminate].
      destruct (negb (pgBackup.start_time backup =? prev_parent s));
        [solve [eapply IH; [| |exact Hscan|exact Hfound];
                try rewrite Hd; auto]|].
      destruct (negb _ && negb _); [discriminate|].
      destruct (bool_decide _).
      * injection Hscan as <-. cbn. try rewrite Hd.
        split; [discriminate|exact Hidx].
      * eapply IH; [| |exact Hscan|exact Hfound]; cbn; try rewrite Hd; auto.
Qed.

(** ** do_merge *)

Lemma do_merge_run {W} `{Collaborators W} g backup_id name (st : mstate W)
    backups st1 :
  backup_id ≠ INVALID_BACKUP_ID →
  instance_name g = Some name →
  open_catalog st = (Ok backups, st1) →
  do_merge g backup_id st = merge_catalog g backup_id backups st1.
Proof.
  intros Hid Hname Hopen. unfold do_merge.
  apply Z.eqb_neq in Hid. rewrite Hid, Hname.
  unfold open_catalog in Hopen.
  apply bind_Ok_inv in Hopen as ([] & st2 & Hlog & Hopen).
  apply bind_Ok_inv in Hopen as ([] & st3 & Hlock & Hopen).
  rewrite (bind_Ok _ _ _ _ _ Hlog), (bind_Ok _ _ _ _ _ Hlock).
  rewrite (bind_Ok _ _ _ _ _ Hopen). reflexivity.
Qed.

Lemma merge_catalog_no_match {W} `{Collaborators W} g backup_id backups
    (st : mstate W) :
  (∀ b, b ∈ backups → pgBackup.start_time b ≠ backup_id) →
  merge_catalog g backup_id backups st
  = (Err (ERROR (ErrTargetNotFound backup_id)), st).
Proof.
  intros Hne. unfold merge_catalog.
  pose proof (scan_no_match backup_id backups 0 scan_init Hne eq_refl) as Hscan.
  rewrite bind_run.
  destruct (find_dest_and_full _ _ _ _) as [s|e]; cbn.
  - rewrite Hscan. reflexivity.
  - rewrite Hscan. reflexivity.
Qed.

Lemma merge_catalog_no_full {W} `{Collaborators W} g backup_id backups
    (st : mstate W) :
  chain_accepted backup_id backups →
  (∀ d, d ∈ backups → pgBackup.start_time d = backup_id →
        ¬ has_full_ancestor backups d) →
  ∃ e, merge_catalog g backup_id backups st = (Err e, st) ∧
       not_found backup_id e.
Proof.
  intros Hadm Hnofull. unfold merge_catalog.
  pose proof (scan_without_full backup_id backups Hadm Hnofull backups 0
                scan_init (λ b Hb, Hb) (conj eq_refl I)) as Hscan.
  rewrite bind_run.
  destruct (find_dest_and_full _ _ _ _) as [s|e]; cbn.
  - rewrite Hscan. destruct (dest_backup s); eexists; split;
      try reflexivity; [right | left]; reflexivity.
  - eexists. split; [reflexivity|]. left. exact Hscan.
Qed.

Lemma merge_catalog_corrupt {W} `{Collaborators W} g backup_id backups
    (st : mstate W) s backups' st2 full w3 :
  find_dest_and_full backup_id backups 0 scan_init = Ok s →
  full_backup s ≠ None →
  merge_chain g (dest_backup_idx s) (full_backup_idx s) (full_backup_idx s)
    backups st = (Ok backups', st2) →
  backups' !! full_backup_idx s = Some full →
  respond _ (pgBackupValidate full) (world st2)
  = (Returned BACKUP_STATUS_CORRUPT, w3) →
  merge_catalog g backup_id backups st
  = (Err (ERROR (ErrMergingFailed backup_id)),
     MState w3 (trace st2
                ++ [Called (pgBackupValidate full)
                      (Returned BACKUP_STATUS_CORRUPT)])).
Proof.
  intros Hscan Hfull Hchain Hlookup Hvalidate. unfold merge_catalog.
  destruct (scan_found_after_dest backup_id backups 0 scan_init s I eq_refl
              Hscan Hfull) as [Hdest Hidx].
  rewrite bind_run, Hscan.
  change (lift_result (Ok s) st) with (Ok s, st). cbv beta iota.
  destruct (dest_backup s); [|congruence].
  destruct (full_backup s); [|congruence].
  replace (negb (full_backup_idx s =? dest_backup_idx s)%nat) with true
    by (symmetry; apply negb_true_iff, Nat.eqb_neq; lia).
  rewrite bind_run. change (Assert g true st) with (Ok tt, st). cbv beta iota.
  rewrite (bind_Ok _ _ _ _ _ Hchain), Hlookup.
  unfold validate. rewrite !bind_run, io_run, Hvalidate. reflexivity.
Qed.

(** C2, as stated, fails: the destination 30 has no FULL ancestor, its
    parent 20 being a backup that is DELETING and the catalog holding no
    FULL backup, yet [do_merge] does not end on a not-found error: the scan
    stops on the status of the parent with "Backup 20 has status:
    DELETING". *)
Lemma deleting_parent_is_not_reported_not_found :
  ¬ not_found_without_full_ancestor Input.release 30
      (Sim.start DeletingParent.world).
Proof.
  intros Hclaim.
  edestruct Hclaim as (e & Hrun & Hnf); [vm_compute; reflexivity| |].
  - intros d _ _ (b & p & _ & Hp & _ & Hmode).
    apply elem_of_cons in Hp as [->|Hp]; [discriminate|].
    apply list_elem_of_singleton in Hp as ->. discriminate.
  - vm_compute in Hrun. injection Hrun as <-.
    destruct Hnf as [Hnf|Hnf]; discriminate.
Qed.

(** C2 (amended): once the catalog is read, [do_merge] fails with "Target
    backup was not found" when no backup has the requested ID; it fails
    with one of the two not-found errors when no backup with the requested
    ID has a FULL ancestor (the parent chain is broken, or it ends without
    a FULL backup), provided the statuses and modes met on the way are
    accepted: the backups with the requested ID are OK, MERGING or DELETING
    and are not FULL, and every backup met on the chain is OK or MERGING;
    and when the scan and all the pair merges have succeeded it validates
    the full backup again and fails with "Merging of backup failed" if that
    validation reports CORRUPT. *)
Theorem do_merge_failures {W} `{Collaborators W} (g : globals)
    (backup_id : Z) (name : string) (st : mstate W)
    (backups : list pgBackup) (st1 : mstate W) :
  backup_id ≠ INVALID_BACKUP_ID →
  instance_name g = Some name →
  open_catalog st = (Ok backups, st1) →
  ((∀ b, b ∈ backups → pgBackup.start_time b ≠ backup_id) →
   do_merge g backup_id st = (Err (ERROR (ErrTargetNotFound backup_id)), st1))
  ∧
  (chain_accepted backup_id backups →
   (∀ d, d ∈ backups → pgBackup.start_time d = backup_id →
         ¬ has_full_ancestor backups d) →
   ∃ e, do_merge g backup_id st = (Err e, st1) ∧ not_found backup_id e)
  ∧
  (∀ s backups' st2 full w3,
     find_dest_and_full backup_id backups 0 scan_init = Ok s →
     full_backup s ≠ None →
     merge_chain g (dest_backup_idx s) (full_backup_idx s) (full_backup_idx s)
       backups st1 = (Ok backups', st2) →
     backups' !! full_backup_idx s = Some full →
     respond _ (pgBackupValidate full) (world st2)
     = (Returned BACKUP_STATUS_CORRUPT, w3) →
     do_merge g backup_id st
     = (Err (ERROR (ErrMergingFailed backup_id)),
        MState w3 (trace st2
                   ++ [Called (pgBackupValidate full)
                         (Returned BACKUP_STATUS_CORRUPT)]))).
Proof.
  intros Hid Hname Hopen.
  rewrite (do_merge_run g backup_id name st backups st1 Hid Hname Hopen).
  split; [|split].
  - apply merge_catalog_no_match.
  - apply merge_catalog_no_full.
  - intros s backups' st2 full w3. apply merge_catalog_corrupt.
Qed.

Lemma broken_chain_has_no_full_ancestor d :
  d ∈ BrokenChain.catalog → pgBackup.start_time d = 30 →
  ¬ has_full_ancestor BrokenChain.catalog d.
Proof.
  intros Hd Hid (b & p & Hchain & Hp & Hpar & _).
  assert (Hdest : d = BrokenChain.dest).
  { apply elem_of_cons in Hd as [->|Hd]; [reflexivity|].
    apply list_elem_of_singleton in Hd as ->. discriminate. }
  subst d.
  assert (Hb : b = BrokenChain.dest).
  { clear p Hp Hpar. induction Hchain as [|b p _ IH Hp Hpar]; [reflexivity|].
    subst b. apply elem_of_cons in Hp as [->|Hp]; [discriminate|].
    apply list_elem_of_singleton in Hp as ->. discriminate. }
  subst b.
  apply elem_of_cons in Hp as [->|Hp]; [discriminate|].
  apply list_elem_of_singleton in Hp as ->. discriminate.
Qed.

Lemma do_merge_failures_witness :
  (do_merge Input.release 25 (Sim.start Siblings.world)).1
  = Err (ERROR (ErrTargetNotFound 25)) ∧
  (∃ e, (do_merge Input.release 30 (Sim.start BrokenChain.world)).1 = Err e ∧
        not_found 30 e) ∧
  (do_merge Input.release 20 (Sim.start CorruptAtTheEnd.world)).1
  = Err (ERROR (ErrMergingFailed 20)).
Proof.
  split; [|split].
  - edestruct (do_merge_failures Input.release 25 "node"
                 (Sim.start Siblings.world)) as (Hnone & _ & _);
      [discriminate | reflexivity | vm_compute; reflexivity |].
    rewrite Hnone; [reflexivity|].
    apply Forall_forall. repeat constructor; discriminate.
  - edestruct (do_merge_failures Input.release 30 "node"
                 (Sim.start BrokenChain.world)) as (_ & Hbroken & _);
      [discriminate | reflexivity | vm_compute; reflexivity |].
    destruct Hbroken as (e & Hrun & Hnot_found).
    + split.
      * intros d Hd Hid.
        apply elem_of_cons in Hd as [->|Hd];
          [split; [left; reflexivity | discriminate]|].
        apply list_elem_of_singleton in Hd as ->. discriminate.
      * intros d b p Hd Hid _ Hp Hpar. left.
        apply elem_of_cons in Hp as [->|Hp]; [reflexivity|].
        apply list_elem_of_singleton in Hp as ->. reflexivity.
    + apply broken_chain_has_no_full_ancestor.
    + exists e. rewrite Hrun. split; [reflexivity | exact Hnot_found].
  - edestruct (do_merge_failures Input.release 20 "node"
                 (Sim.start CorruptAtTheEnd.world)) as (_ & _ & Hcorrupt);
      [discriminate | reflexivity | vm_compute; reflexivity |].
    erewrite Hcorrupt; [reflexivity | vm_compute; reflexivity | discriminate
                       | vm_compute; reflexivity | reflexivity
                       | vm_compute; reflexivity].
Defined.

(** ** What the functions add to the log *)

Lemma emits_ret {W A} P (a : A) : emits (W := W) P (mret a).
Proof. intros st. exists []. rewrite app_nil_r. split; [reflexivity|constructor]. Qed.

Lemma emits_raise {W A} P e : emits (W := W) (A := A) P (raise e).
Proof. intros st. exists []. rewrite app_nil_r. split; [reflexivity|constructor]. Qed.

Lemma emits_bind {W A B} P (m : M W A) (k : A → M W B) :
  emits P m → (∀ a, emits P (k a)) → emits P (m ≫= k).
Proof.
  intros Hm Hk st. rewrite bind_run.
  destruct (Hm st) as (evs1 & E1 & F1).
  destruct (m st) as [[a|e] st1]; [|exists evs1; auto].
  destruct (Hk a st1) as (evs2 & E2 & F2).
  exists (evs1 ++ evs2). split; [|apply Forall_app; auto].
  rewrite E2. cbn in E1. rewrite E1, app_assoc. reflexivity.
Qed.

Lemma emits_io {W} `{Collaborators W} {R} P (c : call R) :
  (∀ r, P (Called c r)) → emits P (io c).
Proof.
  intros HP st. rewrite io_run.
  destruct (respond R c (world st)) as [r w]. exists [Called c r].
  split; [destruct r; reflexivity | repeat constructor; apply HP].
Qed.

Lemma emits_run {W A} P (m : M W A) st r st' :
  emits P m → m st = (r, st') →
  ∃ evs, trace st' = (trace st ++ evs)%list ∧ Forall P evs.
Proof. intros Hm E. specialize (Hm st). rewrite E in Hm. exact Hm. Qed.

Ltac emits_step :=
  lazymatch goal with
  | |- emits _ (mret _) => apply emits_ret
  | |- emits _ (raise _) => apply emits_raise
  | |- emits _ (io _) => apply emits_io; intros; reflexivity
  | |- emits _ (_ ≫= _) => apply emits_bind; [|intros]
  | |- emits _ (if ?b then _ else _) => destruct b
  | |- emits _ (match ?x with _ => _ end) => destruct x
  | |- emits _ (let _ := _ in _) => cbv zeta
  end.

Ltac emits_all := repeat first [assumption | emits_step].

Section Quiet.
Context {W : Type} `{Collaborators W}.

Lemma emits_read_interrupted : emits (W := W) quiet read_interrupted.
Proof.
  intros st. exists []. rewrite app_nil_r. split; [reflexivity|constructor].
Qed.

Lemma emits_Assert g cond : emits (W := W) quiet (Assert g cond).
Proof. unfold Assert. emits_all. Qed.

Lemma emits_delete_listed files :
  emits (W := W) quiet (delete_listed files).
Proof. induction files; cbn [delete_listed]; emits_all. Qed.

Lemma emits_remove_dir_with_files path :
  emits (W := W) quiet (remove_dir_with_files path).
Proof.
  unfold remove_dir_with_files. emits_all. apply emits_delete_listed.
Qed.

Lemma emits_reorder_extra_dirs_from template rest from_extra :
  ∀ i, emits (W := W) quiet (reorder_extra_dirs_from template rest i from_extra).
Proof.
  induction rest; intros i; cbn [reorder_extra_dirs_from]; emits_all;
    auto using emits_remove_dir_with_files.
Qed.

Lemma emits_reorder_extra_dirs to_backup to_extra from_extra :
  emits (W := W) quiet (reorder_extra_dirs to_backup to_extra from_extra).
Proof. apply emits_reorder_extra_dirs_from. Qed.

Lemma emits_merge_one_file argument file :
  emits (W := W) quiet (merge_one_file argument file).
Proof.
  unfold merge_one_file, merge_data_file, merge_extra_file.
  emits_step; [apply emits_read_interrupted|intros].
  emits_all.
Qed.

(** A turn adds to the log what the action on the entry adds, or nothing. *)
Lemma merge_files_turn_log (P : event → Prop) t files (st : mstate W) :
  (∀ file, ∃ evs, trace (merge_one_file (arg t) file st).2 = trace st ++ evs ∧
                  Forall P evs) →
  ∃ evs, trace (merge_files_turn t files st).2 = trace st ++ evs ∧
         Forall P evs.
Proof.
  intros Hone.
  assert (Hnil : ∃ evs, trace st = (trace st ++ evs)%list ∧ Forall P evs)
    by (exists []; rewrite app_nil_r; split; [reflexivity|constructor]).
  destruct (merge_files_turn_cases t files st)
    as [[_ Hrun]|[(_ & _ & Hrun)|[(_ & _ & Hrun)
        |(_ & file & _ & _ & Hrun)]]]; try (rewrite Hrun; exact Hnil).
  specialize (Hone (pgFile.set_lock true file)).
  destruct (merge_one_file _ _ st) as [[file'|e] st'].
  - rewrite Hrun. exact Hone.
  - destruct (elog_error e).
    + destruct Hrun as (s & _ & Hrun). rewrite Hrun. exact Hone.
    + rewrite Hrun. exact Hone.
Qed.

Lemma emits_merge_files_turn t files :
  emits (W := W) quiet (merge_files_turn t files).
Proof.
  intros st. apply merge_files_turn_log. intros file.
  apply emits_merge_one_file.
Qed.

Lemma emits_run_schedule sched :
  ∀ threads files, emits (W := W) quiet (run_schedule sched threads files).
Proof.
  induction sched; intros threads files; cbn [run_schedule]; emits_all;
    auto using emits_merge_files_turn.
Qed.

Lemma emits_run_to_end fuel :
  ∀ t files, emits (W := W) quiet (run_to_end fuel t files).
Proof.
  induction fuel; intros t files; cbn [run_to_end]; emits_all;
    auto using emits_merge_files_turn.
Qed.

Lemma emits_join_from n :
  ∀ k threads files, emits (W := W) quiet (join_from k n threads files).
Proof.
  induction n; intros k threads files; cbn [join_from]; emits_all;
    auto using emits_run_to_end.
Qed.

Lemma emits_run_threads threads files :
  emits (W := W) quiet (run_threads threads files).
Proof.
  intros st. unfold run_threads.
  apply (emits_bind quiet
           (run_schedule (schedule (world st)) threads files)
           (λ '(threads', files'),
              join_from 0 (length threads') threads' files')).
  - apply emits_run_schedule.
  - intros [threads' files']. apply emits_join_from.
Qed.

Lemma emits_setup_files prefix files :
  emits (W := W) quiet (setup_files prefix files).
Proof. induction files; cbn [setup_files]; emits_all. Qed.

Lemma emits_delete_stale_files path to_extra from_extra files to_files :
  emits (W := W) quiet
    (delete_stale_files path to_extra from_extra files to_files).
Proof. induction to_files; cbn [delete_stale_files]; emits_all. Qed.

Lemma emits_delete_source_backup to_backup from_backup to_id from_id
    to_extra from_extra files to_files :
  emits (W := W) quiet
    (delete_source_backup to_backup from_backup to_id from_id to_extra
       from_extra files to_files).
Proof.
  unfold delete_source_backup. emits_all. apply emits_delete_stale_files.
Qed.

End Quiet.

Section QuietPairMerge.
Context {W : Type} `{Collaborators W}.

Lemma emits_validate backup : emits (W := W) quiet (validate backup).
Proof. unfold validate. emits_all. Qed.

Lemma emits_extra_directory_list backup :
  emits (W := W) quiet (extra_directory_list backup).
Proof. unfold extra_directory_list. emits_all. Qed.

Lemma emits_start_and_wait_threads threads files :
  emits (W := W) quiet (start_and_wait_threads threads files).
Proof.
  unfold start_and_wait_threads. emits_step; [apply emits_run_threads|intros].
  emits_all.
Qed.

Lemma emits_update_to_backup_metadata g to_backup from_backup files :
  emits (W := W) quiet
    (update_to_backup_metadata g to_backup from_backup files).
Proof. unfold update_to_backup_metadata. emits_all. Qed.

(** A pair merge logs its start, and nothing after that looks like the
    start of a pair merge. *)
Lemma merge_backups_log g to_backup from_backup (st : mstate W) r st' :
  merge_backups g to_backup from_backup st = (r, st') →
  pair_merges (trace st') =
    pair_merges (trace st)
    ++ [(pgBackup.start_time to_backup, pgBackup.start_time from_backup)].
Proof.
  intros Hrun. unfold merge_backups in Hrun.
  rewrite bind_run, io_run in Hrun.
  destruct (respond _ _ _) as [[[]|] w]; cbv beta iota zeta in Hrun.
  - lazymatch type of Hrun with
    | ?body _ = _ => assert (Hquiet : emits quiet body)
    end.
    { emits_all;
        auto using emits_validate, emits_Assert, emits_extra_directory_list,
          emits_reorder_extra_dirs, emits_setup_files,
          emits_start_and_wait_threads, emits_update_to_backup_metadata,
          emits_delete_source_backup. }
    destruct (emits_run _ _ _ _ _ Hquiet Hrun) as (evs & -> & Hevs).
    cbn [trace]. unfold pair_merges. rewrite !omap_app. cbn.
    assert (Hnone : omap pair_merge_started evs = []).
    { clear -Hevs. induction Hevs as [|e evs He _ IH]; [reflexivity|].
      cbn. rewrite He. exact IH. }
    rewrite Hnone, app_nil_r. reflexivity.
  - injection Hrun as _ <-.
    cbn [trace]. unfold pair_merges. rewrite omap_app. reflexivity.
Qed.

(** *** What a pair merge returns *)

Lemma returns_any {A} (m : M W A) : returns (λ _, True) m.
Proof. intros st a st' _. exact I. Qed.

Lemma returns_ret {A} (Q : A → Prop) a : Q a → returns (W := W) Q (mret a).
Proof. intros HQ st a' st' E. injection E as <- _. exact HQ. Qed.

Lemma returns_raise {A} (Q : A → Prop) e : returns (W := W) Q (raise e).
Proof. intros st a st' E. discriminate. Qed.

Lemma returns_bind {A B} (Q1 : A → Prop) (Q : B → Prop) (m : M W A)
    (k : A → M W B) :
  returns Q1 m → (∀ a, Q1 a → returns Q (k a)) → returns Q (m ≫= k).
Proof.
  intros Hm Hk st b st' E.
  apply bind_Ok_inv in E as (a & st1 & Em & Ek).
  eapply Hk; [eapply Hm; exact Em | exact Ek].
Qed.

Ltac returns_skip :=
  eapply (returns_bind (λ _, True)); [apply returns_any | intros ? _].

Lemma returns_validate backup :
  returns (W := W)
    (λ b, pgBackup.start_time b = pgBackup.start_time backup)
    (validate backup).
Proof. unfold validate. returns_skip. apply returns_ret. reflexivity. Qed.

Lemma returns_update_to_backup_metadata g to_backup from_backup files :
  returns (W := W)
    (λ out, pgBackup.start_time out.2 = pgBackup.start_time from_backup)
    (update_to_backup_metadata g to_backup from_backup files).
Proof.
  unfold update_to_backup_metadata. returns_skip. apply returns_ret.
  reflexivity.
Qed.

Lemma returns_delete_source_backup to_backup from_backup to_id from_id
    to_extra from_extra files to_files :
  returns (W := W)
    (λ out, pgBackup.start_time out.1 = pgBackup.start_time from_backup ∧
            pgBackup.start_time out.2 = pgBackup.start_time from_backup)
    (delete_source_backup to_backup from_backup to_id from_id to_extra
       from_extra files to_files).
Proof.
  unfold delete_source_backup. do 4 returns_skip.
  destruct (_ =? _); [apply returns_raise|].
  returns_skip. apply returns_ret. split; reflexivity.
Qed.

(** A pair merge that succeeds leaves the destination with the ID of the
    source. *)
Lemma merge_backups_ids g to_backup from_backup :
  returns (W := W)
    (λ out, pgBackup.start_time out.1 = pgBackup.start_time from_backup ∧
            pgBackup.start_time out.2 = pgBackup.start_time from_backup)
    (merge_backups g to_backup from_backup).
Proof.
  unfold merge_backups. do 3 returns_skip.
  eapply returns_bind; [apply returns_validate | intros from0 Hfrom0].
  cbv beta in Hfrom0.
  destruct (bool_decide _); [apply returns_raise|]. cbv zeta.
  do 2 returns_skip.
  destruct (bool_decide _).
  - rewrite <- Hfrom0. apply returns_delete_source_backup.
  - do 8 returns_skip.
    eapply returns_bind;
      [apply returns_update_to_backup_metadata | intros [to1 from1] Hfrom1].
    cbn in Hfrom1. do 2 returns_skip.
    rewrite <- Hfrom0, <- Hfrom1. apply returns_delete_source_backup.
Qed.

End QuietPairMerge.

(** ** The loop of do_merge *)

Lemma adjacent_pairs_down_length ids d :
  ∀ i, (i < length ids)%nat →
       length (adjacent_pairs_down ids d i) = (i - d)%nat.
Proof.
  induction i as [|i IH]; intros Hi; cbn [adjacent_pairs_down]; [reflexivity|].
  case_bool_decide as Hd; [|cbn; lia].
  destruct (lookup_lt_is_Some_2 ids (S i) Hi) as [a ->].
  destruct (lookup_lt_is_Some_2 ids i ltac:(lia)) as [b ->].
  cbn. rewrite IH by lia. lia.
Qed.

Lemma adjacent_pairs_down_lookup ids d :
  ∀ i j, (i < length ids)%nat → (j < i - d)%nat →
    ∃ to_id from_id,
      adjacent_pairs_down ids d i !! j = Some (to_id, from_id) ∧
      ids !! (i - j)%nat = Some to_id ∧
      ids !! (i - S j)%nat = Some from_id.
Proof.
  induction i as [|i IH]; intros j Hi Hj; [lia|].
  cbn [adjacent_pairs_down].
  rewrite bool_decide_eq_true_2 by lia.
  destruct (lookup_lt_is_Some_2 ids (S i) Hi) as [a Ha].
  destruct (lookup_lt_is_Some_2 ids i ltac:(lia)) as [b Hb].
  rewrite Ha, Hb. destruct j as [|j].
  - exists a, b. rewrite Nat.sub_0_r.
    replace (S i - 1)%nat with i by lia. auto.
  - destruct (IH j ltac:(lia) ltac:(lia)) as (a' & b' & Hl & Ha' & Hb').
    exists a', b'. cbn. repeat split; assumption.
Qed.

Section Chain.
Context {W : Type} `{Collaborators W}.

(** The loop started at [i], on a catalog that still has its original
    backups below [i] and whose running full backup bears the ID of the
    original backup at [i], logs the pair merges of the adjacent indexes
    from [i] down to [dest_backup_idx + 1]. *)
Lemma merge_chain_pairs g d f (ids : list Z) :
  ∀ i backups (st : mstate W) backups' st',
    (i ≤ f)%nat →
    (∀ k, (k < i)%nat → pgBackup.start_time <$> backups !! k = ids !! k) →
    pgBackup.start_time <$> backups !! f = ids !! i →
    merge_chain g d f i backups st = (Ok backups', st') →
    pair_merges (trace st') =
      pair_merges (trace st) ++ adjacent_pairs_down ids d i.
Proof.
  induction i as [|i IH]; intros backups st backups' st' Hif Hbelow Hfull Hrun;
    cbn [merge_chain adjacent_pairs_down] in *.
  - injection Hrun as _ <-. rewrite app_nil_r. reflexivity.
  - case_bool_decide as Hd;
      [|injection Hrun as _ <-; rewrite app_nil_r; reflexivity].
    destruct (backups !! f) as [full_backup|] eqn:Ef; [|discriminate].
    destruct (backups !! i) as [from_backup|] eqn:Ei; [|discriminate].
    apply bind_Ok_inv in Hrun as ([full' from'] & st1 & Hmerge & Hrun).
    pose proof (merge_backups_log _ _ _ _ _ _ Hmerge) as Hlog.
    destruct (merge_backups_ids _ _ _ _ _ _ Hmerge) as [Hid_full Hid_from].
    cbn in Hid_full, Hid_from.
    cbn in Hfull. rewrite <- Hfull.
    pose proof (Hbelow i ltac:(lia)) as Hi. rewrite Ei in Hi. cbn in Hi.
    rewrite <- Hi. cbn.
    erewrite IH; [| |intros k Hk| |exact Hrun]; [|lia| |].
    + rewrite Hlog, <- app_assoc. reflexivity.
    + rewrite list_lookup_insert_ne by lia.
      rewrite list_lookup_insert_ne by lia. apply Hbelow. lia.
    + rewrite list_lookup_insert_eq
        by (rewrite length_insert; eapply lookup_lt_Some; eauto).
      cbn. rewrite Hid_full, <- Hi. reflexivity.
Qed.

(** The part of C1 that holds: when all the pair merges succeed, the loop
    has started one for each index from [full_backup_idx] down to
    [dest_backup_idx + 1], that is [full_backup_idx - dest_backup_idx] of
    them, the one numbered [j] (from 0) on the backup at index
    [full_backup_idx - (j + 1)], with the running full backup under the ID
    of the backup merged just before. *)
Lemma merge_chain_invocations g d f backups (st : mstate W) backups' st' :
  (f < length backups)%nat →
  merge_chain g d f f backups st = (Ok backups', st') →
  ∃ pairs,
    pair_merges (trace st') = pair_merges (trace st) ++ pairs ∧
    length pairs = (f - d)%nat ∧
    ∀ j, (j < f - d)%nat →
      ∃ to_backup from_backup,
        backups !! (f - j)%nat = Some to_backup ∧
        backups !! (f - S j)%nat = Some from_backup ∧
        pairs !! j = Some (pgBackup.start_time to_backup,
                           pgBackup.start_time from_backup).
Proof.
  intros Hf Hrun.
  set (ids := pgBackup.start_time <$> backups).
  assert (Hlen : (f < length ids)%nat)
    by (unfold ids; rewrite length_fmap; exact Hf).
  exists (adjacent_pairs_down ids d f). split; [|split].
  - eapply merge_chain_pairs; [| | |exact Hrun]; [lia| |];
      intros; unfold ids; rewrite list_lookup_fmap; reflexivity.
  - apply adjacent_pairs_down_length. exact Hlen.
  - intros j Hj.
    destruct (adjacent_pairs_down_lookup ids d f j Hlen Hj)
      as (a & b & Hl & Ha & Hb).
    unfold ids in Ha, Hb. rewrite list_lookup_fmap in Ha, Hb.
    destruct (backups !! (f - j)%nat) as [to_backup|]; [|discriminate].
    destruct (backups !! (f - S j)%nat) as [from_backup|]; [|discriminate].
    injection Ha as <-. injection Hb as <-. eauto.
Qed.

End Chain.

(** ** The resume path, for every world *)

Section Resume.
Context {W : Type} `{Collaborators W}.

Lemma validations_app log1 log2 :
  validations (log1 ++ log2) = validations log1 ++ validations log2.
Proof. unfold validations. apply omap_app. Qed.

(** A pair merge whose source is DELETING can only complete in a build
    without assertion checking, and it has then validated the source in
    that status. *)
Lemma merge_backups_deleting_source g to_backup from_backup (st : mstate W)
    out st' :
  pgBackup.status from_backup = BACKUP_STATUS_DELETING →
  merge_backups g to_backup from_backup st = (Ok out, st') →
  assert_enabled g = false ∧
  (pgBackup.start_time from_backup, BACKUP_STATUS_DELETING)
    ∈ validations (trace st').
Proof.
  intros Hstatus Hrun. unfold merge_backups in Hrun.
  apply bind_Ok_inv in Hrun as ([] & st1 & _ & Hrun).
  apply bind_Ok_inv in Hrun as (to1 & st2 & _ & Hrun).
  apply bind_Ok_inv in Hrun as ([] & st3 & Hassert & Hrun).
  apply bind_Ok_inv in Hrun as (from1 & st4 & Hvalidate & Hrun).
  rewrite Hstatus in Hassert. cbn in Hassert. unfold Assert in Hassert.
  destruct (assert_enabled g); [discriminate|]. split; [reflexivity|].
  unfold validate in Hvalidate.
  apply bind_Ok_inv in Hvalidate as (s & st5 & Hcall & Hret).
  injection Hret as _ <-.
  rewrite io_run in Hcall.
  destruct (respond _ _ _) as [[s'|] w]; [|discriminate].
  injection Hcall as _ <-.
  lazymatch type of Hrun with
  | ?body _ = _ => assert (Hquiet : emits quiet body)
  end.
  { emits_all;
      auto using emits_extra_directory_list, emits_reorder_extra_dirs,
        emits_setup_files, emits_start_and_wait_threads,
        emits_update_to_backup_metadata, emits_delete_source_backup. }
  destruct (emits_run _ _ _ _ _ Hquiet Hrun) as (evs & -> & _).
  cbn [trace]. rewrite !validations_app. cbn. rewrite Hstatus.
  apply elem_of_app. left. apply elem_of_app. right. left.
Qed.

(** With a NULL [to_extra], the loop that deletes stale files does not get
    past an entry whose extra directory number is not 0. *)
Lemma delete_stale_files_null_list path from_extra files to_files :
  ∀ (st : mstate W) r st',
    (∃ file, file ∈ to_files ∧ pgFile.extra_dir_num file ≠ 0) →
    delete_stale_files path None from_extra files to_files st = (r, st') →
    r = Err (Crashed NullDereference) ∨ ∃ R (c : call R), r = Err (CalleeError c).
Proof.
  induction to_files as [|file to_files IH]; intros st r st' (f & Hin & Hnum)
    Hrun.
  - apply elem_of_nil in Hin as [].
  - cbn [delete_stale_files] in Hrun.
    destruct (Z.eqb_spec (pgFile.extra_dir_num file) 0) as [Hzero|Hnz];
      cbn [negb] in Hrun.
    + assert (Hrest : ∃ file, file ∈ to_files ∧ pgFile.extra_dir_num file ≠ 0).
      { exists f. split; [|exact Hnum].
        apply elem_of_cons in Hin as [->|Hin]; [contradiction|exact Hin]. }
      rewrite bind_run in Hrun.
      change ((mret false : M W bool) st) with (Ok false, st) in Hrun.
      cbv beta iota in Hrun. rewrite bind_run in Hrun.
      destruct (parray_bsearch files file).
      * change ((mret tt : M W unit) st) with (Ok tt, st) in Hrun.
        cbv beta iota in Hrun. eapply IH; [exact Hrest | exact Hrun].
      * rewrite io_run in Hrun.
        destruct (respond _ _ _) as [[[]|] w]; cbv beta iota zeta in Hrun.
        -- eapply IH; [exact Hrest | exact Hrun].
        -- injection Hrun as <- _. right. eauto.
    + injection Hrun as <- _. left. reflexivity.
Qed.

End Resume.

(** ** What the finalizing steps return *)

Section SizesOfPairMerge.
Context {W : Type} `{Collaborators W}.

Lemma emits_keeps {A} P (m : M W A) st r st' e :
  emits P m → m st = (r, st') → e ∈ trace st → e ∈ trace st'.
Proof.
  intros Hm Hrun He. destruct (emits_run _ _ _ _ _ Hm Hrun) as (evs & -> & _).
  apply elem_of_app. left. exact He.
Qed.

Lemma update_to_backup_metadata_inv g to_backup from_backup files
    (st : mstate W) to_backup' from_backup' st' :
  update_to_backup_metadata g to_backup from_backup files st
  = (Ok (to_backup', from_backup'), st') →
  pgBackup.data_bytes to_backup' = sum_data_bytes files 0 ∧
  pgBackup.wal_bytes to_backup' =
    (if pgBackup.stream to_backup' then BYTES_INVALID
     else wal_bytes_of (xlog_seg_size g) (pgBackup.start_lsn to_backup')
            (pgBackup.stop_lsn to_backup')) ∧
  pgBackup.status from_backup' = pgBackup.status from_backup.
Proof.
  intros Hrun. unfold update_to_backup_metadata in Hrun.
  apply bind_Ok_inv in Hrun as (wal & st1 & Hwal & Hret).
  injection Hret as <- <- _. cbn.
  destruct (pgBackup.stream to_backup && pgBackup.stream from_backup);
    cbn [negb] in Hwal.
  - injection Hwal as <- _. auto.
  - destruct (xlog_seg_size g =? 0); [discriminate|].
    injection Hwal as <- _. auto.
Qed.

Lemma delete_source_backup_inv to_backup from_backup to_id from_id to_extra
    from_extra files to_files (st : mstate W) out st' :
  delete_source_backup to_backup from_backup to_id from_id to_extra
    from_extra files to_files st = (Ok out, st') →
  ∃ status,
    out = (pgBackup.set_start_time (pgBackup.start_time from_backup) to_backup,
           pgBackup.set_status status from_backup).
Proof.
  intros Hrun. unfold delete_source_backup in Hrun.
  apply bind_Ok_inv in Hrun as (status & ? & _ & Hrun).
  do 3 (apply bind_Ok_inv in Hrun as (? & ? & _ & Hrun)).
  destruct (_ =? _); [discriminate|].
  apply bind_Ok_inv in Hrun as (? & ? & _ & Hrun).
  injection Hrun as <- _. exists status. reflexivity.
Qed.

End SizesOfPairMerge.

(** * Further properties of the functions of merge.c *)

(** ** get_extra_index *)

Lemma get_extra_index_from_lower key l :
  ∀ i, 0 ≤ i →
       get_extra_index_from key l i = -1 ∨
       i + 1 ≤ get_extra_index_from key l i ≤ i + Z.of_nat (length l).
Proof.
  induction l as [|x l IH]; intros i Hi; cbn [get_extra_index_from length].
  - left. reflexivity.
  - destruct (String.eqb key x); [right; lia|].
    destruct (IH (i + 1) ltac:(lia)) as [->|Hr]; [left; reflexivity|right; lia].
Qed.

Lemma get_extra_index_from_absent key l :
  ∀ i, 0 ≤ i → (get_extra_index_from key l i = -1 ↔ key ∉ l).
Proof.
  induction l as [|x l IH]; intros i Hi; cbn [get_extra_index_from].
  - split; [intros _; apply not_elem_of_nil | reflexivity].
  - destruct (String.eqb_spec key x) as [->|Hne].
    + split; [lia | intros Hnot; exfalso; apply Hnot; left].
    + rewrite (IH (i + 1)) by lia. rewrite not_elem_of_cons. tauto.
Qed.

Lemma get_extra_index_from_found key l :
  ∀ i, 0 ≤ i → key ∈ l →
    ∃ n : nat,
      get_extra_index_from key l i = i + Z.of_nat n + 1 ∧
      l !! n = Some key ∧
      ∀ m : nat, (m < n)%nat → l !! m ≠ Some key.
Proof.
  induction l as [|x l IH]; intros i Hi Hin; [by apply elem_of_nil in Hin|].
  cbn [get_extra_index_from].
  destruct (String.eqb_spec key x) as [->|Hne].
  - exists 0%nat. split; [lia|]. split; [reflexivity|]. intros m Hm. lia.
  - apply elem_of_cons in Hin as [Heq|Hin]; [contradiction|].
    destruct (IH (i + 1) ltac:(lia) Hin) as (n & Hn & Hl & Hfirst).
    exists (S n). split; [lia|]. split; [exact Hl|].
    intros [|m] Hm; cbn; [congruence|]. apply Hfirst. lia.
Qed.

Lemma get_extra_index_absent_iff key (list : option (list string)) :
  get_extra_index key list = -1 ↔ ∀ l, list = Some l → key ∉ l.
Proof.
  destruct list as [l|]; cbn [get_extra_index].
  - rewrite (get_extra_index_from_absent key l 0) by lia.
    split; [intros Hnot l' [= <-]; exact Hnot | intros Hall; apply Hall; reflexivity].
  - split; [intros _ l [=] | reflexivity].
Qed.

(** X1: the lookup answers -1 exactly when there is nothing to find: the
    list is NULL or no entry of it equals the key. *)
Theorem get_extra_index_absent (key : string) (list : option (list string)) :
  get_extra_index key list = -1 ↔ ∀ l, list = Some l → key ∉ l.
Proof. apply get_extra_index_absent_iff. Qed.

(** X2: when the key is in the list, the lookup answers a position between
    1 and the length of the list, the entry at that position is the key,
    and no earlier entry is: reading the list back at the answer gives the
    key. *)
Theorem get_extra_index_found (key : string) (l : list string) :
  key ∈ l →
  let n := get_extra_index key (Some l) in
  1 ≤ n ≤ Z.of_nat (length l) ∧
  parray_get l (n - 1) = Some key ∧
  ∀ m, 1 ≤ m < n → parray_get l (m - 1) ≠ Some key.
Proof.
  intros Hin n. subst n. cbn [get_extra_index].
  destruct (get_extra_index_from_found key l 0 ltac:(lia) Hin)
    as (n & -> & Hl & Hfirst).
  pose proof (lookup_lt_Some _ _ _ Hl) as Hlt.
  split; [lia|]. unfold parray_get. split.
  - replace (0 + Z.of_nat n + 1 - 1) with (Z.of_nat n) by lia.
    destruct (Z.ltb_spec (Z.of_nat n) 0); [lia|]. rewrite Nat2Z.id. exact Hl.
  - intros m Hm. destruct (Z.ltb_spec (m - 1) 0); [lia|].
    apply Hfirst. lia.
Qed.

Lemma get_extra_index_found_witness :
  let l := ["/etc/a"; "/etc/b"; "/etc/a"] in
  let n := get_extra_index "/etc/a" (Some l) in
  1 ≤ n ≤ 3 ∧
  parray_get l (n - 1) = Some "/etc/a" ∧
  ∀ m, 1 ≤ m < n → parray_get l (m - 1) ≠ Some "/etc/a".
Proof.
  apply (get_extra_index_found "/etc/a" ["/etc/a"; "/etc/b"; "/etc/a"]).
  left.
Defined.

Lemma get_extra_index_from_nodup key l :
  ∀ i (n : nat), 0 ≤ i → NoDup l → l !! n = Some key →
    get_extra_index_from key l i = i + Z.of_nat n + 1.
Proof.
  intros i n Hi Hnodup Hl.
  destruct (get_extra_index_from_found key l i Hi
              (list_elem_of_lookup_2 _ _ _ Hl)) as (n' & -> & Hl' & _).
  rewrite (NoDup_lookup _ _ _ _ Hnodup Hl Hl'). reflexivity.
Qed.

(** X3: in a list without duplicates the lookup is the inverse of reading
    by position: the path stored at position n (from 1) is found at n. *)
Theorem get_extra_index_of_entry (l : list string) (n : Z) (dir : string) :
  NoDup l →
  parray_get l (n - 1) = Some dir →
  get_extra_index dir (Some l) = n.
Proof.
  intros Hnodup Hget. unfold parray_get in Hget.
  destruct (Z.ltb_spec (n - 1) 0); [discriminate|].
  cbn [get_extra_index].
  rewrite (get_extra_index_from_nodup dir l 0 (Z.to_nat (n - 1)))
    by (assumption || lia).
  lia.
Qed.

Lemma get_extra_index_of_entry_witness :
  get_extra_index "/etc/b" (Some ["/etc/a"; "/etc/b"; "/etc/c"]) = 2.
Proof.
  apply (get_extra_index_of_entry ["/etc/a"; "/etc/b"; "/etc/c"] 2 "/etc/b");
    [|reflexivity].
  apply (bool_decide_unpack _). vm_compute. exact I.
Defined.

(** ** reorder_extra_dirs and remove_dir_with_files *)

Lemma io_inv {W} `{Collaborators W} {R} (c : call R) (st : mstate W) r st' :
  io c st = (r, st') →
  ∃ rep w,
    respond R c (world st) = (rep, w) ∧
    st' = MState w (trace st ++ [Called c rep]) ∧
    r = match rep with
        | Returned x => Ok x
        | Raises => Err (CalleeError c)
        end.
Proof.
  rewrite io_run. destruct (respond R c (world st)) as [rep w].
  intros Hrun. exists rep, w. split; [reflexivity|].
  destruct rep; injection Hrun as <- <-; auto.
Qed.

Lemma bind_inv {W A B} (m : M W A) (k : A → M W B) st r st' :
  (m ≫= k) st = (r, st') →
  (∃ a st1, m st = (Ok a, st1) ∧ k a st1 = (r, st')) ∨
  (∃ e, m st = (Err e, st') ∧ r = Err e).
Proof.
  rewrite bind_run. destruct (m st) as [[a|e] st1].
  - left. eauto.
  - intros [= <- <-]. right. eauto.
Qed.

Lemma insert_sorted_perm {A} (le : A → A → bool) x l :
  insert_sorted le x l ≡ₚ x :: l.
Proof.
  induction l as [|y l IH]; cbn [insert_sorted]; [reflexivity|].
  destruct (le x y); [reflexivity|]. rewrite IH. apply Permutation_swap.
Qed.

Lemma parray_qsort_perm {A} (le : A → A → bool) l : parray_qsort le l ≡ₚ l.
Proof.
  induction l as [|x l IH]; [reflexivity|].
  cbn. rewrite insert_sorted_perm. constructor. exact IH.
Qed.

Section Reconciler.
Context {W : Type} `{Collaborators W}.

Lemma deleted_entries_app log1 log2 :
  deleted_entries (log1 ++ log2)
  = deleted_entries log1 ++ deleted_entries log2.
Proof. unfold deleted_entries. apply omap_app. Qed.

Lemma listed_entries_app log1 log2 :
  listed_entries (log1 ++ log2) = listed_entries log1 ++ listed_entries log2.
Proof.
  unfold listed_entries. rewrite omap_app. apply join_app.
Qed.

Lemma listed_entries_listing root files evs :
  listed_entries (Called (dir_list_file root) (Returned files) :: evs)
  = files ++ listed_entries evs.
Proof. reflexivity. Qed.

Lemma deleted_entries_listing root rep evs :
  deleted_entries (Called (dir_list_file root) rep :: evs)
  = deleted_entries evs.
Proof. reflexivity. Qed.

Lemma tidy_nil prefix : tidy prefix [].
Proof. split; [constructor|]. intros x Hx. exact Hx. Qed.

Lemma tidy_app prefix evs1 evs2 :
  tidy prefix evs1 → tidy prefix evs2 → tidy prefix (evs1 ++ evs2).
Proof.
  intros [Hall1 Hsub1] [Hall2 Hsub2]. split; [apply Forall_app; auto|].
  rewrite deleted_entries_app, listed_entries_app. intros x Hx.
  apply elem_of_app in Hx as [Hx|Hx]; apply elem_of_app; auto.
Qed.

Lemma appends_tidy_bind {A B} prefix (m : M W A) (k : A → M W B) :
  appends (tidy prefix) m → (∀ a, appends (tidy prefix) (k a)) →
  appends (tidy prefix) (m ≫= k).
Proof.
  intros Hm Hk st. rewrite bind_run.
  destruct (Hm st) as (evs & Hevs & Htidy).
  destruct (m st) as [[a|e] st1]; cbn in Hevs |- *.
  - destruct (Hk a st1) as (evs' & Hevs' & Htidy').
    exists (evs ++ evs'). rewrite Hevs', Hevs, app_assoc.
    split; [reflexivity|]. apply tidy_app; assumption.
  - exists evs. auto.
Qed.

Lemma appends_tidy_nothing {A} prefix (r : result A) :
  appends (W := W) (tidy prefix) (λ st, (r, st)).
Proof.
  intros st. exists []. rewrite app_nil_r.
  split; [reflexivity|apply tidy_nil].
Qed.

(** The loop of [remove_dir_with_files] hands to [pgFileDelete] entries of
    the list it is given, each by the path it carries, and lists nothing. *)
Lemma delete_listed_appends prefix files :
  ∀ st : mstate W, ∃ evs,
    trace (delete_listed files st).2 = trace st ++ evs ∧
    Forall (within_containers prefix) evs ∧
    deleted_entries evs ⊆ files ∧
    listed_entries evs = [].
Proof.
  induction files as [|file files IH]; intros st; cbn [delete_listed].
  - exists []. rewrite app_nil_r. split; [reflexivity|].
    split; [constructor|]. split; [|reflexivity]. intros x Hx. exact Hx.
  - rewrite bind_run, io_run.
    destruct (respond _ _ _) as [[[]|] w]; cbv beta iota zeta.
    + destruct (IH (MState w (trace st
                                ++ [Called (pgFileDelete
                                              (listed (pgFile.path file)) file)
                                      (Returned tt)])))
        as (evs & -> & Hall & Hsub & Hnone).
      eexists (_ :: evs). cbn [trace]. rewrite <- app_assoc.
      split; [reflexivity|]. split; [constructor; [reflexivity|exact Hall]|].
      split.
      * intros x Hx. cbn in Hx. apply elem_of_cons in Hx as [->|Hx];
          [left | right; apply Hsub, Hx].
      * exact Hnone.
    + eexists [_]. split; [reflexivity|].
      split; [repeat constructor|]. split; [|reflexivity].
      intros x Hx. cbn in Hx. apply list_elem_of_singleton in Hx as ->. left.
Qed.

Lemma remove_dir_tidy prefix n :
  appends (W := W) (tidy prefix)
    (remove_dir_with_files (makeExtraDirPathByNum prefix n)).
Proof.
  intros st. unfold remove_dir_with_files. rewrite bind_run, io_run.
  destruct (respond _ _ _) as [[files|] w]; cbv beta iota zeta.
  - destruct (delete_listed_appends prefix
                (parray_qsort pgFileComparePathDesc files)
                (MState w (trace st
                           ++ [Called (dir_list_file
                                         (makeExtraDirPathByNum prefix n))
                                 (Returned files)])))
      as (evs & -> & Hall & Hsub & Hnone).
    eexists (_ :: evs). cbn [trace]. rewrite <- app_assoc.
    split; [reflexivity|]. split.
    + constructor; [cbn; eauto | exact Hall].
    + rewrite listed_entries_listing, deleted_entries_listing.
      rewrite Hnone, app_nil_r. intros x Hx. apply Hsub in Hx.
      rewrite (parray_qsort_perm pgFileComparePathDesc files) in Hx.
      exact Hx.
  - eexists [_]. split; [reflexivity|]. split.
    + repeat constructor. cbn. eauto.
    + intros x Hx. exact Hx.
Qed.

(** X4: whatever the two lists and whatever the file system answers, the
    reconciler lists and renames nothing but numbered containers under the
    destination backup's extra directory root, and it deletes nothing but
    entries that the listing of such a container has given it, each by
    the path the entry carries. *)
Theorem reorder_extra_dirs_within_containers (to_backup : pgBackup)
    (to_extra : list string) (from_extra : option (list string)) :
  appends (W := W)
    (tidy (pgBackupGetPath (pgBackup.start_time to_backup) (Some EXTRA_DIR)))
    (reorder_extra_dirs to_backup to_extra from_extra).
Proof.
  unfold reorder_extra_dirs.
  generalize (pgBackupGetPath (pgBackup.start_time to_backup) (Some EXTRA_DIR)).
  intros prefix. generalize 0.
  induction to_extra as [|dir rest IH]; intros i;
    cbn [reorder_extra_dirs_from];
    [apply (appends_tidy_nothing prefix (Ok tt))|].
  apply appends_tidy_bind; [|intros _; apply IH].
  destruct (_ =? -1); [apply remove_dir_tidy|].
  destruct (negb _); [|apply (appends_tidy_nothing prefix (Ok tt))].
  cbv zeta. apply appends_tidy_bind.
  - intros st. rewrite io_run. destruct (respond _ _ _) as [rep w].
    eexists [_]. split; [destruct rep; reflexivity|]. split.
    + repeat constructor. cbn. eauto.
    + intros x Hx. exact Hx.
  - intros rc. destruct (rc =? -1);
      [apply (appends_tidy_nothing prefix (Err _))
      |apply (appends_tidy_nothing prefix (Ok tt))].
Qed.

Lemma delete_listed_log files :
  ∀ (st : mstate W) r st',
    delete_listed files st = (r, st') →
    renames (trace st') = renames (trace st) ∧
    listings (trace st') = listings (trace st) ∧
    (∀ e, r = Err e → callee_error e).
Proof.
  induction files as [|file files IH]; intros st r st' Hrun;
    cbn [delete_listed] in Hrun.
  - injection Hrun as <- <-. repeat split; [discriminate].
  - apply bind_inv in Hrun as [([] & st1 & Hio & Hrun)|(e & Hio & ->)];
      apply io_inv in Hio as (rep & w & _ & -> & Hr).
    + destruct (IH _ _ _ Hrun) as (Hren & Hlist & Herr).
      cbn [trace] in Hren, Hlist. unfold renames, listings in *.
      rewrite omap_app in Hren. rewrite omap_app in Hlist.
      cbn in Hren, Hlist. rewrite app_nil_r in Hren.
      rewrite app_nil_r in Hlist. auto.
    + cbn [trace]. unfold renames, listings. rewrite !omap_app. cbn.
      rewrite !app_nil_r. repeat split.
      intros e' [= <-]. destruct rep; [discriminate|].
      injection Hr as ->. red. eauto.
Qed.

Lemma remove_dir_with_files_log path (st : mstate W) r st' :
  remove_dir_with_files path st = (r, st') →
  renames (trace st') = renames (trace st) ∧
  (∀ u, r = Ok u → listings (trace st') = listings (trace st) ++ [path]) ∧
  (∀ e, r = Err e → callee_error e).
Proof.
  intros Hrun. unfold remove_dir_with_files in Hrun.
  apply bind_inv in Hrun as [(files & st1 & Hio & Hrun)|(e & Hio & ->)];
    apply io_inv in Hio as (rep & w & _ & -> & Hr).
  - destruct (delete_listed_log _ _ _ _ Hrun) as (Hren & Hlist & Herr).
    cbn [trace] in Hren, Hlist. unfold renames, listings in *.
    rewrite omap_app in Hren. rewrite omap_app in Hlist.
    cbn in Hren, Hlist. rewrite app_nil_r in Hren. auto.
  - cbn [trace]. unfold renames, listings. rewrite !omap_app. cbn.
    rewrite !app_nil_r. split; [reflexivity|]. split; [discriminate|].
    intros e' [= <-]. destruct rep; [discriminate|].
    injection Hr as ->. red. eauto.
Qed.

Lemma reorder_all_absent prefix from_extra rest :
  (∀ dir, dir ∈ rest → get_extra_index dir from_extra = -1) →
  ∀ i (st : mstate W) r st',
    reorder_extra_dirs_from prefix rest i from_extra st = (r, st') →
    renames (trace st') = renames (trace st) ∧
    (∀ u, r = Ok u →
          listings (trace st')
          = listings (trace st) ++ containers prefix i (length rest)) ∧
    (∀ e, r = Err e → callee_error e).
Proof.
  induction rest as [|dir rest IH]; intros Habsent i st r st' Hrun;
    cbn [reorder_extra_dirs_from] in Hrun.
  - injection Hrun as <- <-. cbn. rewrite app_nil_r.
    repeat split; discriminate.
  - rewrite (Habsent dir) in Hrun by left. cbn [Z.eqb Pos.eqb] in Hrun.
    change (-1 =? -1) with true in Hrun. cbv iota in Hrun.
    apply bind_inv in Hrun as [([] & st1 & Hrm & Hrun)|(e & Hrm & ->)];
      destruct (remove_dir_with_files_log _ _ _ _ Hrm) as (Hren & Hlist & Herr).
    + destruct (IH (λ d Hd, Habsent d (list_elem_of_further _ _ _ Hd))
                  _ _ _ _ Hrun) as (Hren' & Hlist' & Herr').
      split; [congruence|]. split; [|exact Herr'].
      intros u Hu. rewrite (Hlist' u Hu), (Hlist tt eq_refl).
      cbn [containers length]. rewrite <- app_assoc. reflexivity.
    + split; [exact Hren|]. split; [discriminate|exact Herr].
Qed.

(** X5: when none of the destination's extra directories is in the
    source's list (or the source has no list), the reconciler renames
    nothing; if it returns, it has listed, for removal, the containers 1 to
    n in that order; it can only fail inside a callee. *)
Theorem reorder_extra_dirs_all_absent (to_backup : pgBackup)
    (to_extra : list string) (from_extra : option (list string))
    (st : mstate W) r st' :
  (∀ dir l, dir ∈ to_extra → from_extra = Some l → dir ∉ l) →
  reorder_extra_dirs to_backup to_extra from_extra st = (r, st') →
  renames (trace st') = renames (trace st) ∧
  (r = Ok tt →
   listings (trace st')
   = listings (trace st)
     ++ containers
          (pgBackupGetPath (pgBackup.start_time to_backup) (Some EXTRA_DIR))
          0 (length to_extra)) ∧
  (∀ e, r = Err e → callee_error e).
Proof.
  intros Habsent Hrun. unfold reorder_extra_dirs in Hrun.
  destruct (reorder_all_absent _ from_extra to_extra
              (λ dir Hdir, proj2 (get_extra_index_absent_iff dir from_extra)
                             (λ l, Habsent dir l Hdir))
              _ _ _ _ Hrun) as (Hren & Hlist & Herr).
  split; [exact Hren|]. split; [apply Hlist | exact Herr].
Qed.

Lemma reorder_from_in_place prefix (l more : list string) (st : mstate W) :
  NoDup l →
  ∀ rest done,
    l = done ++ rest →
    reorder_extra_dirs_from prefix rest (Z.of_nat (length done))
      (Some (l ++ more)) st = (Ok tt, st).
Proof.
  intros Hnodup. induction rest as [|dir rest IH]; intros done Hl;
    cbn [reorder_extra_dirs_from]; [reflexivity|].
  assert (Hdir : l !! length done = Some dir)
    by (rewrite Hl, lookup_app_r, Nat.sub_diag by lia; reflexivity).
  assert (Hdir' : (l ++ more) !! length done = Some dir)
    by (apply lookup_app_l_Some; exact Hdir).
  assert (Hnum : get_extra_index dir (Some (l ++ more))
                 = Z.of_nat (length done) + 1).
  { cbn [get_extra_index].
    destruct (get_extra_index_from_found dir (l ++ more) 0 ltac:(lia)
                (list_elem_of_lookup_2 _ _ _ Hdir')) as (n & -> & Hn & Hfirst).
    destruct (decide (n = length done)) as [->|Hne]; [lia|].
    assert (Hlt : (n < length done)%nat).
    { destruct (Nat.lt_trichotomy n (length done)) as [?|[?|Hgt]];
        [assumption|contradiction|].
      exfalso. exact (Hfirst _ Hgt Hdir'). }
    pose proof (lookup_lt_Some _ _ _ Hdir) as Hlen.
    rewrite lookup_app_l in Hn by lia.
    exfalso. apply Hne. exact (NoDup_lookup _ _ _ _ Hnodup Hn Hdir). }
  rewrite Hnum.
  destruct (Z.eqb_spec (Z.of_nat (length done) + 1) (-1)); [lia|].
  rewrite Z.eqb_refl. cbn [negb]. rewrite bind_run.
  change ((mret tt : M W unit) st) with (Ok tt, st). cbv beta iota.
  replace (Z.of_nat (length done) + 1) with (Z.of_nat (length (done ++ [dir])))
    by (rewrite length_app; cbn; lia).
  apply IH. rewrite <- app_assoc. exact Hl.
Qed.

(** X6: when the source backup lists the destination's extra directories
    first and in the same order (whatever it lists after them), and the
    destination lists none twice, the reconciler calls nothing and
    returns: the world and the log are unchanged. *)
Theorem reorder_extra_dirs_in_place (to_backup : pgBackup)
    (to_extra more : list string) (st : mstate W) :
  NoDup to_extra →
  reorder_extra_dirs to_backup to_extra (Some (to_extra ++ more)) st
  = (Ok tt, st).
Proof.
  intros Hnodup. unfold reorder_extra_dirs.
  apply (reorder_from_in_place _ to_extra more st Hnodup to_extra []).
  reflexivity.
Qed.

End Reconciler.

Lemma reorder_extra_dirs_all_absent_witness :
  let out := reorder_extra_dirs DroppedDir.to_backup ["/a"] None
               (Sim.start DroppedDir.world) in
  renames (trace out.2) = [] ∧
  listings (trace out.2) = [DroppedDir.container 1].
Proof.
  destruct (reorder_extra_dirs_all_absent DroppedDir.to_backup ["/a"] None
              (Sim.start DroppedDir.world) (Ok tt)
              (reorder_extra_dirs DroppedDir.to_backup ["/a"] None
                 (Sim.start DroppedDir.world)).2)
    as (Hren & Hlist & _);
    [intros dir l _ [=] | vm_compute; reflexivity |].
  split; [exact Hren | exact (Hlist eq_refl)].
Defined.

Lemma reorder_extra_dirs_in_place_witness :
  reorder_extra_dirs SwappedDirs.to_backup ["/a"; "/b"]
    (Some ["/a"; "/b"; "/c"]) (Sim.start SwappedDirs.world)
  = (Ok tt, Sim.start SwappedDirs.world).
Proof.
  apply (reorder_extra_dirs_in_place SwappedDirs.to_backup ["/a"; "/b"]
           ["/c"] (Sim.start SwappedDirs.world)).
  apply (bool_decide_unpack _). vm_compute. exact I.
Defined.

(** ** remove_dir_with_files *)

Lemma delete_listed_deletions {W} `{Collaborators W} files :
  ∀ (st st' : mstate W),
    delete_listed files st = (Ok tt, st') →
    deletions (trace st')
    = deletions (trace st) ++ ((λ f, listed (pgFile.path f)) <$> files).
Proof.
  induction files as [|file files IH]; intros st st' Hrun;
    cbn [delete_listed] in Hrun.
  - injection Hrun as <-. cbn. rewrite app_nil_r. reflexivity.
  - apply bind_Ok_inv in Hrun as ([] & st1 & Hio & Hrun).
    apply io_inv in Hio as (rep & w & _ & -> & _).
    rewrite (IH _ _ Hrun). cbn [trace]. unfold deletions.
    rewrite omap_app, <- app_assoc. reflexivity.
Qed.

(** X7: when [remove_dir_with_files] returns, it has asked for the deletion
    of every entry that the listing of the directory gave, each exactly
    once and by the path the listing gave it, and of nothing else. *)
Theorem remove_dir_with_files_deletes_listing {W} `{Collaborators W}
    (path : fspath) (st st' : mstate W) (files : list pgFile) (w : W) :
  respond _ (dir_list_file path) (world st) = (Returned files, w) →
  remove_dir_with_files path st = (Ok tt, st') →
  ∃ order,
    order ≡ₚ files ∧
    deletions (trace st')
    = deletions (trace st) ++ ((λ f, listed (pgFile.path f)) <$> order).
Proof.
  intros Hlist Hrun. unfold remove_dir_with_files in Hrun.
  apply bind_Ok_inv in Hrun as (files' & st1 & Hio & Hrun).
  apply io_inv in Hio as (rep & w' & Hrep & -> & Hr).
  rewrite Hlist in Hrep. injection Hrep as <- <-. injection Hr as ->.
  exists (parray_qsort pgFileComparePathDesc files).
  split; [apply parray_qsort_perm|].
  rewrite (delete_listed_deletions _ _ _ Hrun). cbn [trace].
  unfold deletions. rewrite omap_app. cbn. rewrite app_nil_r. reflexivity.
Qed.

Lemma remove_dir_with_files_deletes_listing_witness :
  ∃ order,
    order ≡ₚ ListedDir.content ∧
    deletions (trace (remove_dir_with_files ListedDir.container
                        (Sim.start ListedDir.world)).2)
    = (λ f, listed (pgFile.path f)) <$> order.
Proof.
  apply (remove_dir_with_files_deletes_listing ListedDir.container
           (Sim.start ListedDir.world) _ ListedDir.content ListedDir.world);
    [reflexivity | vm_compute; reflexivity].
Defined.

(** ** The sizes of the merged backup *)

Lemma sum_data_bytes_int64 files :
  sum_data_bytes files 0 = int64 (data_bytes_sum files).
Proof.
  rewrite <- (int64_small (sum_data_bytes files 0))
    by (apply sum_data_bytes_range; lia).
  rewrite sum_data_bytes_wraps. reflexivity.
Qed.

(** X8: whatever the sizes, the data bytes the finalizing step computes are
    the sum of the directory units and of the regular files' write sizes
    reduced to an int64 (wrap-around modulo 2^64): nothing else enters the
    total, and an overflow wraps. *)
Theorem sum_data_bytes_modular (files : list pgFile) :
  sum_data_bytes files 0 = int64 (data_bytes_sum files) ∧
  - 2 ^ 63 ≤ sum_data_bytes files 0 < 2 ^ 63.
Proof.
  split; [apply sum_data_bytes_int64 | apply sum_data_bytes_range; lia].
Qed.

Lemma data_bytes_sum_perm files files' :
  files ≡ₚ files' → data_bytes_sum files = data_bytes_sum files'.
Proof.
  unfold data_bytes_sum.
  induction 1 as [|x l l' _ IH|x y l|l1 l2 l3 _ IH1 _ IH2]; cbn [foldr];
    [reflexivity | rewrite IH; reflexivity | lia | congruence].
Qed.

(** X9: the data bytes do not depend on the order of the manifest: sorting
    it by size for the workers, or by path for the deletions, leaves the
    total as it is. *)
Theorem sum_data_bytes_order (files files' : list pgFile) :
  files ≡ₚ files' → sum_data_bytes files 0 = sum_data_bytes files' 0.
Proof.
  intros Hperm. rewrite !sum_data_bytes_int64.
  rewrite (data_bytes_sum_perm _ _ Hperm). reflexivity.
Qed.

Lemma sum_data_bytes_order_witness :
  sum_data_bytes (parray_qsort pgFileCompareSize Sizes.files) 0
  = sum_data_bytes Sizes.files 0.
Proof.
  apply (sum_data_bytes_order (parray_qsort pgFileCompareSize Sizes.files)
           Sizes.files).
  apply parray_qsort_perm.
Defined.

(** ** The workers *)

Ltac returns_next :=
  eapply (returns_bind (λ _, True)); [apply returns_any | intros ? _].

Section Executor.
Context {W : Type} `{Collaborators W}.

Lemma merge_one_file_lock argument file :
  returns (W := W) (λ file', pgFile.lock file' = pgFile.lock file)
    (merge_one_file argument file).
Proof.
  unfold merge_one_file.
  eapply (returns_bind (λ _, True)); [apply returns_any | intros stop _].
  destruct stop; [apply returns_raise|].
  destruct (S_ISDIR (pgFile.mode file)); [apply returns_ret; reflexivity|].
  destruct ((pgFile.write_size file =? BYTES_INVALID) &&
            (pgFile.n_blocks file =? -1)).
  { destruct (parray_bsearch _ _); apply returns_ret; reflexivity. }
  eapply (returns_bind (λ file', pgFile.lock file' = pgFile.lock file));
    [|intros file1 Hlock; apply returns_ret; exact Hlock].
  destruct (pgFile.is_datafile file && negb (pgFile.is_cfs file)).
  { unfold merge_data_file.
    destruct (bool_decide _ || bool_decide _).
    - do 4 returns_next.
      eapply (returns_bind (λ _, True)); [apply returns_any | intros rc _].
      destruct (negb (rc =? 0)); [apply returns_raise|].
      apply returns_ret. reflexivity.
    - do 3 returns_next. apply returns_ret. reflexivity. }
  destruct (String.eqb (pgFile.name file) "pg_control").
  { returns_next. apply returns_ret. reflexivity. }
  destruct (negb (pgFile.extra_dir_num file =? 0)).
  { unfold merge_extra_file. destruct (from_extra argument);
      [|apply returns_raise].
    do 2 returns_next. apply returns_ret. reflexivity. }
  returns_next. apply returns_ret. reflexivity.
Qed.

Lemma failed_insert threads k t t' :
  threads !! k = Some t →
  (exited t = true → t' = t) →
  failed threads → failed (<[k := t']> threads).
Proof.
  intros Hk Hsame (j & t0 & Hj & Hex & Hret).
  destruct (decide (j = k)) as [->|Hne].
  - exists k, t0. rewrite Hk in Hj. injection Hj as ->.
    rewrite Hsame by exact Hex.
    rewrite list_lookup_insert_eq by (eapply lookup_lt_Some; eauto). auto.
  - exists j, t0. rewrite list_lookup_insert_ne by auto. auto.
Qed.

(** One turn: the manifest keeps its length; an entry that is unclaimed
    after the turn is as it was before; a claimed entry stays claimed; the
    worker keeps its invariant; a worker that has exited does nothing; and
    an entry is abandoned only by a worker that stops there. *)
Lemma merge_files_turn_inv t files (st : mstate W) t' files' st' :
  merge_files_turn t files st = (Ok (t', files'), st') →
  length files' = length files ∧
  (∀ j s, files' !! j = Some s → claimed s = false → files !! j = Some s) ∧
  (∀ j, locked files j → locked files' j) ∧
  (thread_ok files t → thread_ok files' t') ∧
  (exited t = true → t' = t) ∧
  ((∃ j, files' !! j = Some Abandoned) →
   (∃ j, files !! j = Some Abandoned) ∨
   (exited t = false ∧ exited t' = true ∧ ret (arg t') = ret (arg t))).
Proof.
  intros Hturn.
  destruct (merge_files_turn_cases t files st)
    as [[Hex Hrun]|[(Hex & Hnone & Hrun)|[(Hex & (s & Hs & Hc) & Hrun)
        |(Hex & file & Hfile & Hlock & Hrun)]]].
  - rewrite Hrun in Hturn. injection Hturn as <- <- _.
    split; [reflexivity|]. split; [auto|]. split; [auto|].
    split; [auto|]. split; [auto|]. auto.
  - rewrite Hrun in Hturn. injection Hturn as <- <- _.
    split; [reflexivity|]. split; [auto|]. split; [auto|].
    split; [|split; [congruence|auto]].
    intros (Hret & Hrunning & Hdone). destruct (Hrunning Hex) as [_ Hbefore].
    split; [left; reflexivity|]. split; [discriminate|].
    intros _ j Hj. apply Hbefore. apply lookup_ge_None in Hnone. cbn. lia.
  - rewrite Hrun in Hturn. injection Hturn as <- <- _.
    split; [reflexivity|]. split; [auto|]. split; [auto|].
    split; [|split; [congruence|auto]].
    intros (Hret & Hrunning & Hdone). destruct (Hrunning Hex) as [Hone Hbefore].
    split; [exact Hret|]. split; [|exact Hdone].
    intros _. split; [exact Hone|]. cbn. intros j Hj.
    destruct (decide (j = next_file t)) as [->|Hne];
      [exists s; auto | apply Hbefore; lia].
  - pose proof (lookup_lt_Some _ _ _ Hfile) as Hlt.
    assert (Hstep : ∃ s, claimed s = true ∧ files' = <[next_file t := s]> files
              ∧ ((t' = Thread (arg t) (S (next_file t)) false
                  ∧ ∃ file', s = Entry file')
                 ∨ t' = Thread (arg t) (next_file t) true)).
    { destruct (merge_one_file _ _ st) as [[file'|e] st1] eqn:Hone.
      - rewrite Hrun in Hturn. injection Hturn as <- <- _.
        exists (Entry file'). split; [|split; [reflexivity|left; eauto]].
        exact (merge_one_file_lock _ _ _ _ _ Hone).
      - destruct (elog_error e).
        + destruct Hrun as (s & Hc & Hrun). rewrite Hrun in Hturn.
          injection Hturn as <- <- _. exists s. auto.
        + rewrite Hrun in Hturn. discriminate. }
    destruct Hstep as (s & Hc & -> & Ht').
    rewrite length_insert. split; [reflexivity|].
    assert (Hmono : ∀ j, locked files j →
                         locked (<[next_file t := s]> files) j).
    { intros j (s0 & Hj & Hs0).
      destruct (decide (j = next_file t)) as [->|Hne].
      - exists s. split; [apply list_lookup_insert_eq; exact Hlt|exact Hc].
      - exists s0. rewrite list_lookup_insert_ne by auto. auto. }
    split.
    { intros j s0 Hj Hs0.
      destruct (decide (j = next_file t)) as [->|Hne].
      - rewrite list_lookup_insert_eq in Hj by exact Hlt.
        injection Hj as <-. congruence.
      - rewrite list_lookup_insert_ne in Hj by auto. exact Hj. }
    split; [exact Hmono|]. split; [|split; [congruence|]].
    + intros (Hret & Hrunning & Hdone).
      destruct (Hrunning Hex) as [Hone Hbefore].
      destruct Ht' as [[-> _]| ->]; (split; [exact Hret|]); cbn.
      * split; [|rewrite Hone; discriminate].
        intros _. split; [exact Hone|]. intros j Hj.
        destruct (decide (j = next_file t)) as [->|Hne].
        -- exists s. split; [apply list_lookup_insert_eq; exact Hlt|exact Hc].
        -- apply Hmono, Hbefore. lia.
      * split; [discriminate|]. rewrite Hone. discriminate.
    + intros (j & Hj).
      destruct Ht' as [[-> (file' & ->)]| ->].
      * left. destruct (decide (j = next_file t)) as [->|Hne].
        -- rewrite list_lookup_insert_eq in Hj by exact Hlt. discriminate.
        -- rewrite list_lookup_insert_ne in Hj by auto. eauto.
      * right. auto.
Qed.

Lemma thread_ok_mono files files' t :
  length files' = length files →
  (∀ j, locked files j → locked files' j) →
  thread_ok files t → thread_ok files' t.
Proof.
  intros Hlen Hmono (Hret & Hrun & Hdone).
  split; [exact Hret|]. split.
  - intros Hex. destruct (Hrun Hex) as [Hone Hbefore]. auto.
  - intros Hzero j Hj. apply Hmono, Hdone; [exact Hzero|lia].
Qed.

(** A sequence of turns, in any order: what one turn keeps is kept. *)
Lemma run_schedule_inv sched :
  ∀ threads files (st : mstate W) threads' files' st',
    run_schedule sched threads files st = (Ok (threads', files'), st') →
    length threads' = length threads ∧
    length files' = length files ∧
    (∀ j s, files' !! j = Some s → claimed s = false → files !! j = Some s) ∧
    (∀ j, locked files j → locked files' j) ∧
    (Forall (thread_ok files) threads → Forall (thread_ok files') threads') ∧
    (pool_ok threads files → pool_ok threads' files').
Proof.
  induction sched as [|k sched IH]; intros threads files st threads' files' st'
    Hrun; cbn [run_schedule] in Hrun.
  - injection Hrun as <- <- _. auto 8.
  - destruct (threads !! k) as [t|] eqn:Hk; [|eauto].
    apply bind_Ok_inv in Hrun as ([t1 files1] & st1 & Hturn & Hrun).
    destruct (merge_files_turn_inv _ _ _ _ _ _ Hturn)
      as (Hlen & Hkept & Hmono & Hok & Hsame & Hab).
    destruct (IH _ _ _ _ _ _ Hrun)
      as (Hlt' & Hlen' & Hkept' & Hmono' & Hok' & Hpool').
    rewrite length_insert in Hlt'.
    assert (Hall1 : Forall (thread_ok files) threads →
                    Forall (thread_ok files1) (<[k := t1]> threads)).
    { intros Hall. apply Forall_insert.
      - eapply Forall_impl; [exact Hall|]. intros t0.
        apply thread_ok_mono; auto.
      - apply Hok. eapply Forall_lookup_1; eauto. }
    split; [exact Hlt'|]. split; [congruence|]. split; [eauto|].
    split; [auto|]. split; [auto|].
    intros [Hall Hfailed]. apply Hpool'. split; [auto|].
    intros Habandoned. destruct (Hab Habandoned) as [Hold|(Hex & Hex1 & Hret)].
    + eapply failed_insert; eauto.
    + exists k, t1.
      rewrite list_lookup_insert_eq by (eapply lookup_lt_Some; eauto).
      split; [reflexivity|]. split; [exact Hex1|]. rewrite Hret.
      pose proof (Forall_lookup_1 _ _ _ _ Hall Hk) as (_ & Hrunning & _).
      apply Hrunning, Hex.
Qed.

Lemma run_to_end_inv fuel :
  ∀ t files (st : mstate W) t' files' st',
    run_to_end fuel t files st = (Ok (t', files'), st') →
    length files' = length files ∧
    (∀ j, locked files j → locked files' j) ∧
    (thread_ok files t → thread_ok files' t').
Proof.
  induction fuel as [|fuel IH]; intros t files st t' files' st' Hrun;
    cbn [run_to_end] in Hrun.
  - injection Hrun as <- <- _. auto.
  - destruct (exited t); [injection Hrun as <- <- _; auto|].
    apply bind_Ok_inv in Hrun as ([t1 files1] & st1 & Hturn & Hrun).
    destruct (merge_files_turn_inv _ _ _ _ _ _ Hturn)
      as (Hlen & _ & Hmono & Hok & _).
    destruct (IH _ _ _ _ _ _ Hrun) as (Hlen' & Hmono' & Hok').
    split; [congruence|]. split; auto.
Qed.

Lemma join_from_inv n :
  ∀ k threads files (st : mstate W) threads' files' st',
    join_from k n threads files st = (Ok (threads', files'), st') →
    length threads' = length threads ∧
    length files' = length files ∧
    (∀ j, locked files j → locked files' j) ∧
    (Forall (thread_ok files) threads → Forall (thread_ok files') threads').
Proof.
  induction n as [|n IH]; intros k threads files st threads' files' st' Hrun;
    cbn [join_from] in Hrun.
  - injection Hrun as <- <- _. auto.
  - destruct (threads !! k) as [t|] eqn:Hk;
      [|injection Hrun as <- <- _; auto].
    apply bind_Ok_inv in Hrun as ([t1 files1] & st1 & Hend & Hrun).
    destruct (run_to_end_inv _ _ _ _ _ _ _ Hend) as (Hlen & Hmono & Hok).
    destruct (IH _ _ _ _ _ _ _ Hrun) as (Hlt' & Hlen' & Hmono' & Hok').
    rewrite length_insert in Hlt'.
    split; [exact Hlt'|]. split; [congruence|]. split; [auto|].
    intros Hall. apply Hok'.
    apply Forall_insert.
    + eapply Forall_impl; [exact Hall|]. intros t0. apply thread_ok_mono; auto.
    + apply Hok. eapply Forall_lookup_1; eauto.
Qed.

Lemma run_threads_inv threads files (st : mstate W) threads' files' st' :
  run_threads threads files st = (Ok (threads', files'), st') →
  length threads' = length threads ∧
  length files' = length files ∧
  (∀ j s, files' !! j = Some s → claimed s = false → files !! j = Some s) ∧
  (pool_ok threads files → pool_ok threads' files').
Proof.
  intros Hrun. destruct (run_threads_turns _ _ _ _ _ Hrun) as (ks & Hks).
  destruct (run_schedule_inv _ _ _ _ _ _ _ Hks)
    as (Ht & Hl & Hkept & _ & _ & Hpool).
  auto.
Qed.

(** An entry that is claimed is not changed by a turn. *)
Lemma merge_files_turn_final t files (st : mstate W) t' files' st' :
  merge_files_turn t files st = (Ok (t', files'), st') →
  ∀ j s, files !! j = Some s → claimed s = true → files' !! j = Some s.
Proof.
  intros Hturn j s0 Hj Hs0.
  destruct (merge_files_turn_cases t files st)
    as [[_ Hrun]|[(_ & _ & Hrun)|[(_ & _ & Hrun)
        |(_ & file & Hfile & Hlock & Hrun)]]];
    try (rewrite Hrun in Hturn; injection Hturn as _ <- _; exact Hj).
  assert (Hne : j ≠ next_file t).
  { intros ->. rewrite Hfile in Hj. injection Hj as <-. cbn in Hs0.
    congruence. }
  destruct (merge_one_file _ _ st) as [[file'|e] st1].
  - rewrite Hrun in Hturn. injection Hturn as _ <- _.
    rewrite list_lookup_insert_ne by auto. exact Hj.
  - destruct (elog_error e).
    + destruct Hrun as (s & _ & Hrun). rewrite Hrun in Hturn.
      injection Hturn as _ <- _.
      rewrite list_lookup_insert_ne by auto. exact Hj.
    + rewrite Hrun in Hturn. discriminate.
Qed.

Lemma run_schedule_final sched :
  ∀ threads files (st : mstate W) threads' files' st',
    run_schedule sched threads files st = (Ok (threads', files'), st') →
    ∀ j s, files !! j = Some s → claimed s = true → files' !! j = Some s.
Proof.
  induction sched as [|k sched IH]; intros threads files st threads' files' st'
    Hrun; cbn [run_schedule] in Hrun.
  - injection Hrun as _ <- _. auto.
  - destruct (threads !! k) as [t|] eqn:Hk; [|eauto].
    apply bind_Ok_inv in Hrun as ([t1 files1] & st1 & Hturn & Hrun).
    intros j s Hj Hs. eapply IH; [exact Hrun| |exact Hs].
    eapply merge_files_turn_final; eauto.
Qed.

(** X10: whatever the state of the workers and of the manifest they are
    run from, whatever the order of their turns, and whether or not one of
    them fails, the manifest keeps its length and every entry of it is,
    when the workers have been joined, either exactly as it was or an
    entry that was unclaimed and has been claimed in between: a worker
    changes nothing of an entry that it has not claimed, and an entry that
    is claimed is changed by no other worker. *)
Theorem workers_change_only_entries_they_claim (threads : list thread)
    (files : list slot) (st : mstate W) threads' files' st' :
  run_threads threads files st = (Ok (threads', files'), st') →
  length files' = length files ∧
  ∀ j s, files !! j = Some s →
    files' !! j = Some s ∨
    (claimed s = false ∧ ∃ s', files' !! j = Some s' ∧ claimed s' = true).
Proof.
  intros Hrun. destruct (run_threads_turns _ _ _ _ _ Hrun) as (ks & Hks).
  destruct (run_schedule_inv _ _ _ _ _ _ _ Hks) as (_ & Hlen & Hkept & _).
  split; [exact Hlen|]. intros j s Hj.
  destruct (claimed s) eqn:Hs.
  - left. eapply run_schedule_final; eauto.
  - destruct (files' !! j) as [s'|] eqn:Hj'.
    + destruct (claimed s') eqn:Hs'; [right; eauto|].
      left. rewrite (Hkept j s' Hj' Hs') in Hj. exact Hj.
    + apply lookup_ge_None in Hj'. apply lookup_lt_Some in Hj. lia.
Qed.

Lemma fresh_thread_ok files t : fresh t → thread_ok files t.
Proof.
  intros (Hnext & Hex & Hret). split; [right; exact Hret|]. split.
  - intros _. split; [exact Hret|]. intros j Hj. lia.
  - rewrite Hret. discriminate.
Qed.

Lemma fresh_pool_ok threads (files : list pgFile) :
  Forall fresh threads → pool_ok threads (Entry <$> files).
Proof.
  intros Hfresh. split.
  - eapply Forall_impl; [exact Hfresh|]. apply fresh_thread_ok.
  - intros (j & Hj). rewrite list_lookup_fmap in Hj.
    destruct (files !! j); discriminate.
Qed.

Lemma entries_whole files :
  Forall (λ s, ∃ file, s = Entry file ∧ pgFile.lock file = true) files →
  length (entries files) = length files ∧
  Forall (λ file, pgFile.lock file = true) (entries files).
Proof.
  induction 1 as [|s files (file & -> & Hlock) _ [IHlen IHall]];
    [split; [reflexivity|constructor]|].
  change (entries (Entry file :: files)) with (file :: entries files).
  split; [cbn [length]; congruence|]. constructor; assumption.
Qed.

(** X11: when the join reports success and there is at least one worker,
    every entry of the source manifest has been claimed by a worker: none
    is left out, whatever the order of the turns. *)
Theorem every_entry_claimed (threads : list thread) (files : list pgFile)
    (st : mstate W) files' st' :
  threads ≠ [] →
  Forall fresh threads →
  start_and_wait_threads threads files st = (Ok files', st') →
  length files' = length files ∧
  Forall (λ file, pgFile.lock file = true) files'.
Proof.
  intros Hne Hfresh Hrun. unfold start_and_wait_threads in Hrun.
  apply bind_Ok_inv in Hrun as ([threads1 files1] & st1 & Hthreads & Hrun).
  destruct (negb (merge_isok threads1)) eqn:Hisok; [discriminate|].
  injection Hrun as <- _.
  apply negb_false_iff in Hisok.
  destruct (run_threads_inv _ _ _ _ _ _ Hthreads) as (Hlt & Hlen & _ & Hpool).
  destruct (Hpool (fresh_pool_ok _ _ Hfresh)) as [Hall Habandoned].
  rewrite length_fmap in Hlen.
  assert (Hnone : ¬ failed threads1).
  { intros (k & t & Hk & _ & Hret).
    rewrite (merge_isok_false _ _ _ Hk Hret) in Hisok. discriminate. }
  destruct threads1 as [|t threads1];
    [destruct threads; [congruence|discriminate]|].
  apply Forall_cons in Hall as [(Hret & _ & Hdone) _].
  unfold merge_isok in Hisok. cbn in Hisok.
  apply andb_true_iff in Hisok as [Ht _].
  apply negb_true_iff, Z.eqb_neq in Ht.
  destruct Hret as [Hzero|Hone]; [|contradiction].
  destruct (entries_whole files1) as [Hwhole Hlocks]; [|split; congruence].
  apply Forall_lookup. intros j s Hj.
  destruct (Hdone Hzero j (lookup_lt_Some _ _ _ Hj)) as (s0 & Hs0 & Hc).
  rewrite Hj in Hs0. injection Hs0 as <-.
  destruct s as [file|]; [exists file; auto|].
  exfalso. apply Hnone, Habandoned. eauto.
Qed.

Lemma emits_bind_returns {A B} P (Q : A → Prop) (m : M W A) (k : A → M W B) :
  returns Q m → emits P m → (∀ a, Q a → emits P (k a)) → emits P (m ≫= k).
Proof.
  intros HQ Hm Hk st. rewrite bind_run.
  destruct (Hm st) as (evs & Hevs & Hall).
  destruct (m st) as [[a|e] st1] eqn:Em; cbn in Hevs |- *.
  - destruct (Hk a (HQ _ _ _ Em) st1) as (evs' & Hevs' & Hall').
    exists (evs ++ evs'). rewrite Hevs', Hevs, app_assoc.
    split; [reflexivity|]. apply Forall_app; auto.
  - exists evs. auto.
Qed.

Lemma emits_nothing P : ∀ st : mstate W,
  ∃ evs, trace st = trace st ++ evs ∧ Forall P evs.
Proof.
  intros st. exists []. rewrite app_nil_r. split; [reflexivity|constructor].
Qed.

Lemma merge_one_file_calls argument file :
  emits (W := W) (worker_call (to_root argument) (to_extra_prefix argument))
    (merge_one_file argument file).
Proof.
  unfold merge_one_file.
  apply emits_bind; [intros st; apply emits_nothing|intros stop].
  destruct stop; [apply emits_raise|].
  destruct (S_ISDIR (pgFile.mode file)); [apply emits_ret|].
  destruct ((pgFile.write_size file =? BYTES_INVALID) &&
            (pgFile.n_blocks file =? -1)).
  { destruct (parray_bsearch _ _); apply emits_ret. }
  apply emits_bind; [|intros; apply emits_ret].
  destruct (pgFile.is_datafile file && negb (pgFile.is_cfs file)).
  { unfold merge_data_file.
    destruct (bool_decide _ || bool_decide _).
    - apply emits_bind; [|intros _].
      { destruct (parray_bsearch _ _); [|apply emits_ret].
        apply emits_io. intros r. cbn. right. eauto. }
      apply emits_bind; [|intros _].
      { apply emits_io. intros r. cbn. right. eauto. }
      apply emits_bind; [|intros sz].
      { apply emits_io. intros r. exact I. }
      apply emits_bind; [|intros file'].
      { apply emits_io. intros r. cbn. eauto. }
      apply emits_bind; [|intros rc].
      { apply emits_io. intros r. cbn. eauto. }
      destruct (negb (rc =? 0)); [apply emits_raise|apply emits_ret].
    - apply emits_bind; [|intros _].
      { apply emits_io. intros r. cbn. left. eauto. }
      apply emits_bind; [|intros ws].
      { apply emits_io. intros r. exact I. }
      apply emits_bind; [|intros c; apply emits_ret].
      apply emits_io. intros r. exact I. }
  destruct (String.eqb (pgFile.name file) "pg_control").
  { apply emits_bind; [|intros; apply emits_ret].
    apply emits_io. intros r. reflexivity. }
  destruct (negb (pgFile.extra_dir_num file =? 0)).
  { unfold merge_extra_file. destruct (from_extra argument);
      [|apply emits_raise].
    apply emits_bind; [|intros new_dir_num].
    { destruct (parray_get _ _); [apply emits_ret|].
      destruct l; [apply emits_ret|apply emits_raise]. }
    apply emits_bind; [|intros; apply emits_ret].
    apply emits_io. intros r. cbn. eauto. }
  apply emits_bind; [|intros; apply emits_ret].
  apply emits_io. intros r. cbn. eauto.
Qed.

(** A turn changes nothing of the worker's argument but [ret]. *)
Lemma merge_files_turn_writes_to root prefix t files :
  writes_to root prefix t →
  returns (W := W) (λ out, writes_to root prefix out.1)
    (merge_files_turn t files).
Proof.
  intros Ht st [t' files'] st' Hturn.
  destruct (merge_files_turn_cases t files st)
    as [[_ Hrun]|[(_ & _ & Hrun)|[(_ & _ & Hrun)
        |(_ & file & _ & _ & Hrun)]]];
    try (rewrite Hrun in Hturn; injection Hturn as <- _ _; exact Ht).
  destruct (merge_one_file _ _ st) as [[file'|e] st1].
  - rewrite Hrun in Hturn. injection Hturn as <- _ _. exact Ht.
  - destruct (elog_error e).
    + destruct Hrun as (s & _ & Hrun). rewrite Hrun in Hturn.
      injection Hturn as <- _ _. exact Ht.
    + rewrite Hrun in Hturn. discriminate.
Qed.

Lemma merge_files_turn_calls root prefix t files :
  writes_to root prefix t →
  emits (W := W) (worker_call root prefix) (merge_files_turn t files).
Proof.
  intros [<- <-] st. apply merge_files_turn_log. intros file.
  apply merge_one_file_calls.
Qed.

Lemma run_schedule_calls root prefix sched :
  ∀ threads files,
    Forall (writes_to root prefix) threads →
    returns (W := W) (λ out, Forall (writes_to root prefix) out.1)
      (run_schedule sched threads files) ∧
    emits (W := W) (worker_call root prefix)
      (run_schedule sched threads files).
Proof.
  induction sched as [|k sched IH]; intros threads files Hall;
    cbn [run_schedule].
  - split; [apply returns_ret; exact Hall|apply emits_ret].
  - destruct (threads !! k) as [t|] eqn:Hk; [|auto].
    pose proof (Forall_lookup_1 _ _ _ _ Hall Hk) as Ht.
    split.
    + eapply returns_bind; [apply merge_files_turn_writes_to; exact Ht|].
      intros [t' files'] Ht'. apply IH, Forall_insert; assumption.
    + eapply emits_bind_returns;
        [apply merge_files_turn_writes_to; exact Ht
        |apply merge_files_turn_calls; exact Ht|].
      intros [t' files'] Ht'. apply IH, Forall_insert; assumption.
Qed.

Lemma run_to_end_calls root prefix fuel :
  ∀ t files,
    writes_to root prefix t →
    returns (W := W) (λ out, writes_to root prefix out.1)
      (run_to_end fuel t files) ∧
    emits (W := W) (worker_call root prefix) (run_to_end fuel t files).
Proof.
  induction fuel as [|fuel IH]; intros t files Ht; cbn [run_to_end].
  - split; [apply returns_ret; exact Ht|apply emits_ret].
  - destruct (exited t);
      [split; [apply returns_ret; exact Ht|apply emits_ret]|].
    split.
    + eapply returns_bind; [apply merge_files_turn_writes_to; exact Ht|].
      intros [t' files'] Ht'. apply IH; assumption.
    + eapply emits_bind_returns;
        [apply merge_files_turn_writes_to; exact Ht
        |apply merge_files_turn_calls; exact Ht|].
      intros [t' files'] Ht'. apply IH; assumption.
Qed.

Lemma join_from_calls root prefix n :
  ∀ k threads files,
    Forall (writes_to root prefix) threads →
    emits (W := W) (worker_call root prefix) (join_from k n threads files).
Proof.
  induction n as [|n IH]; intros k threads files Hall; cbn [join_from].
  - apply emits_ret.
  - destruct (threads !! k) as [t|] eqn:Hk; [|apply emits_ret].
    pose proof (Forall_lookup_1 _ _ _ _ Hall Hk) as Ht.
    destruct (run_to_end_calls root prefix (S (length files)) t files Ht)
      as [Hret Hcalls].
    eapply emits_bind_returns; [exact Hret|exact Hcalls|].
    intros [t' files'] Ht'. apply IH, Forall_insert; assumption.
Qed.


End Executor.

Lemma workers_change_only_entries_they_claim_witness :
  ∃ threads' files' st',
    run_threads [FailingWorker.worker] (Entry <$> FailingWorker.files)
      (Sim.start FailingWorker.world) = (Ok (threads', files'), st') ∧
    claimed <$> files' = [true; false] ∧
    length files' = length (Entry <$> FailingWorker.files) ∧
    ∀ j s, (Entry <$> FailingWorker.files) !! j = Some s →
      files' !! j = Some s ∨
      (claimed s = false ∧ ∃ s', files' !! j = Some s' ∧ claimed s' = true).
Proof.
  eexists _, _, _. split; [vm_compute; reflexivity|].
  split; [reflexivity|].
  eapply (workers_change_only_entries_they_claim [FailingWorker.worker]
            (Entry <$> FailingWorker.files) (Sim.start FailingWorker.world)).
  vm_compute. reflexivity.
Defined.

Lemma every_entry_claimed_witness :
  ∃ files' st',
    start_and_wait_threads TwoWorkers.threads TwoWorkers.files
      (Sim.start TwoWorkers.world) = (Ok files', st') ∧
    length files' = length TwoWorkers.files ∧
    Forall (λ file, pgFile.lock file = true) files'.
Proof.
  eexists _, _. split; [vm_compute; reflexivity|].
  eapply (every_entry_claimed TwoWorkers.threads TwoWorkers.files
            (Sim.start TwoWorkers.world)).
  - discriminate.
  - repeat constructor.
  - vm_compute. reflexivity.
Defined.


(** ** The deletion of the source backup *)

Lemma parray_bsearch_None files key :
  parray_bsearch files key = None ↔
  pgFile.path key ∉ pgFile.path <$> files.
Proof.
  unfold parray_bsearch. induction files as [|f files IH]; cbn.
  - split; [intros _; apply not_elem_of_nil | reflexivity].
  - rewrite not_elem_of_cons, <- IH.
    destruct (String.eqb_spec (pgFile.path f) (pgFile.path key)) as [E|E].
    + split; [discriminate | intros [Hne _]; congruence].
    + split; [intros Hf; split; [congruence | exact Hf] | intros [_ Hf]; exact Hf].
Qed.

Lemma parray_bsearch_sorted_None files key :
  parray_bsearch (parray_qsort pgFileComparePathDesc files) key = None ↔
  pgFile.path key ∉ pgFile.path <$> files.
Proof.
  rewrite parray_bsearch_None.
  rewrite (parray_qsort_perm pgFileComparePathDesc files). reflexivity.
Qed.

Lemma deletions_snoc log e :
  deletion_asked e = None → deletions (log ++ [e]) = deletions log.
Proof.
  intros He. unfold deletions. rewrite omap_app. cbn. rewrite He.
  apply app_nil_r.
Qed.

Section DeleteSource.
Context {W : Type} `{Collaborators W}.

Lemma delete_stale_files_calls root to_extra from_extra files all to_files :
  to_files ⊆ all →
  emits (W := W) (stale_deletion root files all)
    (delete_stale_files root to_extra from_extra
       (parray_qsort pgFileComparePathDesc files) to_files).
Proof.
  induction to_files as [|file rest IH]; intros Hsub;
    cbn [delete_stale_files]; [apply emits_ret|].
  apply emits_bind.
  { destruct (negb _); [|apply emits_ret].
    destruct to_extra as [l|]; [|apply emits_raise].
    destruct (parray_get _ _); [apply emits_ret|].
    destruct from_extra as [[|]|];
      try apply emits_ret; apply emits_raise. }
  intros already_removed. apply emits_bind.
  - destruct already_removed; [apply emits_ret|].
    destruct (parray_bsearch _ file) eqn:Hsearch; [apply emits_ret|].
    apply emits_io. intros r. cbn.
    split; [apply Hsub; left|]. split; [reflexivity|].
    intros f Hf Hpath. apply parray_bsearch_sorted_None in Hsearch.
    apply Hsearch. rewrite <- Hpath. apply list_elem_of_fmap_2. exact Hf.
  - intros _. apply IH. intros f Hf. apply Hsub. right. exact Hf.
Qed.


Lemma delete_stale_files_deletions root to_extra from_extra files to_files :
  Forall (λ file, pgFile.extra_dir_num file = 0) to_files →
  ∀ (st st' : mstate W),
    delete_stale_files root to_extra from_extra
      (parray_qsort pgFileComparePathDesc files) to_files st = (Ok tt, st') →
    deletions (trace st')
    = deletions (trace st)
      ++ ((λ f, join_path_components root (pgFile.path f))
            <$> stale_entries files to_files).
Proof.
  unfold stale_entries.
  induction 1 as [|file rest Hnum _ IH]; intros st st' Hrun;
    cbn [delete_stale_files] in Hrun.
  - injection Hrun as <-. cbn. rewrite app_nil_r. reflexivity.
  - rewrite Hnum in Hrun. cbn [Z.eqb negb] in Hrun.
    apply bind_Ok_inv in Hrun as (removed & st1 & Hremoved & Hrun).
    injection Hremoved as <- <-.
    apply bind_Ok_inv in Hrun as ([] & st1 & Hdelete & Hrun).
    rewrite (IH _ _ Hrun). rewrite filter_cons.
    destruct (parray_bsearch _ file) as [found|] eqn:Hsearch.
    + injection Hdelete as <-.
      rewrite decide_False; [reflexivity|].
      intros Hstale. apply parray_bsearch_sorted_None in Hstale. congruence.
    + apply io_inv in Hdelete as (rep & w & _ & -> & _).
      rewrite decide_True by (apply parray_bsearch_sorted_None; exact Hsearch).
      cbn [trace]. unfold deletions. rewrite omap_app, <- app_assoc.
      reflexivity.
Qed.


End DeleteSource.


(** ** The phases of a pair merge *)

Section Phases.
Context {W : Type} `{Collaborators W}.

Lemma phased_done {A} (R : list event → Prop) (m : M W A) :
  R [] → emits preparation m → phased R m.
Proof.
  intros HR Hm st. destruct (Hm st) as (evs & Hevs & Hall).
  exists evs, []. rewrite app_nil_r. auto.
Qed.

Lemma phased_rest {A} (R : list event → Prop) (m : M W A) :
  (∀ st, ∃ rest, trace (m st).2 = trace st ++ rest ∧ R rest) → phased R m.
Proof.
  intros Hm st. destruct (Hm st) as (rest & Hrest & HR).
  exists [], rest. auto.
Qed.

Lemma phased_bind {A B} (R : list event → Prop) (Q : A → Prop) (m : M W A)
    (k : A → M W B) :
  R [] → returns Q m → emits preparation m →
  (∀ a, Q a → phased R (k a)) → phased R (m ≫= k).
Proof.
  intros HR HQ Hm Hk st. rewrite bind_run.
  destruct (Hm st) as (evs & Hevs & Hall).
  destruct (m st) as [[a|e] st1] eqn:Em; cbn in Hevs |- *.
  - destruct (Hk a (HQ _ _ _ Em) st1) as (pre & rest & Htrace & Hpre & Hrest).
    exists (evs ++ pre), rest. rewrite Htrace, Hevs, <- !app_assoc.
    split; [reflexivity|]. split; [apply Forall_app; auto | exact Hrest].
  - exists evs, []. rewrite app_nil_r. auto.
Qed.

(** The first event of a call followed by more. *)
Lemma io_then {R A} (c : call R) (k : R → M W A)
    (T Q : list event → Prop) :
  T [] → (∀ r evs, T evs → Q (Called c r :: evs)) →
  (∀ a st1, ∃ evs, trace (k a st1).2 = trace st1 ++ evs ∧ T evs) →
  ∀ st, ∃ rest, trace ((io c ≫= k) st).2 = trace st ++ rest ∧ Q rest.
Proof.
  intros HT HQ Hk st. rewrite bind_run, io_run.
  destruct (respond R c (world st)) as [[a|] w]; cbv beta iota zeta.
  - destruct (Hk a (MState w (trace st ++ [Called c (Returned a)])))
      as (evs & -> & Hevs).
    exists (Called c (Returned a) :: evs). cbn [trace].
    rewrite <- app_assoc. split; [reflexivity|]. apply HQ, Hevs.
  - exists [Called c Raises]. split; [reflexivity|]. apply HQ, HT.
Qed.

Lemma emits_any {A} P (m : M W A) :
  emits P m → ∀ st, ∃ evs, trace (m st).2 = trace st ++ evs ∧ True.
Proof.
  intros Hm st. destruct (Hm st) as (evs & Hevs & _). eauto.
Qed.

Lemma emits_weaken {A} (P Q : event → Prop) (m : M W A) :
  (∀ e, P e → Q e) → emits P m → emits Q m.
Proof.
  intros HPQ Hm st. destruct (Hm st) as (evs & Hevs & Hall).
  exists evs. split; [exact Hevs|]. eapply Forall_impl; eauto.
Qed.

Lemma validate_preparation backup :
  emits (W := W) preparation (validate backup).
Proof.
  unfold validate. apply emits_bind; [|intros; apply emits_ret].
  apply emits_io. intros r. exact I.
Qed.

Lemma returns_validate_id backup :
  returns (W := W)
    (λ b, pgBackup.start_time b = pgBackup.start_time backup)
    (validate backup).
Proof.
  unfold validate.
  eapply (returns_bind (λ _, True)); [apply returns_any | intros s _].
  apply returns_ret. reflexivity.
Qed.

(** X15: a pair merge changes nothing before it has recorded what it is
    about to do.  Its log is a preparation (the log line, the validations,
    the reading of the two manifests) followed, if anything follows, by the
    destination being recorded as MERGING and then the source being
    recorded as MERGING; or, when the validated source is DELETING, by the
    deletion of the files of the source.  Directories are created, files
    merged, renamed or deleted and manifests written only after that. *)
Theorem merge_backups_marks_before_changing (g : globals)
    (to_backup from_backup : pgBackup) :
  phased (W := W)
    (marks_first (pgBackup.start_time to_backup)
       (pgBackup.start_time from_backup))
    (merge_backups g to_backup from_backup).
Proof.
  unfold merge_backups. cbv zeta.
  apply (phased_bind _ (λ _, True)); [exact I | apply returns_any | |intros _ _].
  { apply emits_io. intros r. exact I. }
  apply (phased_bind _
           (λ b, pgBackup.start_time b = pgBackup.start_time to_backup));
    [exact I | | |intros to0 Hto0].
  { destruct (bool_decide _); [|apply returns_ret; reflexivity].
    eapply returns_bind; [apply returns_validate_id|].
    intros b Hb. destruct (bool_decide _);
      [apply returns_raise | apply returns_ret; exact Hb]. }
  { destruct (bool_decide _); [|apply emits_ret].
    apply emits_bind; [apply validate_preparation|].
    intros b. destruct (bool_decide _); [apply emits_raise|apply emits_ret]. }
  apply (phased_bind _ (λ _, True)); [exact I | apply returns_any | |intros _ _].
  { unfold Assert. destruct (_ || _); [apply emits_ret|].
    destruct (assert_enabled g); [apply emits_raise|apply emits_ret]. }
  apply (phased_bind _
           (λ b, pgBackup.start_time b = pgBackup.start_time from_backup));
    [exact I | apply returns_validate_id | apply validate_preparation
    |intros from0 Hfrom0].
  destruct (bool_decide (pgBackup.status from0 = BACKUP_STATUS_CORRUPT));
    [apply phased_done; [exact I|apply emits_raise]|].
  apply (phased_bind _ (λ _, True));
    [exact I | apply returns_any | |intros to_files _].
  { apply emits_io. intros r. exact I. }
  apply (phased_bind _ (λ _, True));
    [exact I | apply returns_any | |intros files _].
  { apply emits_io. intros r. exact I. }
  apply phased_rest.
  destruct (bool_decide (pgBackup.status from0 = BACKUP_STATUS_DELETING))
    eqn:Hdeleting.
  - apply bool_decide_eq_true in Hdeleting.
    unfold delete_source_backup. cbv zeta.
    apply (io_then _ _ (λ _, True)); [exact I | cbn; auto |].
    intros status st1. apply (emits_any quiet).
    emits_all. apply emits_delete_stale_files.
  - apply (io_then _ _
             (λ evs, match evs with
                     | [] => True
                     | Called (write_backup_status backup') _ :: _ =>
                         pgBackup.start_time backup'
                         = pgBackup.start_time from_backup ∧
                         pgBackup.status backup' = BACKUP_STATUS_MERGING
                     | _ => False
                     end)); [exact I | cbn; auto |].
    intros [].
    apply (io_then _ _ (λ _, True)); [exact I | cbn; auto |].
    intros [] st1. apply (emits_any quiet).
    emits_all;
      auto using emits_validate, emits_Assert, emits_extra_directory_list,
        emits_reorder_extra_dirs, emits_setup_files,
        emits_start_and_wait_threads, emits_update_to_backup_metadata,
        emits_delete_source_backup.
Qed.

End Phases.

(** ** What a pair merge leaves *)

Section Leaves.
Context {W : Type} `{Collaborators W}.

Lemma io_Ok_inv {R} (c : call R) (st : mstate W) a st' :
  io c st = (Ok a, st') →
  trace st' = trace st ++ [Called c (Returned a)].
Proof.
  intros Hio. apply io_inv in Hio as (rep & w & _ & -> & Hr).
  destruct rep; [injection Hr as ->; reflexivity | discriminate].
Qed.

Lemma leaves_bind {A B} (Q : B → mstate W → Prop) (m : M W A)
    (k : A → M W B) :
  (∀ a, leaves Q (k a)) → leaves Q (m ≫= k).
Proof.
  intros Hk st b st' Hrun.
  apply bind_Ok_inv in Hrun as (a & st1 & _ & Hrun). eapply Hk, Hrun.
Qed.

Lemma delete_source_backup_ends to_backup from_backup to_id from_id to_extra
    from_extra files to_files :
  leaves (W := W)
    (λ out st',
       ∃ log rc,
         trace st'
         = log ++ [Called (rename (pgBackupGetPath to_id None)
                             (pgBackupGetPath from_id None)) (Returned rc);
                   Called (write_backup out.1) (Returned tt)] ∧
         rc ≠ -1)
    (delete_source_backup to_backup from_backup to_id from_id to_extra
       from_extra files to_files).
Proof.
  intros st out st' Hrun. unfold delete_source_backup in Hrun.
  apply bind_Ok_inv in Hrun as (status & ? & _ & Hrun). cbv zeta in Hrun.
  do 2 (apply bind_Ok_inv in Hrun as (? & ? & _ & Hrun)).
  apply bind_Ok_inv in Hrun as (rc & st4 & Hrename & Hrun).
  apply io_Ok_inv in Hrename.
  destruct (Z.eqb_spec rc (-1)) as [|Hrc]; [discriminate|].
  apply bind_Ok_inv in Hrun as ([] & st5 & Hwrite & Hrun).
  apply io_Ok_inv in Hwrite. injection Hrun as <- <-.
  eexists _, rc. split; [|exact Hrc].
  rewrite Hwrite, Hrename, <- app_assoc. reflexivity.
Qed.

(** X16: a pair merge that returns has ended by renaming the directory of
    the destination to the ID of the source and then, as its last act,
    writing the descriptor of the destination under that ID: the
    destination it returns is the one it wrote, and it bears the ID of the
    source. *)
Theorem merge_backups_ends_with_rename (g : globals)
    (to_backup from_backup : pgBackup) (st st' : mstate W)
    (out : pgBackup * pgBackup) :
  merge_backups g to_backup from_backup st = (Ok out, st') →
  pgBackup.start_time out.1 = pgBackup.start_time from_backup ∧
  ∃ log rc,
    trace st'
    = log ++ [Called (rename (pgBackupGetPath (pgBackup.start_time to_backup)
                                None)
                        (pgBackupGetPath (pgBackup.start_time from_backup)
                           None)) (Returned rc);
              Called (write_backup out.1) (Returned tt)] ∧
    rc ≠ -1.
Proof.
  intros Hrun. split; [apply (merge_backups_ids _ _ _ _ _ _ Hrun)|].
  revert st out st' Hrun. unfold merge_backups. cbv zeta.
  do 4 (apply leaves_bind; intros ?).
  destruct (bool_decide _); [discriminate|].
  do 2 (apply leaves_bind; intros ?).
  destruct (bool_decide _); [apply delete_source_backup_ends|].
  do 8 (apply leaves_bind; intros ?).
  apply leaves_bind. intros [to1 from1].
  do 2 (apply leaves_bind; intros ?).
  apply delete_source_backup_ends.
Qed.

Lemma validate_restatused backup (st : mstate W) b st' :
  validate backup st = (Ok b, st') → restatused backup b.
Proof.
  intros Hrun. unfold validate in Hrun.
  apply bind_Ok_inv in Hrun as (s & st1 & _ & Hrun).
  injection Hrun as <- _. exists s. reflexivity.
Qed.

Lemma delete_source_backup_calls to_backup from_backup to_id from_id to_extra
    from_extra files to_files :
  emits (W := W) resume_call
    (delete_source_backup to_backup from_backup to_id from_id to_extra
       from_extra files to_files).
Proof.
  unfold delete_source_backup.
  apply emits_bind; [apply emits_io; intros r; exact I | intros status].
  cbv zeta.
  apply emits_bind; [|intros _].
  { generalize (parray_qsort pgFileComparePathDesc files). intros sorted.
    induction to_files as [|file rest IH]; cbn [delete_stale_files];
      [apply emits_ret|].
    apply emits_bind.
    { destruct (negb _); [|apply emits_ret].
      destruct to_extra as [l|]; [|apply emits_raise].
      destruct (parray_get _ _); [apply emits_ret|].
      destruct from_extra as [[|]|];
        try apply emits_ret; apply emits_raise. }
    intros already_removed. apply emits_bind; [|intros _; exact IH].
    destruct already_removed; [apply emits_ret|].
    destruct (parray_bsearch _ _); [apply emits_ret|].
    apply emits_io. intros r. exact I. }
  apply emits_bind; [apply emits_io; intros r; exact I | intros _].
  apply emits_bind; [apply emits_io; intros r; exact I | intros rc].
  destruct (rc =? -1); [apply emits_raise|].
  apply emits_bind; [apply emits_io; intros r; exact I | intros _].
  apply emits_ret.
Qed.

Lemma status_written_app evs1 evs2 :
  status_written (evs1 ++ evs2) = status_written evs1 || status_written evs2.
Proof. apply existsb_app. Qed.

Lemma resume_call_no_status evs :
  Forall resume_call evs → status_written evs = false.
Proof.
  unfold status_written.
  induction 1 as [|[R c r] evs He _ IH]; [reflexivity|].
  cbn [existsb]. rewrite IH. destruct c; try reflexivity; destruct He.
Qed.

(** The two ways in which a pair merge returns: the resumed deletion of a
    source that the validation gave as DELETING, which writes no status;
    or the whole merge, which writes one and leaves the descriptors
    below. *)
Lemma merge_backups_inv g to_backup from_backup (st : mstate W) to' from' st' :
  merge_backups g to_backup from_backup st = (Ok (to', from'), st') →
  ∃ evs, trace st' = trace st ++ evs ∧
    ((status_written evs = false ∧
      (∃ s, to' = pgBackup.set_start_time (pgBackup.start_time from_backup)
                    (pgBackup.set_status s to_backup)) ∧
      restatused from_backup from' ∧
      Forall resume_call evs) ∨
     (status_written evs = true ∧
      to' = pgBackup.mk
              (pgBackup.start_time from_backup)
              INVALID_BACKUP_ID
              BACKUP_STATUS_OK
              (pgBackup.backup_mode to_backup)
              (pgBackup.start_lsn from_backup)
              (pgBackup.stop_lsn from_backup)
              (pgBackup.recovery_time from_backup)
              (pgBackup.recovery_xid from_backup)
              (pgBackup.extra_dir_str from_backup)
              (pgBackup.stream to_backup && pgBackup.stream from_backup)
              (pgBackup.data_bytes to')
              (pgBackup.wal_bytes to')
              (pgBackup.compress_alg to_backup)
              (pgBackup.compress_level to_backup)
              (pgBackup.program_version to_backup) ∧
      ∃ status,
        from' = pgBackup.set_extra_dir_str None
                  (pgBackup.set_status status from_backup))).
Proof.
  intros Hrun. unfold merge_backups in Hrun. cbv zeta in Hrun.
  assert (Hweak : ∀ e, preparation e → resume_call e)
    by (intros [? [] ?]; cbn; auto).
  apply bind_Ok_inv in Hrun as ([] & st1 & Hlog & Hrun).
  apply io_Ok_inv in Hlog.
  apply bind_Ok_inv in Hrun as (to0 & st2 & Hto & Hrun).
  assert (Hto0 : restatused to_backup to0 ∧
                 ∃ evs, trace st2 = trace st1 ++ evs ∧ Forall resume_call evs).
  { destruct (bool_decide (pgBackup.status to_backup = BACKUP_STATUS_OK)).
    - apply bind_Ok_inv in Hto as (b & st1' & Hvalidate & Hto).
      destruct (bool_decide _); [discriminate|]. injection Hto as <- <-.
      split; [eapply validate_restatused; exact Hvalidate|].
      eapply emits_run; [|exact Hvalidate].
      eapply emits_weaken; [exact Hweak | apply validate_preparation].
    - injection Hto as <- <-. split; [exists (pgBackup.status to_backup)|].
      + destruct to_backup; reflexivity.
      + exists []. rewrite app_nil_r. split; [reflexivity|constructor]. }
  destruct Hto0 as (Hto0 & evs2 & Hevs2 & Hall2).
  apply bind_Ok_inv in Hrun as ([] & st3 & Hassert & Hrun).
  assert (st3 = st2) as ->.
  { unfold Assert in Hassert. destruct (_ || _);
      [injection Hassert as <-; reflexivity|].
    destruct (assert_enabled g); [discriminate|].
    injection Hassert as <-; reflexivity. }
  apply bind_Ok_inv in Hrun as (from0 & st4 & Hfrom & Hrun).
  pose proof (validate_restatused _ _ _ _ Hfrom) as Hfrom0.
  destruct (emits_run _ _ _ _ _ (validate_preparation from_backup) Hfrom)
    as (evs4 & Hevs4 & Hall4).
  destruct (bool_decide (pgBackup.status from0 = BACKUP_STATUS_CORRUPT));
    [discriminate|].
  apply bind_Ok_inv in Hrun as (to_files & st5 & Hread5 & Hrun).
  apply io_Ok_inv in Hread5.
  apply bind_Ok_inv in Hrun as (files & st6 & Hread6 & Hrun).
  apply io_Ok_inv in Hread6.
  clear Hto Hfrom.
  assert (Hpre : ∃ pre, trace st6 = trace st ++ pre ∧ Forall resume_call pre).
  { eexists. split.
    - rewrite Hread6, Hread5, Hevs4, Hevs2, Hlog. rewrite <- !app_assoc.
      reflexivity.
    - repeat (apply Forall_app; split); try assumption;
        try (repeat constructor).
      eapply Forall_impl; [exact Hall4 | exact Hweak]. }
  destruct Hpre as (pre & Hpre & Hallpre).
  clear Hread6 Hread5 Hevs4 Hevs2 Hlog.
  destruct (decide (pgBackup.status from0 = BACKUP_STATUS_DELETING))
    as [Hdeleting|Hdeleting];
    [rewrite bool_decide_eq_true_2 in Hrun by exact Hdeleting
    |rewrite bool_decide_eq_false_2 in Hrun by exact Hdeleting];
    destruct Hto0 as [sto ->]; destruct Hfrom0 as [sfrom ->].
  - destruct (delete_source_backup_inv _ _ _ _ _ _ _ _ _ _ _ Hrun)
      as (status & Hout).
    destruct (emits_run _ _ _ _ _
                (delete_source_backup_calls _ _ _ _ _ _ _ _) Hrun)
      as (evs7 & Hevs7 & Hall7).
    assert (Hall : Forall resume_call (pre ++ evs7))
      by (apply Forall_app; split; assumption).
    exists (pre ++ evs7).
    split; [rewrite Hevs7, Hpre, <- app_assoc; reflexivity|].
    left. split; [apply resume_call_no_status; exact Hall|].
    injection Hout as -> ->.
    split; [exists sto; reflexivity|]. split; [|exact Hall].
    exists status. destruct from_backup; reflexivity.
  - apply bind_Ok_inv in Hrun as ([] & st7 & Hwrite & Hrun).
    apply io_Ok_inv in Hwrite.
    assert (Hrest : ∃ evs, trace st' = trace st7 ++ evs ∧ Forall quiet evs).
    { eapply emits_run; [|exact Hrun].
      emits_all;
        auto using emits_validate, emits_Assert, emits_extra_directory_list,
          emits_reorder_extra_dirs, emits_setup_files,
          emits_start_and_wait_threads, emits_update_to_backup_metadata,
          emits_delete_source_backup. }
    destruct Hrest as (evs8 & Hevs8 & _).
    eexists (pre ++ Called (write_backup_status _) (Returned tt) :: evs8).
    split; [rewrite Hevs8, Hwrite, Hpre, <- !app_assoc; reflexivity|].
    right. split; [rewrite status_written_app; apply orb_true_r|].
    do 7 (apply bind_Ok_inv in Hrun as (? & ? & _ & Hrun)).
    apply bind_Ok_inv in Hrun as ([to1 from1] & st15 & Hupdate & Hrun).
    unfold update_to_backup_metadata in Hupdate.
    apply bind_Ok_inv in Hupdate as (wal & st14 & _ & Hupdate).
    injection Hupdate as <- <- _.
    do 2 (apply bind_Ok_inv in Hrun as (? & ? & _ & Hrun)).
    apply delete_source_backup_inv in Hrun as (status & Hout).
    injection Hout as -> ->.
    split; [reflexivity|]. exists status. destruct from_backup; reflexivity.
Qed.



End Leaves.

Lemma merge_backups_ends_with_rename_witness :
  ∃ out st' log rc,
    merge_backups Input.release Pair.to_backup Pair.from_backup
      (Sim.start Pair.world) = (Ok out, st') ∧
    pgBackup.start_time out.1 = 20 ∧
    trace st'
    = log ++ [Called (rename (pgBackupGetPath 10 None)
                        (pgBackupGetPath 20 None)) (Returned rc);
              Called (write_backup out.1) (Returned tt)] ∧
    rc ≠ -1.
Proof.
  assert (Hrun : ∃ out st',
            merge_backups Input.release Pair.to_backup Pair.from_backup
              (Sim.start Pair.world) = (Ok out, st'))
    by (eexists _, _; vm_compute; reflexivity).
  destruct Hrun as (out & st' & Hrun).
  destruct (merge_backups_ends_with_rename Input.release Pair.to_backup
              Pair.from_backup (Sim.start Pair.world) st' out Hrun)
    as (Hid & log & rc & Hlog & Hrc).
  exists out, st', log, rc. auto.
Defined.



(** ** The chain *)

Section ChainResult.
Context {W : Type} `{Collaborators W}.

(** The loop started at [i]: when it returns, the running full backup bears
    the ID the backup at [dest_backup_idx] had. *)
Lemma merge_chain_full_id g d f (ids : list Z) :
  ∀ i backups (st : mstate W) backups' st',
    (d ≤ i ≤ f)%nat → (d < f)%nat →
    (∀ k, (k < i)%nat → pgBackup.start_time <$> backups !! k = ids !! k) →
    pgBackup.start_time <$> backups !! f = ids !! i →
    merge_chain g d f i backups st = (Ok backups', st') →
    length backups' = length backups ∧
    pgBackup.start_time <$> backups' !! f = ids !! d.
Proof.
  induction i as [|i IH];
    intros backups st backups' st' Hi Hdf Hbelow Hfull Hrun;
    cbn [merge_chain] in Hrun.
  - injection Hrun as <- _. replace d with 0%nat by lia. auto.
  - case_bool_decide as Hd.
    2:{ injection Hrun as <- _. replace d with (S i) by lia. auto. }
    destruct (backups !! f) as [full_backup|] eqn:Ef; [|discriminate].
    destruct (backups !! i) as [from_backup|] eqn:Ei; [|discriminate].
    apply bind_Ok_inv in Hrun as ([full' from'] & st1 & Hmerge & Hrun).
    destruct (merge_backups_ids _ _ _ _ _ _ Hmerge) as [Hid_full _].
    cbn in Hid_full.
    pose proof (Hbelow i ltac:(lia)) as Hfrom. rewrite Ei in Hfrom.
    cbn in Hfrom.
    assert (Hnext : length backups' =
              length (<[f := full']> (<[i := from']> backups)) ∧
            pgBackup.start_time <$> backups' !! f = ids !! d);
      [eapply IH; [| | | |exact Hrun]; [lia|exact Hdf| |]
      |rewrite !length_insert in Hnext; exact Hnext].
    + intros k Hk. rewrite list_lookup_insert_ne by lia.
      rewrite list_lookup_insert_ne by lia. apply Hbelow. lia.
    + rewrite list_lookup_insert_eq
        by (rewrite length_insert; eapply lookup_lt_Some; eauto).
      cbn. rewrite Hid_full. exact Hfrom.
Qed.

(** X19: when the loop of [do_merge] returns, it has started one pair merge
    for each index from [full_backup_idx] down to [dest_backup_idx + 1], in
    that order, each time merging the backup just below into the running
    full backup under the ID of the backup merged just before; the catalog
    has kept its length and the full backup, still at [full_backup_idx],
    bears the ID of the destination backup. *)
Theorem merge_chain_full_takes_destination_id (g : globals)
    (dest_backup_idx full_backup_idx : nat) (backups : list pgBackup)
    (st : mstate W) (backups' : list pgBackup) (st' : mstate W) :
  (dest_backup_idx < full_backup_idx < length backups)%nat →
  merge_chain g dest_backup_idx full_backup_idx full_backup_idx backups st
  = (Ok backups', st') →
  length backups' = length backups ∧
  pgBackup.start_time <$> backups' !! full_backup_idx
  = pgBackup.start_time <$> backups !! dest_backup_idx ∧
  pair_merges (trace st')
  = pair_merges (trace st)
    ++ adjacent_pairs_down (pgBackup.start_time <$> backups) dest_backup_idx
         full_backup_idx ∧
  length (adjacent_pairs_down (pgBackup.start_time <$> backups)
            dest_backup_idx full_backup_idx)
  = (full_backup_idx - dest_backup_idx)%nat.
Proof.
  intros [Hdf Hf] Hrun.
  set (ids := pgBackup.start_time <$> backups).
  assert (Hids : ∀ k, pgBackup.start_time <$> backups !! k = ids !! k)
    by (intros k; unfold ids; rewrite list_lookup_fmap; reflexivity).
  destruct (merge_chain_full_id g dest_backup_idx full_backup_idx ids
              full_backup_idx backups st backups' st')
    as [Hlen Hid]; auto with lia.
  split; [exact Hlen|]. split; [rewrite Hid, Hids; reflexivity|]. split.
  - eapply merge_chain_pairs; [| | |exact Hrun]; auto.
  - apply adjacent_pairs_down_length. unfold ids. rewrite length_fmap.
    exact Hf.
Qed.

End ChainResult.

Lemma merge_chain_full_takes_destination_id_witness :
  ∃ backups' st',
    merge_chain Input.release 0 2 2 Chain3.catalog (Sim.start Chain3.world)
    = (Ok backups', st') ∧
    length backups' = 3%nat ∧
    pgBackup.start_time <$> backups' !! 2%nat = Some 30 ∧
    pair_merges (trace st') = [(10, 20); (20, 30)].
Proof.
  assert (Hrun : ∃ backups' st',
            merge_chain Input.release 0 2 2 Chain3.catalog
              (Sim.start Chain3.world) = (Ok backups', st'))
    by (eexists _, _; vm_compute; reflexivity).
  destruct Hrun as (backups' & st' & Hrun).
  destruct (merge_chain_full_takes_destination_id Input.release 0 2
              Chain3.catalog (Sim.start Chain3.world) backups' st')
    as (Hlen & Hid & Hpairs & _);
    [cbn; lia | exact Hrun |].
  exists backups', st'. auto.
Defined.

(** ** The scan of the catalog *)

Lemma scan_looking_next backup_id backups i s :
  scan_looking backup_id backups i s →
  scan_looking backup_id backups (S i) s.
Proof.
  intros [Hfull Hdest]. split; [exact Hfull|].
  destruct (dest_backup s); [|exact I].
  destruct Hdest as (? & ? & ?). auto with lia.
Qed.

Lemma status_not_rejected3 (s : BackupStatus) :
  negb (bool_decide (s = BACKUP_STATUS_OK))
  && negb (bool_decide (s = BACKUP_STATUS_MERGING))
  && negb (bool_decide (s = BACKUP_STATUS_DELETING)) = false →
  s = BACKUP_STATUS_OK ∨ s = BACKUP_STATUS_MERGING ∨
  s = BACKUP_STATUS_DELETING.
Proof. destruct s; cbn; auto; discriminate. Qed.

Lemma status_not_rejected2 (s : BackupStatus) :
  negb (bool_decide (s = BACKUP_STATUS_OK))
  && negb (bool_decide (s = BACKUP_STATUS_MERGING)) = false →
  s = BACKUP_STATUS_OK ∨ s = BACKUP_STATUS_MERGING.
Proof. destruct s; cbn; auto; discriminate. Qed.

Lemma scan_sound backup_id backups :
  ∀ rest i s s',
    (∀ j b, rest !! j = Some b → backups !! (i + j)%nat = Some b) →
    scan_looking backup_id backups i s →
    find_dest_and_full backup_id rest i s = Ok s' →
    full_backup s' ≠ None →
    scan_found backup_id backups s'.
Proof.
  induction rest as [|backup rest IH]; intros i s s' Hrest Hinv Hscan Hfound;
    cbn [find_dest_and_full] in Hscan; cbv zeta in Hscan.
  - injection Hscan as <-. destruct Hinv as [Hnone _]. contradiction.
  - assert (Hhere : backups !! i = Some backup)
      by (rewrite <- (Nat.add_0_r i); apply Hrest; reflexivity).
    assert (Hrest' : ∀ j b, rest !! j = Some b →
                            backups !! (S i + j)%nat = Some b).
    { intros j b Hj. replace (S i + j)%nat with (i + S j)%nat by lia.
      apply Hrest. exact Hj. }
    destruct (pgBackup.start_time backup >? backup_id);
      [eapply IH; eauto using scan_looking_next|].
    destruct Hinv as [Hfull Hdest].
    destruct ((pgBackup.start_time backup =? backup_id)
              && bool_decide (dest_backup s = None)) eqn:Hcond.
    + apply andb_true_iff in Hcond as [Hid Hnone].
      apply Z.eqb_eq in Hid.
      destruct (negb _ && negb _ && negb _) eqn:Hstatus; [discriminate|].
      apply status_not_rejected3 in Hstatus.
      case_bool_decide as Hmode; [discriminate|].
      eapply IH; [exact Hrest'| |exact Hscan|exact Hfound].
      split; [exact Hfull|]. cbn.
      repeat (split; [solve [auto with lia]|]).
      exists backup. split; [constructor|reflexivity].
    + destruct (dest_backup s) as [dest|] eqn:Edest; [|discriminate].
      destruct Hdest as (Hlookup & Hidx & Hid & Hstatus & Hmode & b & Hchain
                         & Hparent).
      destruct (negb (pgBackup.start_time backup =? prev_parent s)) eqn:Hlink.
      * eapply IH; [exact Hrest'| |exact Hscan|exact Hfound].
        apply scan_looking_next. split; [exact Hfull|]. rewrite Edest.
        eauto 10.
      * apply negb_false_iff, Z.eqb_eq in Hlink.
        assert (Hon : on_chain backups dest backup).
        { econstructor; [exact Hchain| |congruence].
          eapply list_elem_of_lookup_2. exact Hhere. }
        destruct (negb _ && negb _) eqn:Hst; [discriminate|].
        apply status_not_rejected2 in Hst.
        case_bool_decide as Hfullmode.
        -- injection Hscan as <-. exists dest, backup. cbn.
           try rewrite Edest. auto 12.
        -- eapply IH; [exact Hrest'| |exact Hscan|exact Hfound].
           split; [exact Hfull|]. cbn. try rewrite Edest.
           repeat (split; [solve [auto with lia]|]).
           exists backup. split; [exact Hon|reflexivity].
Qed.

(** X20: when the scan of [do_merge] ends having found a FULL backup, what
    it has found is sound: the destination is the backup of the catalog at
    [dest_backup_idx], it bears the requested ID, its status is OK, MERGING
    or DELETING and it is not FULL; the FULL backup is the backup at
    [full_backup_idx], further down the catalog, its status is OK or
    MERGING, and it is an ancestor of the destination by parent links. *)
Theorem find_dest_and_full_sound (backup_id : Z) (backups : list pgBackup)
    (s : scan) :
  find_dest_and_full backup_id backups 0 scan_init = Ok s →
  full_backup s ≠ None →
  scan_found backup_id backups s.
Proof.
  intros Hscan Hfound.
  eapply scan_sound; [| |exact Hscan|exact Hfound].
  - intros j b Hj. exact Hj.
  - split; [reflexivity|exact I].
Qed.

Lemma find_dest_and_full_sound_witness :
  scan_found 30 Chain3.catalog
    (Scan (Some Chain3.dest) 0 (Some Chain3.full) 2 10).
Proof.
  apply (find_dest_and_full_sound 30 Chain3.catalog);
    [vm_compute; reflexivity | discriminate].
Defined.

Lemma ancestors_older p chain :
  ancestors p chain →
  Forall (λ q, pgBackup.start_time q < pgBackup.start_time p) chain.
Proof.
  revert p. induction chain as [|q chain IH]; intros p Hp; [constructor|].
  destruct Hp as (_ & _ & _ & Hlt & Hq). constructor; [exact Hlt|].
  eapply Forall_impl; [apply IH; exact Hq|]. cbn. intros; lia.
Qed.

(** Below a backup of the catalog lie the backups older than it. *)
Lemma newest_first_below backup rest (older : list pgBackup) :
  newest_first (backup :: rest) →
  Forall (λ q, q ∈ backup :: rest) older →
  Forall (λ q, pgBackup.start_time q < pgBackup.start_time backup) older →
  Forall (λ q, q ∈ rest) older.
Proof.
  intros _ Hin Hlt. induction Hin as [|q older Hq _ IH]; [constructor|].
  apply Forall_cons in Hlt as [Hlt Hlts]. constructor; [|apply IH; exact Hlts].
  apply elem_of_cons in Hq as [->|Hq]; [lia|exact Hq].
Qed.

Lemma newest_first_head backup rest q :
  newest_first (backup :: rest) → q ∈ backup :: rest →
  pgBackup.start_time backup ≤ pgBackup.start_time q → q = backup.
Proof.
  intros [Hall _] Hq Hle.
  apply elem_of_cons in Hq as [->|Hq]; [reflexivity|].
  rewrite Forall_forall in Hall. specialize (Hall q Hq). cbn in Hall. lia.
Qed.

(** The scan once it has the destination: it follows the parents down to
    the FULL backup. *)
Lemma scan_follows backup_id dest :
  ∀ rest,
    newest_first rest →
    Forall (λ q, pgBackup.start_time q < backup_id) rest →
    ∀ p chain i s,
      dest_backup s = Some dest →
      prev_parent s = pgBackup.start_time p →
      ancestors p chain →
      Forall (λ q, q ∈ rest) (p :: chain) →
      ∃ s', find_dest_and_full backup_id rest i s = Ok s' ∧
            dest_backup s' = Some dest ∧
            dest_backup_idx s' = dest_backup_idx s ∧
            full_backup s' = last (p :: chain).
Proof.
  induction rest as [|backup rest IH];
    intros Hsorted Hbelow p chain i s Hdest Hparent Hchain Hin.
  { apply Forall_cons in Hin as [Hp _]. apply elem_of_nil in Hp as []. }
  pose proof Hsorted as [Hhead Hrest].
  apply Forall_cons in Hbelow as [Hid Hbelow].
  cbn [find_dest_and_full]. cbv zeta.
  replace (pgBackup.start_time backup >? backup_id) with false
    by (symmetry; rewrite Z.gtb_ltb; apply Z.ltb_ge; lia).
  replace (pgBackup.start_time backup =? backup_id) with false
    by (symmetry; apply Z.eqb_neq; lia).
  cbn [andb]. rewrite Hdest, Hparent.
  destruct (Z.eqb_spec (pgBackup.start_time backup) (pgBackup.start_time p))
    as [Hlink|Hlink]; cbn [negb].
  - assert (p = backup) as ->.
    { apply Forall_cons in Hin as [Hp _].
      eapply newest_first_head; [exact Hsorted|exact Hp|lia]. }
    destruct chain as [|q chain]; cbn [ancestors] in Hchain;
      destruct Hchain as [Hstatus Hchain];
      rewrite (parent_status_accepted _ Hstatus).
    + rewrite bool_decide_eq_true_2 by exact Hchain.
      eexists. split; [reflexivity|]. cbn. auto.
    + destruct Hchain as (Hmode & Hq & Hlt & Hchain).
      rewrite bool_decide_eq_false_2 by exact Hmode.
      destruct (IH Hrest Hbelow q chain (S i)
                  (Scan (Some dest) (dest_backup_idx s) (full_backup s)
                     (full_backup_idx s) (pgBackup.parent_backup backup)))
        as (s' & Hscan & Hd & Hi & Hf); [reflexivity|cbn; congruence
                                         |exact Hchain| |].
      * apply Forall_cons in Hin as [_ Hin].
        eapply newest_first_below; [exact Hsorted|exact Hin|].
        constructor; [exact Hlt|].
        eapply Forall_impl; [apply ancestors_older; exact Hchain|].
        cbn. intros; lia.
      * exists s'. rewrite Hscan. auto.
  - destruct (IH Hrest Hbelow p chain (S i) s)
      as (s' & Hscan & Hd & Hi & Hf); [assumption..| |eauto].
    assert (Hp : pgBackup.start_time p < pgBackup.start_time backup).
    { apply Forall_cons in Hin as [Hp _].
      apply elem_of_cons in Hp as [->|Hp]; [contradiction|].
      rewrite Forall_forall in Hhead. apply (Hhead p Hp). }
    eapply newest_first_below; [exact Hsorted|exact Hin|].
    constructor; [exact Hp|].
    eapply Forall_impl; [apply ancestors_older; exact Hchain|].
    cbn. intros; lia.
Qed.

Lemma scan_finds backup_id dest p chain :
  pgBackup.start_time dest = backup_id →
  (pgBackup.status dest = BACKUP_STATUS_OK ∨
   pgBackup.status dest = BACKUP_STATUS_MERGING ∨
   pgBackup.status dest = BACKUP_STATUS_DELETING) →
  pgBackup.backup_mode dest ≠ BACKUP_MODE_FULL →
  pgBackup.start_time p = pgBackup.parent_backup dest →
  pgBackup.start_time p < pgBackup.start_time dest →
  ancestors p chain →
  ∀ rest i s,
    newest_first rest →
    Forall (λ q, q ∈ rest) (dest :: p :: chain) →
    dest_backup s = None →
    ∃ s', find_dest_and_full backup_id rest i s = Ok s' ∧
          dest_backup s' = Some dest ∧
          full_backup s' = last (p :: chain).
Proof.
  intros Hid Hstatus Hmode Hparent Hlt Hchain.
  assert (Holder : Forall (λ q, pgBackup.start_time q
                                < pgBackup.start_time dest) (p :: chain)).
  { constructor; [exact Hlt|].
    eapply Forall_impl; [apply ancestors_older; exact Hchain|].
    cbn. intros; lia. }
  induction rest as [|backup rest IH]; intros i s Hsorted Hin Hnone.
  { apply Forall_cons in Hin as [Hd _]. apply elem_of_nil in Hd as []. }
  pose proof Hsorted as [Hhead Hrest].
  cbn [find_dest_and_full]. cbv zeta.
  destruct (Z.gtb_spec (pgBackup.start_time backup) backup_id) as [Hgt|Hle].
  - apply IH; [exact Hrest| |exact Hnone].
    eapply newest_first_below; [exact Hsorted|exact Hin|].
    constructor; [lia|].
    eapply Forall_impl; [exact Holder|]. cbn. intros; lia.
  - assert (dest = backup) as ->.
    { apply Forall_cons in Hin as [Hd _].
      eapply newest_first_head; [exact Hsorted|exact Hd|lia]. }
    rewrite Hid, Z.eqb_refl, Hnone. cbn [andb].
    rewrite bool_decide_eq_true_2 by reflexivity.
    rewrite (dest_status_accepted _ Hstatus).
    rewrite bool_decide_eq_false_2 by exact Hmode.
    destruct (scan_follows backup_id backup rest Hrest) with
      (p := p) (chain := chain) (i := S i)
      (s := Scan (Some backup) i (full_backup s) (full_backup_idx s)
              (pgBackup.parent_backup backup))
      as (s' & Hscan & Hd & _ & Hf).
    + rewrite <- Hid. exact Hhead.
    + reflexivity.
    + cbn. congruence.
    + exact Hchain.
    + apply Forall_cons in Hin as [_ Hin].
      eapply newest_first_below; [exact Hsorted|exact Hin|exact Holder].
    + exists s'. auto.
Qed.

(** X21: in a catalog in order of descending start time, the scan of
    [do_merge] finds what is there.  When the backup with the requested ID
    has a status a merge can start or resume from and is not FULL, and its
    successive parents are in the catalog, each older than its child and
    OK or MERGING, down to a FULL backup, the scan ends with that backup as
    the destination and that FULL backup as the full backup. *)
Theorem find_dest_and_full_complete (backup_id : Z)
    (backups : list pgBackup) (dest p : pgBackup) (chain : list pgBackup) :
  newest_first backups →
  Forall (λ q, q ∈ backups) (dest :: p :: chain) →
  pgBackup.start_time dest = backup_id →
  (pgBackup.status dest = BACKUP_STATUS_OK ∨
   pgBackup.status dest = BACKUP_STATUS_MERGING ∨
   pgBackup.status dest = BACKUP_STATUS_DELETING) →
  pgBackup.backup_mode dest ≠ BACKUP_MODE_FULL →
  pgBackup.start_time p = pgBackup.parent_backup dest →
  pgBackup.start_time p < pgBackup.start_time dest →
  ancestors p chain →
  ∃ s, find_dest_and_full backup_id backups 0 scan_init = Ok s ∧
       dest_backup s = Some dest ∧
       full_backup s = last (p :: chain).
Proof.
  intros Hsorted Hin Hid Hstatus Hmode Hparent Hlt Hchain.
  eapply scan_finds; eauto.
Qed.

Lemma find_dest_and_full_complete_witness :
  ∃ s, find_dest_and_full 30 Chain3.catalog 0 scan_init = Ok s ∧
       dest_backup s = Some Chain3.dest ∧
       full_backup s = Some Chain3.full.
Proof.
  apply (find_dest_and_full_complete 30 Chain3.catalog Chain3.dest
           Chain3.middle [Chain3.full]).
  - cbn. repeat split; repeat constructor.
  - repeat constructor.
  - reflexivity.
  - left. reflexivity.
  - discriminate.
  - reflexivity.
  - reflexivity.
  - cbn. repeat split; auto; discriminate.
Defined.

(** ** The destinations [do_merge] turns down *)

(** The scan passes over the backups newer than the requested one. *)
Lemma scan_skips_newer backup_id newer rest :
  Forall (λ b, backup_id < pgBackup.start_time b) newer →
  ∀ i s,
    find_dest_and_full backup_id (newer ++ rest) i s
    = find_dest_and_full backup_id rest (i + length newer)%nat s.
Proof.
  induction 1 as [|b newer Hb _ IH]; intros i s; cbn [app length].
  - rewrite Nat.add_0_r. reflexivity.
  - cbn [find_dest_and_full]. cbv zeta.
    replace (pgBackup.start_time b >? backup_id) with true
      by (symmetry; rewrite Z.gtb_ltb; apply Z.ltb_lt; lia).
    rewrite IH. f_equal. lia.
Qed.

(** X22: [do_merge] turns down, before it validates or changes anything, a
    destination it cannot merge.  When the first backup of the catalog
    that is not newer than the requested ID bears that ID, [do_merge] fails
    with "Backup has status" if its status is not OK, MERGING or DELETING,
    and with "Backup is full backup" if its status is one of these and it
    is FULL; in both cases all it has done is to log, to lock the catalog
    and to read it. *)
Theorem do_merge_turns_down_destination {W} `{Collaborators W} (g : globals)
    (backup_id : Z) (name : string) (st st1 : mstate W)
    (newer : list pgBackup) (dest : pgBackup) (older : list pgBackup) :
  backup_id ≠ INVALID_BACKUP_ID →
  instance_name g = Some name →
  open_catalog st = (Ok (newer ++ dest :: older), st1) →
  Forall (λ b, backup_id < pgBackup.start_time b) newer →
  pgBackup.start_time dest = backup_id →
  let accepted :=
    pgBackup.status dest = BACKUP_STATUS_OK ∨
    pgBackup.status dest = BACKUP_STATUS_MERGING ∨
    pgBackup.status dest = BACKUP_STATUS_DELETING in
  (¬ accepted →
   do_merge g backup_id st
   = (Err (ERROR (ErrBackupStatus backup_id (pgBackup.status dest))), st1)) ∧
  (accepted → pgBackup.backup_mode dest = BACKUP_MODE_FULL →
   do_merge g backup_id st = (Err (ERROR (ErrIsFull backup_id)), st1)).
Proof.
  intros Hid Hname Hopen Hnewer Hdest accepted.
  rewrite (do_merge_run g backup_id name st _ st1 Hid Hname Hopen).
  unfold merge_catalog. rewrite bind_run.
  rewrite (scan_skips_newer _ _ _ Hnewer).
  cbn [find_dest_and_full]. cbv zeta.
  replace (pgBackup.start_time dest >? backup_id) with false
    by (symmetry; rewrite Z.gtb_ltb; apply Z.ltb_ge; lia).
  rewrite Hdest, Z.eqb_refl. cbn [scan_init dest_backup andb].
  rewrite bool_decide_eq_true_2 by reflexivity.
  split.
  - intros Hrejected.
    replace (negb (bool_decide (pgBackup.status dest = BACKUP_STATUS_OK))
             && negb (bool_decide (pgBackup.status dest
                                   = BACKUP_STATUS_MERGING))
             && negb (bool_decide (pgBackup.status dest
                                   = BACKUP_STATUS_DELETING)))
      with true; [reflexivity|].
    symmetry. apply not_false_iff_true. intros Hfalse.
    apply Hrejected, status_not_rejected3, Hfalse.
  - intros Haccepted Hfull.
    rewrite (dest_status_accepted _ Haccepted).
    rewrite bool_decide_eq_true_2 by exact Hfull. reflexivity.
Qed.

Lemma do_merge_turns_down_destination_witness :
  do_merge Input.release 10 (Sim.start Chain3.world)
  = (Err (ERROR (ErrIsFull 10)),
     (open_catalog (Sim.start Chain3.world)).2).
Proof.
  refine (proj2 (do_merge_turns_down_destination Input.release 10 "node"
                   (Sim.start Chain3.world) _
                   [Chain3.dest; Chain3.middle] Chain3.full [] _ _ _ _ _)
            _ _).
  - discriminate.
  - reflexivity.
  - vm_compute. reflexivity.
  - repeat constructor.
  - reflexivity.
  - left. reflexivity.
  - reflexivity.
Defined.

(** ** A merge that succeeds *)



(** ** Interrupts *)

Section Interrupt.
Context {W : Type} `{Collaborators W}.

Lemma merge_one_file_interrupted argument file (st : mstate W) :
  interrupted (world st) = true →
  merge_one_file argument file st = (Err (ERROR ErrInterrupted), st).
Proof.
  intros Hint. unfold merge_one_file.
  rewrite bind_run, read_interrupted_run, Hint. reflexivity.
Qed.

(** A turn after the interrupt: nothing is asked of the collaborators; the
    worker passes over a claimed entry, or claims an entry and stops. *)
Lemma merge_files_turn_interrupted t files (st : mstate W) :
  interrupted (world st) = true →
  (exited t = false → ret (arg t) = 1) →
  ∃ t' files',
    merge_files_turn t files st = (Ok (t', files'), st) ∧
    (files' = files ∨ (exited t' = true ∧ ret (arg t') = 1)) ∧
    (exited t = true → t' = t).
Proof.
  intros Hint Hret. unfold merge_files_turn.
  destruct (exited t) eqn:Hex;
    [eexists _, _; split; [reflexivity|]; auto|].
  destruct (files !! next_file t) as [[file|]|];
    [|solve [eexists _, _; split; [reflexivity|];
             split; [left; reflexivity|discriminate]]..].
  destruct (pgFile.lock file);
    [solve [eexists _, _; split; [reflexivity|];
            split; [left; reflexivity|discriminate]]|].
  cbv zeta. rewrite merge_one_file_interrupted by exact Hint.
  eexists _, _. split; [reflexivity|]. split; [right|discriminate].
  cbn. auto.
Qed.

Lemma run_schedule_interrupted sched :
  ∀ threads files (st : mstate W),
    interrupted (world st) = true →
    Forall (thread_ok files) threads →
    ∃ threads' files',
      run_schedule sched threads files st = (Ok (threads', files'), st) ∧
      (files' = files ∨ failed threads') ∧
      (failed threads → failed threads').
Proof.
  induction sched as [|k sched IH]; intros threads files st Hint Hall;
    cbn [run_schedule].
  - eexists _, _. split; [reflexivity|]. auto.
  - destruct (threads !! k) as [t|] eqn:Hk; [|apply IH; assumption].
    pose proof (Forall_lookup_1 _ _ _ _ Hall Hk) as (_ & Hrun & _).
    destruct (merge_files_turn_interrupted t files st Hint)
      as (t' & files' & Hturn & Hfiles & Hsame);
      [intros Hex; apply Hrun, Hex|].
    destruct (merge_files_turn_inv _ _ _ _ _ _ Hturn)
      as (Hlen & _ & Hmono & Hok & _).
    destruct (IH (<[k := t']> threads) files' st Hint)
      as (threads' & files'' & Hrest & Hfiles' & Hfailed).
    { apply Forall_insert.
      - eapply Forall_impl; [exact Hall|]. intros t0.
        apply thread_ok_mono; auto.
      - apply Hok. eapply Forall_lookup_1; eauto. }
    exists threads', files''. rewrite (bind_Ok _ _ _ _ _ Hturn).
    split; [exact Hrest|]. split.
    + destruct Hfiles' as [->|Hf]; [|auto].
      destruct Hfiles as [->|[Hex Hret]]; [auto|].
      right. apply Hfailed. exists k, t'.
      rewrite list_lookup_insert_eq by (eapply lookup_lt_Some; eauto). auto.
    + intros Hf. eapply Hfailed, failed_insert; eauto.
Qed.

Lemma run_to_end_interrupted fuel :
  ∀ t files (st : mstate W),
    interrupted (world st) = true →
    thread_ok files t →
    ∃ t' files',
      run_to_end fuel t files st = (Ok (t', files'), st) ∧
      (files' = files ∨ (exited t' = true ∧ ret (arg t') = 1)) ∧
      (exited t = true → t' = t).
Proof.
  induction fuel as [|fuel IH]; intros t files st Hint Hok;
    cbn [run_to_end].
  - eexists _, _. split; [reflexivity|]. auto.
  - destruct (exited t) eqn:Hex; [eexists _, _; split; [reflexivity|]; auto|].
    destruct (merge_files_turn_interrupted t files st Hint)
      as (t1 & files1 & Hturn & Hfiles & _);
      [intros _; apply Hok, Hex|].
    destruct (merge_files_turn_inv _ _ _ _ _ _ Hturn)
      as (_ & _ & _ & Hok1 & _).
    destruct (IH t1 files1 st Hint (Hok1 Hok))
      as (t' & files' & Hrest & Hfiles' & Hsame).
    exists t', files'. rewrite (bind_Ok _ _ _ _ _ Hturn).
    split; [exact Hrest|]. split; [|discriminate].
    destruct Hfiles' as [->|Hf]; [|auto].
    destruct Hfiles as [->|[Hex1 Hret1]]; [auto|].
    right. rewrite (Hsame Hex1). auto.
Qed.

Lemma join_from_interrupted n :
  ∀ k threads files (st : mstate W),
    interrupted (world st) = true →
    Forall (thread_ok files) threads →
    ∃ threads' files',
      join_from k n threads files st = (Ok (threads', files'), st) ∧
      (files' = files ∨ failed threads') ∧
      (failed threads → failed threads').
Proof.
  induction n as [|n IH]; intros k threads files st Hint Hall;
    cbn [join_from].
  - eexists _, _. split; [reflexivity|]. auto.
  - destruct (threads !! k) as [t|] eqn:Hk;
      [|eexists _, _; split; [reflexivity|]; auto].
    pose proof (Forall_lookup_1 _ _ _ _ Hall Hk) as Ht.
    destruct (run_to_end_interrupted (S (length files)) t files st Hint Ht)
      as (t' & files' & Hend & Hfiles & Hsame).
    destruct (run_to_end_inv _ _ _ _ _ _ _ Hend) as (Hlen & Hmono & Hok).
    destruct (IH (S k) (<[k := t']> threads) files' st Hint)
      as (threads' & files'' & Hrest & Hfiles' & Hfailed).
    { apply Forall_insert.
      - eapply Forall_impl; [exact Hall|]. intros t0.
        apply thread_ok_mono; auto.
      - apply Hok, Ht. }
    exists threads', files''. rewrite (bind_Ok _ _ _ _ _ Hend).
    split; [exact Hrest|]. split.
    + destruct Hfiles' as [->|Hf]; [|auto].
      destruct Hfiles as [->|[Hex Hret]]; [auto|].
      right. apply Hfailed. exists k, t'.
      rewrite list_lookup_insert_eq by (eapply lookup_lt_Some; eauto). auto.
    + intros Hf. eapply Hfailed, failed_insert; eauto.
Qed.

(** X24: once the user has interrupted the program, workers that find an
    entry still to be merged merge nothing: whatever the order of their
    turns, the pair merge fails with "Data files merging failed" and no
    collaborator has been called. *)
Theorem interrupt_fails_pair_merge (threads : list thread)
    (files : list pgFile) (st : mstate W) (j : nat) (file : pgFile) :
  interrupted (world st) = true →
  threads ≠ [] →
  Forall fresh threads →
  files !! j = Some file →
  pgFile.lock file = false →
  start_and_wait_threads threads files st
  = (Err (ERROR ErrDataFilesMergingFailed), st).
Proof.
  intros Hint Hne Hfresh Hj Hlock.
  assert (Hall : Forall (thread_ok (Entry <$> files)) threads)
    by (eapply Forall_impl; [exact Hfresh|]; apply fresh_thread_ok).
  destruct (run_schedule_interrupted (schedule (world st)) threads
              (Entry <$> files) st Hint Hall)
    as (threads1 & files1 & Hsched & Hfiles1 & _).
  destruct (run_schedule_inv _ _ _ _ _ _ _ Hsched)
    as (Hlen1 & _ & _ & _ & Hok1 & _).
  destruct (join_from_interrupted (length threads1) 0 threads1 files1 st Hint
              (Hok1 Hall)) as (threads2 & files2 & Hjoin & Hfiles2 & Hfailed).
  destruct (join_from_inv _ _ _ _ _ _ _ _ Hjoin) as (Hlen2 & _ & _ & Hok2).
  assert (Hrun : run_threads threads (Entry <$> files) st
                 = (Ok (threads2, files2), st)).
  { unfold run_threads. rewrite (bind_Ok _ _ _ _ _ Hsched). exact Hjoin. }
  unfold start_and_wait_threads. rewrite (bind_Ok _ _ _ _ _ Hrun).
  assert (Hnot : merge_isok threads2 = false); [|rewrite Hnot; reflexivity].
  assert (Hcase : files2 = Entry <$> files ∨ failed threads2).
  { destruct Hfiles2 as [->|Hf]; [|auto].
    destruct Hfiles1 as [->|Hf]; auto. }
  destruct Hcase as [->|(k & t & Hk & _ & Hret)];
    [|eapply merge_isok_false; eauto].
  destruct threads2 as [|t threads2];
    [destruct threads1; [destruct threads; [congruence|]|]; discriminate|].
  pose proof (Hok2 (Hok1 Hall)) as Hall2.
  apply Forall_cons in Hall2 as [(Hret & _ & Hdone) _].
  destruct Hret as [Hzero|Hone].
  - destruct (Hdone Hzero j) as (s & Hs & Hc).
    + rewrite length_fmap. eapply lookup_lt_Some, Hj.
    + rewrite list_lookup_fmap, Hj in Hs. injection Hs as <-.
      cbn in Hc. congruence.
  - apply (merge_isok_false _ 0%nat t); [reflexivity|exact Hone].
Qed.

End Interrupt.

Lemma interrupt_fails_pair_merge_witness :
  start_and_wait_threads TwoWorkers.threads TwoWorkers.files
    (Sim.start Interrupted.world)
  = (Err (ERROR ErrDataFilesMergingFailed), Sim.start Interrupted.world).
Proof.
  apply (interrupt_fails_pair_merge TwoWorkers.threads TwoWorkers.files
           (Sim.start Interrupted.world) 1
           (Input.entry "postgresql.conf" Input.mode_reg 300 300 (-1)
              NOT_DEFINED_COMPRESS false 0)).
  - reflexivity.
  - discriminate.
  - repeat constructor.
  - reflexivity.
  - reflexivity.
Defined.

(** ** The setting up of the manifest *)

Lemma creations_snoc log e :
  creations (log ++ [e])
  = creations log ++ match creation_asked e with
                     | Some path => [path]
                     | None => []
                     end.
Proof.
  unfold creations. rewrite omap_app. cbn.
  destruct (creation_asked e); reflexivity.
Qed.

(** X25: when the setting up of the source manifest returns, every entry
    of the manifest is unclaimed and otherwise as it was, and the
    directories created are those of the entries that are directories of
    an extra directory, each in the destination's container of the number
    the entry has in the source backup, in the order of the manifest. *)
Theorem setup_files_unclaims {W} `{Collaborators W} (to_extra_prefix : fspath)
    (files : list pgFile) (st : mstate W) (files' : list pgFile)
    (st' : mstate W) :
  setup_files to_extra_prefix files st = (Ok files', st') →
  files' = pgFile.set_lock false <$> files ∧
  creations (trace st')
  = creations (trace st)
    ++ ((λ file,
           join_path_components
             (makeExtraDirPathByNum to_extra_prefix
                (pgFile.extra_dir_num file))
             (pgFile.path file))
          <$> extra_directories files).
Proof.
  unfold extra_directories. revert st files' st'.
  induction files as [|file files IH]; intros st files' st' Hrun;
    cbn [setup_files] in Hrun.
  - injection Hrun as <- <-. rewrite app_nil_r. auto.
  - apply bind_Ok_inv in Hrun as ([] & st1 & Hdir & Hrun).
    apply bind_Ok_inv in Hrun as (rest' & st2 & Hrest & Hrun).
    injection Hrun as <- <-.
    destruct (IH _ _ _ Hrest) as [-> Hlog].
    split; [reflexivity|]. rewrite Hlog, filter_cons.
    destruct (Z.eqb_spec (pgFile.extra_dir_num file) 0) as [Hnum|Hnum];
      cbn [negb andb] in Hdir.
    + injection Hdir as <-.
      rewrite decide_False by (intros [Hne _]; contradiction). reflexivity.
    + destruct (S_ISDIR (pgFile.mode file)) eqn:Hmode.
      * apply io_inv in Hdir as (rep & w & _ & -> & _). cbn [trace].
        rewrite creations_snoc. cbn [creation_asked].
        rewrite decide_True by auto. cbn. rewrite <- app_assoc. reflexivity.
      * injection Hdir as <-.
        rewrite decide_False by (intros [_ Hdir]; discriminate). reflexivity.
Qed.

Lemma setup_files_unclaims_witness :
  ∃ st',
    setup_files (pgBackupGetPath 10 (Some EXTRA_DIR)) ExtraTree.files
      (Sim.start Input.quiet_world)
    = (Ok (pgFile.set_lock false <$> ExtraTree.files), st') ∧
    creations (trace st')
    = [join_path_components
         (makeExtraDirPathByNum (pgBackupGetPath 10 (Some EXTRA_DIR)) 1)
         "conf"].
Proof.
  assert (Hrun : ∃ files' st',
            setup_files (pgBackupGetPath 10 (Some EXTRA_DIR)) ExtraTree.files
              (Sim.start Input.quiet_world) = (Ok files', st'))
    by (eexists _, _; vm_compute; reflexivity).
  destruct Hrun as (files' & st' & Hrun).
  destruct (setup_files_unclaims _ _ _ _ _ Hrun) as [Hfiles Hlog].
  exists st'. rewrite <- Hfiles. split; [exact Hrun|exact Hlog].
Defined.
